(** * image-conversion: RGB to grayscale with brightness and contrast

    A shallow embedding of the three conversion strategies of
    [Implementierung/modules]:

    - [brightness_contrast_V0] (brightness_contrast_sse.c), the SSE variant,
      with its helpers [convert_coeffs_to_max256], [sum_mm_epi16] and
      [load_and_convert_to_grey16];
    - [brightness_contrast_V1] and [brightness_contrast_V2]
      (brightness_contrast.c), the two scalar variants;
    - [sqrtHeron] and [checkParams] (util.c).

    C [float] is IEEE 754 binary32 and [double] is binary64, both taken
    from the Standard Library's executable specification [SpecFloat]
    (round to nearest, ties to even).  Expressions are evaluated in the
    type C gives them on x86-64 with SSE (FLT_EVAL_METHOD = 0, no fused
    multiply-add).  A conversion from a floating value to an integer type
    that cannot hold the truncated value is undefined in C; the embedding
    reports it as [UB] instead of choosing a value. *)

From Stdlib Require Import ZArith List Bool Lia.
From Stdlib Require Import Floats.SpecFloat.
From Stdlib Require Decimal DecimalPos DecimalFacts.
Import ListNotations.

Local Open Scope Z_scope.

(** ** Results of running C code *)

(** [Done a]: the code returned [a].  [UB]: the run reached a conversion
    whose behaviour C leaves undefined.  [Timeout]: a loop without a bound
    of its own was cut off by the fuel of the model. *)
Inductive exec (A : Type) : Type :=
| Done (a : A)
| UB
| Timeout.

Arguments Done {A} a.
Arguments UB {A}.
Arguments Timeout {A}.

Definition bind {A B : Type} (m : exec A) (k : A -> exec B) : exec B :=
  match m with
  | Done a => k a
  | UB => UB
  | Timeout => Timeout
  end.

Notation "x <- m ;; k" := (bind m (fun x => k))
  (at level 61, m at next level, right associativity).

(** ** Floating point *)

Definition float := spec_float.   (* C float: binary32 *)
Definition double := spec_float.  (* C double: binary64 *)

Module F32.
Definition prec := 24.
Definition emax := 128.
Definition add : float -> float -> float := SFadd prec emax.
Definition sub : float -> float -> float := SFsub prec emax.
Definition mul : float -> float -> float := SFmul prec emax.
Definition div : float -> float -> float := SFdiv prec emax.
Definition of_int (z : Z) : float := binary_normalize prec emax z 0 false.
(** Rounds a finite binary value to the format (double to float). *)
Definition round (x : spec_float) : float :=
  match x with
  | S754_finite s m e => binary_round prec emax s m e
  | _ => x
  end.
Definition valid (x : float) : bool := valid_binary prec emax x.
End F32.

Module F64.
Definition prec := 53.
Definition emax := 1024.
Definition add : double -> double -> double := SFadd prec emax.
Definition sub : double -> double -> double := SFsub prec emax.
Definition mul : double -> double -> double := SFmul prec emax.
Definition div : double -> double -> double := SFdiv prec emax.
Definition of_int (z : Z) : double := binary_normalize prec emax z 0 false.
(** Float to double: every binary32 value is a binary64 value. *)
Definition round (x : spec_float) : double :=
  match x with
  | S754_finite s m e => binary_round prec emax s m e
  | _ => x
  end.
Definition valid (x : double) : bool := valid_binary prec emax x.
End F64.

Definition isnan (x : spec_float) : bool :=
  match x with S754_nan => true | _ => false end.

Definition isinf (x : spec_float) : bool :=
  match x with S754_infinity _ => true | _ => false end.

Definition fzero : spec_float := S754_zero false.

(** C comparisons; every comparison with a NaN is false, except [!=]. *)
Definition flt (x y : spec_float) : bool := SFltb x y.
Definition fgt (x y : spec_float) : bool := SFltb y x.
Definition feq (x y : spec_float) : bool := SFeqb x y.
Definition fne (x y : spec_float) : bool := negb (SFeqb x y).

(** Truncation toward zero of a floating value; [None] for NaN and the
    infinities. *)
Definition ftrunc (x : spec_float) : option Z :=
  match x with
  | S754_zero _ => Some 0
  | S754_finite s m e =>
      let q := match e with
               | Z0 => Zpos m
               | Zpos p => Z.shiftl (Zpos m) e
               | Zneg p => Z.shiftr (Zpos m) (Zpos p)
               end in
      Some (if s then - q else q)
  | _ => None
  end.

(** Conversion to an integer type with values [lo..hi]. *)
Definition fcast (lo hi : Z) (x : spec_float) : exec Z :=
  match ftrunc x with
  | Some z => if (lo <=? z) && (z <=? hi) then Done z else UB
  | None => UB
  end.

Definition to_uint8 : spec_float -> exec Z := fcast 0 255.
Definition to_uint16 : spec_float -> exec Z := fcast 0 65535.
Definition to_int16 : spec_float -> exec Z := fcast (-32768) 32767.

(** ** util.c *)

(** [sqrtHeron]: the loop [while (x != x0)] has no bound of its own; [fuel]
    bounds the number of times its body runs. *)
Fixpoint sqrtHeron_loop (fuel : nat) (n x x0 : float) : exec float :=
  if fne x x0 then
    match fuel with
    | O => Timeout
    | S fuel' =>
        sqrtHeron_loop fuel' n
          (F32.div (F32.add x (F32.div n x)) (F32.of_int 2)) x
    end
  else Done x.

Definition sqrtHeron (fuel : nat) (n : float) : exec float :=
  if flt n (F32.of_int 0) || isnan n || isinf n then Done S754_nan
  else if feq n fzero then Done (F32.of_int 0)
  else sqrtHeron_loop fuel n
         (F32.div (F32.add n (F32.of_int 1)) (F32.of_int 2)) (F32.of_int 0).

(** The checks of [checkParams] that concern the conversion itself; the
    coefficients arrive as [double].  [contrast] is NaN when unset. *)
Definition checkParams (a b c : double) (brightness : Z) (contrast : float)
  : bool :=
  if (brightness <? -255) || (255 <? brightness) then false
  else if negb (isnan contrast)
          && (flt contrast (F32.of_int (-255))
              || fgt contrast (F32.of_int 255)) then false
  else if flt a (F64.of_int 0) || flt b (F64.of_int 0)
          || flt c (F64.of_int 0) then false
  else if feq (F64.add (F64.add a b) c) fzero then false
  else true.

(** ** Loops over the pixel indices *)

(** [for (i = start; i < start + n; i++) s = body i s]. *)
Fixpoint for_loop {St : Type} (body : nat -> St -> exec St)
  (start n : nat) (s : St) : exec St :=
  match n with
  | O => Done s
  | S n' => s' <- body start s ;; for_loop body (S start) n' s'
  end.

(** The same loop for a body that cannot go wrong. *)
Fixpoint for_pure {St : Type} (body : nat -> St -> St)
  (start n : nat) (s : St) : St :=
  match n with
  | O => s
  | S n' => for_pure body (S start) n' (body start s)
  end.

(** A loop that rewrites every cell of a buffer from its own content. *)
Fixpoint for_buf (f : Z -> exec Z) (buf : list Z) : exec (list Z) :=
  match buf with
  | [] => Done []
  | v :: rest => v' <- f v ;; rest' <- for_buf f rest ;; Done (v' :: rest')
  end.

Definition img_at (img : list Z) (k : nat) : Z := nth k img 0.

(** The clamp used after brightness and in the lookup table:
    [if (res > 255) 255 else if (res < 0) 0 else (uint8_t) res]. *)
Definition clamp_float (res : float) : exec Z :=
  if fgt res (F32.of_int 255) then Done 255
  else if flt res (F32.of_int 0) then Done 0
  else to_uint8 res.

(** The same chain on an [int16_t] value. *)
Definition clamp_int (res : Z) : Z :=
  if 255 <? res then 255 else if res <? 0 then 0 else res.

(** ** The statistics and the contrast parameters (shared text of V0, V1, V2) *)

(** [for (i...) var += (result[i] - mean) * (result[i] - mean)]. *)
Definition var_sum (mean : double) (acc : double) (buf : list Z) : double :=
  fold_left
    (fun var v =>
       let d := F64.sub (F64.of_int v) mean in
       F64.add var (F64.mul d d))
    buf acc.

(** [float kstd = 0.0; if (var != 0.0) { kstd = contrast / sqrtHeron(var);
    if (isnan(kstd) || isinf(kstd)) return 0; }]: [None] is the early
    [return 0]. *)
Definition compute_kstd (fuel : nat) (contrast : float) (var : double)
  : exec (option float) :=
  if fne var fzero then
    s <- sqrtHeron fuel (F32.round var) ;;
    let kstd := F32.div contrast s in
    if isnan kstd || isinf kstd then Done None else Done (Some kstd)
  else Done (Some fzero).

(** [float summand = (1 - kstd) * mean]: the product is a [double]. *)
Definition compute_summand (kstd : float) (mean : double) : float :=
  F32.round (F64.mul (F64.round (F32.sub (F32.of_int 1) kstd)) mean).

(** ** brightness_contrast.c *)

(** [a * img[i*3] + b * img[i*3+1] + c * img[i*3+2]] in [float]. *)
Definition weighted_sum (a b c : float) (img : list Z) (i : nat) : float :=
  F32.add
    (F32.add (F32.mul a (F32.of_int (img_at img (i * 3))))
             (F32.mul b (F32.of_int (img_at img (i * 3 + 1)))))
    (F32.mul c (F32.of_int (img_at img (i * 3 + 2)))).

(** The loop state of the first pass: the running [mean] and the part of
    [result] written so far (cell [i] is written in iteration [i]). *)
Definition pass_state : Type := (double * list Z)%type.

Definition push (v : Z) (add_mean : bool) (s : pass_state) : pass_state :=
  let '(mean, result) := s in
  ((if add_mean then F64.add mean (F64.of_int v) else mean), result ++ [v]).

(** Lookup table of V1: [res = kstd * i + summand] in [float]. *)
Definition lookup_V1 (kstd summand : float) : exec (list Z) :=
  for_loop
    (fun i lookup =>
       v <- clamp_float (F32.add (F32.mul kstd (F32.of_int (Z.of_nat i))) summand) ;;
       Done (lookup ++ [v]))
    0 256 [].

Definition V1_body (a b c : float) (img : list Z) (brightness : Z)
  (contrast_set : bool) (i : nat) (s : pass_state) : exec pass_state :=
  let res := weighted_sum a b c img i in
  if brightness =? 0 then
    v <- to_uint8 res ;; Done (push v contrast_set s)
  else
    let res := F32.add res (F32.of_int brightness) in
    if fgt res (F32.of_int 255) then Done (push 255 contrast_set s)
    else if flt res (F32.of_int 0) then Done (push 0 false s)
    else v <- to_uint8 res ;; Done (push v contrast_set s).

(** Returns the return code and the content of [result]. *)
Definition brightness_contrast_V1 (fuel : nat) (img : list Z)
  (width height : nat) (a b c : float) (brightness : Z) (contrast : float)
  : exec (Z * list Z) :=
  let wh := (width * height)%nat in
  let sum := F32.add (F32.add a b) c in
  let a := F32.div a sum in
  let b := F32.div b sum in
  let c := F32.div c sum in
  if isnan contrast then
    s <- for_loop (V1_body a b c img brightness false) 0 wh (fzero, []) ;;
    Done (1, snd s)
  else
    s <- for_loop (V1_body a b c img brightness true) 0 wh (fzero, []) ;;
    let '(mean, result) := s in
    let mean := F64.div mean (F64.of_int (Z.of_nat wh)) in
    let var := F64.div (var_sum mean fzero result) (F64.of_int (Z.of_nat wh)) in
    k <- compute_kstd fuel contrast var ;;
    match k with
    | None => Done (0, result)
    | Some kstd =>
        let summand := compute_summand kstd mean in
        if isnan summand || isinf summand then Done (0, result)
        else
          lookup <- lookup_V1 kstd summand ;;
          Done (1, map (fun v => nth (Z.to_nat v) lookup 0) result)
    end.

Definition V2_grey (a b c : float) (img : list Z) (i : nat)
  (result : list Z) : exec (list Z) :=
  let res := F32.div (weighted_sum a b c img i) (F32.add (F32.add a b) c) in
  v <- to_uint8 res ;; Done (result ++ [v]).

Definition V2_brightness (brightness : Z) (v : Z) : exec Z :=
  clamp_float (F32.of_int (v + brightness)).

Definition V2_contrast (kstd : float) (mean : double) (v : Z) : exec Z :=
  clamp_float
    (F32.round
       (F64.add (F64.round (F32.mul kstd (F32.of_int v)))
                (F64.mul (F64.round (F32.sub (F32.of_int 1) kstd)) mean))).

Definition brightness_contrast_V2 (fuel : nat) (img : list Z)
  (width height : nat) (a b c : float) (brightness : Z) (contrast : float)
  : exec (Z * list Z) :=
  let wh := (width * height)%nat in
  result <- for_loop (V2_grey a b c img) 0 wh [] ;;
  result <- (if brightness =? 0 then Done result
             else for_buf (V2_brightness brightness) result) ;;
  if negb (isnan contrast) then
    let mean := fold_left (fun m v => F64.add m (F64.of_int v)) result fzero in
    let mean := F64.div mean (F64.of_int (Z.of_nat wh)) in
    let var := F64.div (var_sum mean fzero result) (F64.of_int (Z.of_nat wh)) in
    k <- compute_kstd fuel contrast var ;;
    match k with
    | None => Done (0, result)
    | Some kstd =>
        let summand := compute_summand kstd mean in
        if isnan summand || isinf summand then Done (0, result)
        else
          result <- for_buf (V2_contrast kstd mean) result ;;
          Done (1, result)
    end
  else Done (1, result).

(** ** brightness_contrast_sse.c *)

Definition wrap16 (z : Z) : Z := z mod 65536.

(** The value of a 16-bit pattern read as [int16_t]. *)
Definition signed16 (z : Z) : Z := if z <? 32768 then z else z - 65536.

(** [256.0 * a / sum - coeffs[k]], computed in [double], stored in a
    [float]. *)
Definition coeff_diff (a sum : float) (coeff : Z) : float :=
  F32.round
    (F64.sub
       (F64.div (F64.mul (F64.of_int 256) (F64.round a)) (F64.round sum))
       (F64.of_int coeff)).

(** One run of the [else] branch of the loop of
    [convert_coeffs_to_max256].  The test is on [sum], the sum of the three
    [float] arguments, as in the source. *)
Definition adjust_coeffs (a b c sum : float) (coeffs : Z * Z * Z)
  : Z * Z * Z :=
  let '(c0, c1, c2) := coeffs in
  let a_diff := coeff_diff a sum c0 in
  let b_diff := coeff_diff b sum c1 in
  let c_diff := coeff_diff c sum c2 in
  if flt sum (F32.of_int 256) then
    if fgt a_diff b_diff then
      if fgt a_diff c_diff then (wrap16 (c0 + 1), c1, c2)
      else (c0, c1, wrap16 (c2 + 1))
    else
      if fgt b_diff c_diff then (c0, wrap16 (c1 + 1), c2)
      else (c0, c1, wrap16 (c2 + 1))
  else
    if flt a_diff b_diff then
      if flt a_diff c_diff then (wrap16 (c0 - 1), c1, c2)
      else (c0, c1, wrap16 (c2 - 1))
    else
      if flt b_diff c_diff then (c0, wrap16 (c1 - 1), c2)
      else (c0, c1, wrap16 (c2 - 1)).

Definition coeffs_total (coeffs : Z * Z * Z) : Z :=
  let '(c0, c1, c2) := coeffs in c0 + c1 + c2.

(** [while (1)]: [fuel] bounds the number of adjustments. *)
Fixpoint convert_coeffs_loop (fuel : nat) (a b c sum : float)
  (coeffs : Z * Z * Z) : exec (Z * Z * Z) :=
  if coeffs_total coeffs =? 256 then Done coeffs
  else
    match fuel with
    | O => Timeout
    | S fuel' =>
        convert_coeffs_loop fuel' a b c sum (adjust_coeffs a b c sum coeffs)
    end.

Definition convert_coeffs_to_max256 (fuel : nat) (a b c : float)
  : exec (Z * Z * Z) :=
  let sum := F32.add (F32.add a b) c in
  c0 <- to_uint16 (F32.mul (F32.of_int 256) (F32.div a sum)) ;;
  c1 <- to_uint16 (F32.mul (F32.of_int 256) (F32.div b sum)) ;;
  c2 <- to_uint16 (F32.mul (F32.of_int 256) (F32.div c sum)) ;;
  convert_coeffs_loop fuel a b c sum (c0, c1, c2).

(** *** SSE registers and intrinsics

    An [__m128i] is its 16 bytes, lowest first; 16-bit and 32-bit lanes are
    little endian.  An [__m128] is its four [float] lanes. *)
Definition m128i := list Z.
Definition m128 := list float.

Definition byte_at (v : m128i) (k : nat) : Z := nth k v 0.

Definition epi16_lanes (v : m128i) : list Z :=
  map (fun k => byte_at v (2 * k) + 256 * byte_at v (2 * k + 1)) (seq 0 8).

Definition of_epi16 (lanes : list Z) : m128i :=
  flat_map (fun x => [x mod 256; (x / 256) mod 256]) lanes.

Fixpoint map2 {A B C : Type} (f : A -> B -> C) (l : list A) (l' : list B)
  : list C :=
  match l, l' with
  | x :: r, y :: r' => f x y :: map2 f r r'
  | _, _ => []
  end.

Definition _mm_setzero_si128 : m128i := repeat 0 16%nat.
Definition _mm_set1_epi16 (a : Z) : m128i := of_epi16 (repeat (wrap16 a) 8%nat).
Definition _mm_setr_epi8 (bytes : list Z) : m128i :=
  map (fun b => b mod 256) bytes.
Definition _mm_loadu_si128 (mem : list Z) (off : nat) : m128i :=
  map (fun k => nth (off + k) mem 0) (seq 0 16).
Definition _mm_shuffle_epi8 (a mask : m128i) : m128i :=
  map (fun m => if 128 <=? m then 0 else byte_at a (Z.to_nat (Z.land m 15)))
      mask.
Definition _mm_or_si128 (a b : m128i) : m128i := map2 Z.lor a b.
Definition _mm_add_epi16 (a b : m128i) : m128i :=
  of_epi16 (map2 (fun x y => wrap16 (x + y)) (epi16_lanes a) (epi16_lanes b)).
Definition _mm_mullo_epi16 (a b : m128i) : m128i :=
  of_epi16 (map2 (fun x y => wrap16 (x * y)) (epi16_lanes a) (epi16_lanes b)).
Definition _mm_srli_epi16 (a : m128i) (n : Z) : m128i :=
  of_epi16 (map (fun x => Z.shiftr x n) (epi16_lanes a)).
Definition _mm_min_epi16 (a b : m128i) : m128i :=
  of_epi16 (map2 (fun x y => if signed16 x <? signed16 y then x else y)
                 (epi16_lanes a) (epi16_lanes b)).
Definition _mm_max_epi16 (a b : m128i) : m128i :=
  of_epi16 (map2 (fun x y => if signed16 x <? signed16 y then y else x)
                 (epi16_lanes a) (epi16_lanes b)).
Definition _mm_srli_si128 (a : m128i) (n : nat) : m128i :=
  skipn n a ++ repeat 0 n.
Definition _mm_extract_epi16 (a : m128i) (k : nat) : Z :=
  nth k (epi16_lanes a) 0.

Definition _mm_set1_ps (x : float) : m128 := [x; x; x; x].
(** [_mm_cvtepi32_ps (_mm_cvtepu8_epi32 v)]: the four low bytes of [v],
    zero extended to 32 bits, as [float]s. *)
Definition _mm_cvtepu8_epi32 (v : m128i) : m128i :=
  flat_map (fun k => [byte_at v k; 0; 0; 0]) (seq 0 4).
Definition epi32_lane (v : m128i) (k : nat) : Z :=
  let u := byte_at v (4 * k) + 256 * byte_at v (4 * k + 1)
           + 65536 * byte_at v (4 * k + 2)
           + 16777216 * byte_at v (4 * k + 3) in
  if u <? 2147483648 then u else u - 4294967296.
Definition _mm_cvtepi32_ps (v : m128i) : m128 :=
  map (fun k => F32.of_int (epi32_lane v k)) (seq 0 4).
Definition _mm_add_ps (a b : m128) : m128 := map2 F32.add a b.
Definition _mm_mul_ps (a b : m128) : m128 := map2 F32.mul a b.
Definition lane_ps (a : m128) (k : nat) : float := nth k a S754_nan.
Definition _mm_hadd_ps (a b : m128) : m128 :=
  [F32.add (lane_ps a 0) (lane_ps a 1); F32.add (lane_ps a 2) (lane_ps a 3);
   F32.add (lane_ps b 0) (lane_ps b 1); F32.add (lane_ps b 2) (lane_ps b 3)].
Definition _mm_cvtss_f32 (a : m128) : float := lane_ps a 0.

Definition sum_mm_epi16 (vector : m128i) : Z :=
  let sum1 := _mm_add_epi16 vector (_mm_srli_si128 vector 8) in
  let sum2 := _mm_add_epi16 sum1 (_mm_srli_si128 sum1 4) in
  let sum3 := _mm_add_epi16 sum2 (_mm_srli_si128 sum2 2) in
  _mm_extract_epi16 sum3 0.

(** The shuffle masks of [brightness_contrast_V0]. *)
Definition mask_red1 := _mm_setr_epi8 [0; -1; 3; -1; 6; -1; 9; -1; 12; -1; 15; -1; -1; -1; -1; -1].
Definition mask_green1 := _mm_setr_epi8 [1; -1; 4; -1; 7; -1; 10; -1; 13; -1; -1; -1; -1; -1; -1; -1].
Definition mask_blue1 := _mm_setr_epi8 [2; -1; 5; -1; 8; -1; 11; -1; 14; -1; -1; -1; -1; -1; -1; -1].
Definition mask_red2 := _mm_setr_epi8 [-1; -1; -1; -1; -1; -1; -1; -1; -1; -1; -1; -1; 2; -1; 5; -1].
Definition mask_green2 := _mm_setr_epi8 [-1; -1; -1; -1; -1; -1; -1; -1; -1; -1; 0; -1; 3; -1; 6; -1].
Definition mask_blue2 := _mm_setr_epi8 [-1; -1; -1; -1; -1; -1; -1; -1; -1; -1; 1; -1; 4; -1; 7; -1].
Definition mask_red3 := _mm_setr_epi8 [8; -1; 11; -1; 14; -1; -1; -1; -1; -1; -1; -1; -1; -1; -1; -1].
Definition mask_green3 := _mm_setr_epi8 [9; -1; 12; -1; 15; -1; -1; -1; -1; -1; -1; -1; -1; -1; -1; -1].
Definition mask_blue3 := _mm_setr_epi8 [10; -1; 13; -1; -1; -1; -1; -1; -1; -1; -1; -1; -1; -1; -1; -1].
Definition mask_red4 := _mm_setr_epi8 [-1; -1; -1; -1; -1; -1; 1; -1; 4; -1; 7; -1; 10; -1; 13; -1].
Definition mask_green4 := _mm_setr_epi8 [-1; -1; -1; -1; -1; -1; 2; -1; 5; -1; 8; -1; 11; -1; 14; -1].
Definition mask_blue4 := _mm_setr_epi8 [-1; -1; -1; -1; 0; -1; 3; -1; 6; -1; 9; -1; 12; -1; 15; -1].
Definition mask_grey := _mm_setr_epi8 [0; 2; 4; 6; 8; 10; 12; 14; -1; -1; -1; -1; -1; -1; -1; -1].
Definition mask_grey2 := _mm_setr_epi8 [-1; -1; -1; -1; -1; -1; -1; -1; 0; 2; 4; 6; 8; 10; 12; 14].

(** Returns [( *grey1, *grey2 )]: the grey values of pixels [i .. i+7] and
    [i+8 .. i+15], one per 16-bit lane. *)
Definition load_and_convert_to_grey16 (img : list Z) (i : nat)
  (a_coeff b_coeff c_coeff : m128i) : m128i * m128i :=
  let pixels1 := _mm_loadu_si128 img (3 * i) in
  let pixels2 := _mm_loadu_si128 img (3 * i + 16) in
  let pixels3 := _mm_loadu_si128 img (3 * i + 32) in
  let red1 := _mm_or_si128 (_mm_shuffle_epi8 pixels1 mask_red1) (_mm_shuffle_epi8 pixels2 mask_red2) in
  let red2 := _mm_or_si128 (_mm_shuffle_epi8 pixels2 mask_red3) (_mm_shuffle_epi8 pixels3 mask_red4) in
  let green1 := _mm_or_si128 (_mm_shuffle_epi8 pixels1 mask_green1) (_mm_shuffle_epi8 pixels2 mask_green2) in
  let green2 := _mm_or_si128 (_mm_shuffle_epi8 pixels2 mask_green3) (_mm_shuffle_epi8 pixels3 mask_green4) in
  let blue1 := _mm_or_si128 (_mm_shuffle_epi8 pixels1 mask_blue1) (_mm_shuffle_epi8 pixels2 mask_blue2) in
  let blue2 := _mm_or_si128 (_mm_shuffle_epi8 pixels2 mask_blue3) (_mm_shuffle_epi8 pixels3 mask_blue4) in
  let red1 := _mm_mullo_epi16 red1 a_coeff in
  let green1 := _mm_mullo_epi16 green1 b_coeff in
  let blue1 := _mm_mullo_epi16 blue1 c_coeff in
  let red2 := _mm_mullo_epi16 red2 a_coeff in
  let green2 := _mm_mullo_epi16 green2 b_coeff in
  let blue2 := _mm_mullo_epi16 blue2 c_coeff in
  (_mm_srli_epi16 (_mm_add_epi16 (_mm_add_epi16 red1 green1) blue1) 8,
   _mm_srli_epi16 (_mm_add_epi16 (_mm_add_epi16 red2 green2) blue2) 8).

(** [for (i = start; i < start + 16 * blocks; i += 16) s = body i s]. *)
Fixpoint for_blocks {St : Type} (body : nat -> St -> St)
  (start blocks : nat) (s : St) : St :=
  match blocks with
  | O => s
  | S blocks' => for_blocks body (start + 16) blocks' (body start s)
  end.

(** The grey values of one block of 16 pixels, brightness added and clamped
    to [0,255] when [brightness] is not 0. *)
Definition grey_block (img : list Z) (i : nat) (coeffs : Z * Z * Z)
  (brightness : Z) : m128i * m128i :=
  let '(c0, c1, c2) := coeffs in
  let '(grey1, grey2) :=
    load_and_convert_to_grey16 img i
      (_mm_set1_epi16 c0) (_mm_set1_epi16 c1) (_mm_set1_epi16 c2) in
  if brightness =? 0 then (grey1, grey2)
  else
    let zero := _mm_setzero_si128 in
    let max := _mm_set1_epi16 255 in
    let brightness_vector := _mm_set1_epi16 brightness in
    let grey1 := _mm_add_epi16 grey1 brightness_vector in
    let grey2 := _mm_add_epi16 grey2 brightness_vector in
    let grey1 := _mm_min_epi16 max grey1 in
    let grey1 := _mm_max_epi16 zero grey1 in
    let grey2 := _mm_min_epi16 max grey2 in
    let grey2 := _mm_max_epi16 zero grey2 in
    (grey1, grey2).

(** The 16 bytes stored at [result + i]. *)
Definition pack_grey (grey1 grey2 : m128i) : m128i :=
  _mm_or_si128 (_mm_shuffle_epi8 grey1 mask_grey)
               (_mm_shuffle_epi8 grey2 mask_grey2).

(** State of the vector loop: [mean_vector], [mean], and [result] so far. *)
Definition simd_state : Type := (m128i * double * list Z)%type.

Definition V0_block (img : list Z) (coeffs : Z * Z * Z) (brightness : Z)
  (contrast_set : bool) (i : nat) (s : simd_state) : simd_state :=
  let '(mean_vector, mean, result) := s in
  let '(grey1, grey2) := grey_block img i coeffs brightness in
  if contrast_set then
    let mean_vector := _mm_add_epi16 mean_vector grey1 in
    let mean_vector := _mm_add_epi16 mean_vector grey2 in
    let '(mean_vector, mean) :=
      if (i mod 128 =? 0)%nat
      then (_mm_setzero_si128,
            F64.add mean (F64.of_int (sum_mm_epi16 mean_vector)))
      else (mean_vector, mean) in
    (mean_vector, mean, result ++ pack_grey grey1 grey2)
  else (mean_vector, mean, result ++ pack_grey grey1 grey2).

(** [int16_t res = (coeffs[0] * img[i*3] + ...) / 256]. *)
Definition scalar_grey (coeffs : Z * Z * Z) (img : list Z) (i : nat) : Z :=
  let '(c0, c1, c2) := coeffs in
  signed16 (wrap16
    (Z.quot (c0 * img_at img (i * 3) + c1 * img_at img (i * 3 + 1)
             + c2 * img_at img (i * 3 + 2)) 256)).

(** The loops over the pixels left after the last full block. *)
Definition V0_rest (img : list Z) (coeffs : Z * Z * Z) (brightness : Z)
  (contrast_set : bool) (i : nat) (s : pass_state) : pass_state :=
  let '(mean, result) := s in
  let res := scalar_grey coeffs img i in
  if brightness =? 0 then
    ((if contrast_set then F64.add mean (F64.of_int res) else mean),
     result ++ [res mod 256])
  else
    let res := signed16 (wrap16 (res + brightness)) in
    if 255 <? res then
      ((if contrast_set then F64.add mean (F64.of_int 255) else mean),
       result ++ [255])
    else if res <? 0 then (mean, result ++ [0])
    else
      ((if contrast_set then F64.add mean (F64.of_int res) else mean),
       result ++ [res mod 256]).

(** The four inner rounds on one load of 16 grey values. *)
Definition var_block (neg_mean_vec : m128) (result : list Z) (i : nat)
  (var_vec : m128) : m128 :=
  let round (s : m128 * m128i) : m128 * m128i :=
    let '(var_vec, pixels) := s in
    let pix_flt := _mm_cvtepi32_ps (_mm_cvtepu8_epi32 pixels) in
    let acc := _mm_add_ps pix_flt neg_mean_vec in
    let acc := _mm_mul_ps acc acc in
    (_mm_add_ps var_vec acc, _mm_srli_si128 pixels 4) in
  fst (round (round (round (round (var_vec, _mm_loadu_si128 result i))))).

(** Lookup table of V0: [res] is the [int16_t] declared at the top of the
    function, so [kstd * i + summand] is converted to [int16_t]. *)
Definition lookup_V0 (kstd summand : float) : exec (list Z) :=
  for_loop
    (fun i lookup =>
       res <- to_int16 (F32.add (F32.mul kstd (F32.of_int (Z.of_nat i))) summand) ;;
       Done (lookup ++ [clamp_int res mod 256]))
    0 256 [].

(** The vector loop of V0 over the full blocks, with the flush of
    [mean_vector] that follows it. *)
Definition V0_vector_pass (img : list Z) (blocks : nat) (coeffs : Z * Z * Z)
  (brightness : Z) (contrast_set : bool) : pass_state :=
  let '(mean_vector, mean, result) :=
    for_blocks (V0_block img coeffs brightness contrast_set) 0 blocks
      (_mm_setzero_si128, fzero, []) in
  ((if contrast_set then F64.add mean (F64.of_int (sum_mm_epi16 mean_vector))
    else mean), result).

(** The first pass of V0: vector loop, final flush, scalar rest. *)
Definition V0_pass (img : list Z) (wh : nat) (coeffs : Z * Z * Z)
  (brightness : Z) (contrast_set : bool) : pass_state :=
  for_pure (V0_rest img coeffs brightness contrast_set)
    (wh - wh mod 16) (wh mod 16)
    (V0_vector_pass img (wh / 16) coeffs brightness contrast_set).

(** [fuel] bounds the loop of [convert_coeffs_to_max256] and the loop of
    [sqrtHeron]. *)
Definition brightness_contrast_V0 (fuel : nat) (img : list Z)
  (width height : nat) (a b c : float) (brightness : Z) (contrast : float)
  : exec (Z * list Z) :=
  let wh := (width * height)%nat in
  coeffs <- convert_coeffs_to_max256 fuel a b c ;;
  if isnan contrast then
    Done (1, snd (V0_pass img wh coeffs brightness false))
  else
    let '(mean, result) := V0_pass img wh coeffs brightness true in
    let mean := F64.div mean (F64.of_int (Z.of_nat wh)) in
    let neg_mean_vec :=
      _mm_set1_ps (F32.round (F64.mul (F64.of_int (-1)) mean)) in
    let var_vec :=
      for_blocks (var_block neg_mean_vec result) 0 (wh / 16)
        (_mm_set1_ps fzero) in
    let var_vec := _mm_hadd_ps var_vec var_vec in
    let var_vec := _mm_hadd_ps var_vec var_vec in
    let var := F64.round (_mm_cvtss_f32 var_vec) in
    let var := var_sum mean var (skipn (wh - wh mod 16) result) in
    let var := F64.div var (F64.of_int (Z.of_nat wh)) in
    k <- compute_kstd fuel contrast var ;;
    match k with
    | None => Done (0, result)
    | Some kstd =>
        let summand := compute_summand kstd mean in
        if isnan summand || isinf summand then Done (0, result)
        else
          lookup <- lookup_V0 kstd summand ;;
          Done (1, map (fun v => nth (Z.to_nat v) lookup 0) result)
    end.

(** ** Inputs, contracts and auxiliary definitions of the statements *)

Definition unset : float := S754_nan.    (* contrast not given: NAN *)
Definition one : float := F32.of_int 1.
Definition fifty : float := F32.of_int 50.
Definition hundred : float := F32.of_int 100.
(** 2^127, a finite [float]. *)
Definition two_127 : float := S754_finite false 8388608 104.
(** The coefficients 0.21, 0.72, 0.07 as [sscanf] reads them. *)
Definition w21 : float := F32.div (F32.of_int 21) (F32.of_int 100).
Definition w72 : float := F32.div (F32.of_int 72) (F32.of_int 100).
Definition w07 : float := F32.div (F32.of_int 7) (F32.of_int 100).

(** A red and a black pixel; a red and a blue pixel. *)
Definition img_red_black : list Z := [255; 0; 0; 0; 0; 0].
Definition img_red_blue : list Z := [255; 0; 0; 0; 0; 255].

Definition is_byte (v : Z) : Prop := 0 <= v <= 255.

(** What [main] guarantees before it calls a strategy: [checkParams]
    accepted the parameters and [readPPM] delivered [3 * width * height]
    bytes of a non-empty image. *)
Definition preconditions (img : list Z) (width height : nat)
  (a b c : float) (brightness : Z) (contrast : float) : Prop :=
  checkParams (F64.round a) (F64.round b) (F64.round c) brightness contrast
    = true
  /\ (0 < width * height)%nat
  /\ length img = (3 * (width * height))%nat
  /\ Forall is_byte img.

(** Two buffers of the same length whose cells differ by at most 1. *)
Fixpoint close (out1 out2 : list Z) : bool :=
  match out1, out2 with
  | [], [] => true
  | x :: r1, y :: r2 => (Z.abs (x - y) <=? 1) && close r1 r2
  | _, _ => false
  end.


(** The brightness contract read on V1: the buffer written with a
    brightness is the clamp of the grey buffer plus the brightness. *)
Definition brightness_contract_V1 : Prop :=
  forall fuel img width height a b c brightness grey out,
    preconditions img width height a b c brightness unset ->
    brightness <> 0 ->
    brightness_contrast_V1 fuel img width height a b c 0 unset
      = Done (1, grey) ->
    brightness_contrast_V1 fuel img width height a b c brightness unset
      = Done (1, out) ->
    out = map (fun v => clamp_int (v + brightness)) grey.

(** [convert_coeffs_to_max256] with the three quotients [256.0 * x / sum]
    and the test [sum < 256] computed once; used to run the loop. *)
Definition adjust_cached (qa qb qc : double) (up : bool)
  (coeffs : Z * Z * Z) : Z * Z * Z :=
  let '(c0, c1, c2) := coeffs in
  let a_diff := F32.round (F64.sub qa (F64.of_int c0)) in
  let b_diff := F32.round (F64.sub qb (F64.of_int c1)) in
  let c_diff := F32.round (F64.sub qc (F64.of_int c2)) in
  if up then
    if fgt a_diff b_diff then
      if fgt a_diff c_diff then (wrap16 (c0 + 1), c1, c2)
      else (c0, c1, wrap16 (c2 + 1))
    else
      if fgt b_diff c_diff then (c0, wrap16 (c1 + 1), c2)
      else (c0, c1, wrap16 (c2 + 1))
  else
    if flt a_diff b_diff then
      if flt a_diff c_diff then (wrap16 (c0 - 1), c1, c2)
      else (c0, c1, wrap16 (c2 - 1))
    else
      if flt b_diff c_diff then (c0, wrap16 (c1 - 1), c2)
      else (c0, c1, wrap16 (c2 - 1)).

Fixpoint loop_cached (fuel : nat) (qa qb qc : double) (up : bool)
  (coeffs : Z * Z * Z) : exec (Z * Z * Z) :=
  if coeffs_total coeffs =? 256 then Done coeffs
  else
    match fuel with
    | O => Timeout
    | S fuel' =>
        loop_cached fuel' qa qb qc up (adjust_cached qa qb qc up coeffs)
    end.

Definition ideal_coeff (a sum : float) : double :=
  F64.div (F64.mul (F64.of_int 256) (F64.round a)) (F64.round sum).

(** [cell i] for [i = start .. start + n - 1], in order: the content of a
    buffer whose cell [i] is written once, with [cell i]. *)
Fixpoint pixels_of (cell : nat -> exec Z) (start n : nat) : exec (list Z) :=
  match n with
  | O => Done []
  | S n' =>
      v <- cell start ;; rest <- pixels_of cell (S start) n' ;; Done (v :: rest)
  end.

(** The value V1 stores for pixel [i] when the contrast is unset. *)
Definition V1_pixel (a b c : float) (img : list Z) (brightness : Z)
  (i : nat) : exec Z :=
  if brightness =? 0 then to_uint8 (weighted_sum a b c img i)
  else clamp_float
         (F32.add (weighted_sum a b c img i) (F32.of_int brightness)).

Definition exec_eqb (x y : exec Z) : bool :=
  match x, y with
  | Done u, Done v => u =? v
  | UB, UB => true
  | Timeout, Timeout => true
  | _, _ => false
  end.

(** The clamp of V2's brightness stage, checked on every sum of a byte and
    a brightness. *)
Definition clamp_table_ok : bool :=
  forallb (fun k => let s := Z.of_nat k - 255 in
                    exec_eqb (clamp_float (F32.of_int s)) (Done (clamp_int s)))
          (seq 0 766).

Definition fixp (prec emax e0 z : Z) : spec_float :=
  binary_normalize prec emax z e0 false.

Definition word (x : Z) : Prop := 0 <= x < 65536.

(** A vector of eight 16-bit lanes that all hold a byte. *)
Definition byte_lanes (v : m128i) : Prop :=
  v = of_epi16 (epi16_lanes v) /\ Forall is_byte (epi16_lanes v).

Definition lane_sum (l : list Z) : Z := fold_right Z.add 0 l.

(** One folding step of [sum_mm_epi16] on the lanes. *)
Definition fold_step (k : nat) (l : list Z) : list Z :=
  map2 (fun x y => wrap16 (x + y)) l (skipn k l ++ repeat 0 k).

(** Blocks added to [mean_vector] since its last flush, after [k] blocks. *)
Definition unflushed (k : nat) : Z :=
  match k with
  | O => 0
  | S k' => Z.of_nat (k' mod 8)
  end.

(** The lanes of [mean_vector] after [k] blocks: the vector is made of
    eight 16-bit lanes, each at most 510 per unflushed block. *)
Definition lanes_inv (k : nat) (mean_vector : m128i) : Prop :=
  mean_vector = of_epi16 (epi16_lanes mean_vector)
  /\ Forall (fun x => 0 <= x <= 510 * unflushed k) (epi16_lanes mean_vector).

Definition vector_loop (img : list Z) (coeffs : Z * Z * Z) (brightness : Z)
  (k : nat) : simd_state :=
  for_blocks (V0_block img coeffs brightness true) 0 k
    (_mm_setzero_si128, fzero, []).

(** The grey value of one pixel as the vector code computes it in a 16-bit
    lane. *)
Definition lane_grey (coeffs : Z * Z * Z) (img : list Z) (i : nat) : Z :=
  let '(c0, c1, c2) := coeffs in
  Z.shiftr
    (wrap16 (wrap16 (wrap16 (img_at img (i * 3) * wrap16 c0)
                     + wrap16 (img_at img (i * 3 + 1) * wrap16 c1))
             + wrap16 (img_at img (i * 3 + 2) * wrap16 c2))) 8.

(** The value of a pixel in fixed-point arithmetic with the weights
    [coeffs / 256]: the grey value, plus the brightness, clamped. *)
Definition fixed_grey (coeffs : Z * Z * Z) (img : list Z) (i : nat) : Z :=
  let '(c0, c1, c2) := coeffs in
  (c0 * img_at img (i * 3) + c1 * img_at img (i * 3 + 1)
   + c2 * img_at img (i * 3 + 2)) / 256.

Definition fixed_pixel (coeffs : Z * Z * Z) (img : list Z) (brightness : Z)
  (i : nat) : Z :=
  clamp_int (fixed_grey coeffs img i + brightness).

(** Coefficients as [convert_coeffs_to_max256] returns them. *)
Definition coeffs_ok (coeffs : Z * Z * Z) : Prop :=
  let '(c0, c1, c2) := coeffs in
  0 <= c0 /\ 0 <= c1 /\ 0 <= c2 /\ c0 + c1 + c2 = 256.

(** ** Weights that are multiples of 1/256 *)

(** The [float] [p / 256]. *)
Definition weight256 (p : Z) : float := fixp 24 128 (-8) p.

Definition sf_eqb (x y : spec_float) : bool :=
  match x, y with
  | S754_zero s, S754_zero s' => Bool.eqb s s'
  | S754_infinity s, S754_infinity s' => Bool.eqb s s'
  | S754_nan, S754_nan => true
  | S754_finite s m e, S754_finite s' m' e' =>
      Bool.eqb s s' && Pos.eqb m m' && Z.eqb e e'
  | _, _ => false
  end.

(** [forall z in lo .. lo + n - 1, f z = true], as a computation. *)
Fixpoint all_from (lo : Z) (n : nat) (f : Z -> bool) : bool :=
  match n with
  | O => true
  | S n' => f lo && all_from (lo + 1) n' f
  end.

(** The canonical mantissa and exponent of the positive number [p * 2^e]
    when [p] has at most [prec] digits. *)
Definition canon_m (prec : Z) (p : positive) : positive :=
  Z.to_pos (Zpos p * 2 ^ (prec - Zpos (digits2_pos p))).
Definition canon_e (prec e : Z) (p : positive) : Z :=
  e + Zpos (digits2_pos p) - prec.

(** Position of the leading bit of the value [m * 2^e]. *)
Definition mag (m : positive) (e : Z) : Z := Zpos (digits2_pos m) + e.

(** A positive result of a rounding whose exact value has its leading bit
    at [L] or above: +infinity, or a canonical finite number. *)
Definition pos_above (prec emax L : Z) (x : spec_float) : Prop :=
  x = S754_infinity false
  \/ exists m e, x = S754_finite false m e
                 /\ canonical_mantissa prec emax m e = true
                 /\ L <= mag m e.

(** One term of the sum of [var_sum]: [(v - mean) * (v - mean)]. *)
Definition var_term (mean : double) (v : Z) : double :=
  let d := F64.sub (F64.of_int v) mean in F64.mul d d.

(** [brightness_contrast_V1], lines 70 to 102: the first pass with the
    contrast set, the mean and the variance. *)
Definition V1_statistics (img : list Z) (width height : nat) (a b c : float)
  (brightness : Z) : exec (double * double * list Z) :=
  let wh := (width * height)%nat in
  let sum := F32.add (F32.add a b) c in
  let a := F32.div a sum in
  let b := F32.div b sum in
  let c := F32.div c sum in
  s <- for_loop (V1_body a b c img brightness true) 0 wh (fzero, []) ;;
  let '(mean, result) := s in
  let mean := F64.div mean (F64.of_int (Z.of_nat wh)) in
  let var := F64.div (var_sum mean fzero result) (F64.of_int (Z.of_nat wh)) in
  Done (mean, var, result).

(** The values that depend on the mean only, for a mean that is a byte:
    the summand, the products and sums of the lookup table with
    [kstd = 0], and the value V2 computes. *)
Definition flat_table_ok (v : Z) : bool :=
  sf_eqb (compute_summand fzero (F64.of_int v)) (F32.of_int v)
  && sf_eqb (F32.mul fzero (F32.of_int v)) fzero
  && sf_eqb (F32.add fzero (F32.of_int v)) (F32.of_int v)
  && negb (isnan (F32.of_int v) || isinf (F32.of_int v))
  && exec_eqb (V2_contrast fzero (F64.of_int v) v) (Done v).

(** [brightness_contrast_V2], lines 189 to 199: the mean and the variance
    of the buffer [result] of the brightness stage. *)
Definition V2_statistics (result : list Z) (wh : nat) : double * double :=
  let mean := fold_left (fun m v => F64.add m (F64.of_int v)) result fzero in
  let mean := F64.div mean (F64.of_int (Z.of_nat wh)) in
  let var := F64.div (var_sum mean fzero result) (F64.of_int (Z.of_nat wh)) in
  (mean, var).

(** One run of the body of the loop of [sqrtHeron]: [(x + (n / x)) / 2]. *)
Definition heron_step (n x : float) : float :=
  F32.div (F32.add x (F32.div n x)) (F32.of_int 2).

(** ** util.c *)

Module Util.
Definition MAX_VERSION : Z := 2.

(** A [char *] argument is [None] when it is [NULL]; the characters are
    not looked at. *)
Definition checkParams (V_option B_option : Z)
  (input_filename output_filename : option (list Z)) (a b c : double)
  (brightness : Z) (contrast : float) : bool :=
  if (brightness <? -255) || (255 <? brightness) then false
  else if negb (isnan contrast)
          && (flt contrast (F32.of_int (-255))
              || fgt contrast (F32.of_int 255)) then false
  else if flt a (F64.of_int 0) || flt b (F64.of_int 0)
          || flt c (F64.of_int 0) then false
  else if (V_option <? 0) || (MAX_VERSION <? V_option) then false
  else if B_option <? 0 then false
  else if match output_filename with None => true | Some _ => false end
       then false
  else if match input_filename with None => true | Some _ => false end
       then false
  else if feq (F64.add (F64.add a b) c) fzero then false
  else true.

(** [long] has 64 bits and [int] 32, as on the x86-64 the vector code is
    written for. *)
Definition LONG_MAX : Z := 2 ^ 63 - 1.
Definition LONG_MIN : Z := - 2 ^ 63.
Definition INT_MAX : Z := 2 ^ 31 - 1.
Definition INT_MIN : Z := - 2 ^ 31.

(** The C library's [isspace] and [isdigit] in the C locale. *)
Definition isspace (c : Z) : bool := (c =? 32) || ((9 <=? c) && (c <=? 13)).
Definition isdigit (c : Z) : bool := (48 <=? c) && (c <=? 57).

Fixpoint skip_space (s : list Z) : list Z :=
  match s with
  | c :: r => if isspace c then skip_space r else s
  | [] => []
  end.

(** The value of the digits at the head of [s], after the digits that
    gave [acc], and the characters behind them. *)
Fixpoint digits_value (s : list Z) (acc : Z) : Z * list Z :=
  match s with
  | c :: r => if isdigit c then digits_value r (10 * acc + (c - 48))
              else (acc, s)
  | [] => (acc, [])
  end.

(** [strtol(str, &endptr, 10)] of the C library, on the characters of
    [str] before its terminator: white space, an optional sign, decimal
    digits.  [None]: no digit, nothing is converted and [endptr] is [str].
    Otherwise the value (clamped to [long]), the characters from [endptr]
    on, and whether [errno] is set to [ERANGE]. *)
Definition strtol (str : list Z) : option (Z * list Z * bool) :=
  let s := skip_space str in
  let '(neg, s) :=
    match s with
    | c :: r => if c =? 45 then (true, r)
                else if c =? 43 then (false, r) else (false, s)
    | [] => (false, s)
    end in
  match s with
  | c :: _ =>
      if isdigit c then
        let '(v, rest) := digits_value s 0 in
        let v := if neg then - v else v in
        if v <? LONG_MIN then Some (LONG_MIN, rest, true)
        else if LONG_MAX <? v then Some (LONG_MAX, rest, true)
        else Some (v, rest, false)
      else None
  | [] => None
  end.

(** [stringToLong]: [str] is [None] for [NULL]; the result is [None] for
    the return value 0 and the value stored in [*out] otherwise ([out] is
    never [NULL] at the calls). *)
Definition stringToLong (str : option (list Z)) : option Z :=
  match str with
  | None => None
  | Some str =>
      match strtol str with
      | None => None                       (* endptr == str *)
      | Some (result, rest, erange) =>
          match rest with
          | _ :: _ => None                 (* *endptr *)
          | [] => if erange then None else Some result
          end
      end
  end.

Definition stringToInt (str : option (list Z)) : option Z :=
  match str with
  | None => None
  | Some _ =>
      match stringToLong str with
      | Some outLong =>
          if (outLong <? INT_MIN) || (INT_MAX <? outLong) then None
          else Some outLong
      | None => None
      end
  end.
End Util.

(** The characters of a decimal numeral. *)
Fixpoint uint_chars (d : Decimal.uint) : list Z :=
  match d with
  | Decimal.Nil => []
  | Decimal.D0 l => 48 :: uint_chars l
  | Decimal.D1 l => 49 :: uint_chars l
  | Decimal.D2 l => 50 :: uint_chars l
  | Decimal.D3 l => 51 :: uint_chars l
  | Decimal.D4 l => 52 :: uint_chars l
  | Decimal.D5 l => 53 :: uint_chars l
  | Decimal.D6 l => 54 :: uint_chars l
  | Decimal.D7 l => 55 :: uint_chars l
  | Decimal.D8 l => 56 :: uint_chars l
  | Decimal.D9 l => 57 :: uint_chars l
  end.

(** What [printf] writes for an integer with [%d], [%ld] or [%zu]. *)
Definition decimal_chars (z : Z) : list Z :=
  match z with
  | Z0 => [48]
  | Zpos p => uint_chars (Pos.to_uint p)
  | Zneg p => 45 :: uint_chars (Pos.to_uint p)
  end.

(** The result of [strtol] for the value [v] of the numeral and the
    characters [rest] behind it. *)
Definition clamp_long (v : Z) (rest : list Z) : option (Z * list Z * bool) :=
  if v <? Util.LONG_MIN then Some (Util.LONG_MIN, rest, true)
  else if Util.LONG_MAX <? v then Some (Util.LONG_MAX, rest, true)
  else Some (v, rest, false).

(** [strtol] behind the white space and the sign. *)
Definition clamp_like (neg : bool) (s : list Z)
  : option (Z * list Z * bool) :=
  match s with
  | c :: _ =>
      if Util.isdigit c then
        let '(v, rest) := Util.digits_value s 0 in
        let v := if neg then - v else v in
        if v <? Util.LONG_MIN then Some (Util.LONG_MIN, rest, true)
        else if Util.LONG_MAX <? v then Some (Util.LONG_MAX, rest, true)
        else Some (v, rest, false)
      else None
  | [] => None
  end.

Module Main.
(** What [readPPM] hands back: the image, or the end of the program by
    [exit(EXIT_FAILURE)].  [fopen] and [malloc] are taken to succeed. *)
Inductive ppm_result : Type :=
| Image (width height : Z) (data : list Z)
| Exit_failure.

(** The header loop left by [break]: width, height, the rest of the
    file. *)
Inductive header_result : Type :=
| Header (width height : Z) (rest : list Z)
| Header_failure.

Definition buflen : Z := 64.

(** [char buffer[buflen]]: a cell is [None] until it is written. *)
Definition buffer_t : Type := list (option Z).

Fixpoint update {A : Type} (k : nat) (x : A) (l : list A) : list A :=
  match l, k with
  | [], _ => []
  | _ :: r, O => x :: r
  | y :: r, S k' => y :: update k' x r
  end.

(** [buffer[i] = c]; a write outside the array is undefined. *)
Definition store (buffer : buffer_t) (i c : Z) : exec buffer_t :=
  if (0 <=? i) && (i <? buflen) then Done (update (Z.to_nat i) (Some c) buffer)
  else UB.

(** [buffer[i]] read; undefined outside the array and for a cell never
    written. *)
Definition load (buffer : buffer_t) (i : Z) : exec Z :=
  if (0 <=? i) && (i <? buflen) then
    match nth (Z.to_nat i) buffer None with
    | Some c => Done c
    | None => UB
    end
  else UB.

(** The characters of the string in [buffer], up to its terminator. *)
Fixpoint c_string (buffer : buffer_t) : exec (list Z) :=
  match buffer with
  | Some c :: rest =>
      if c =? 0 then Done [] else s <- c_string rest ;; Done (c :: s)
  | _ => UB
  end.

(** [curr == ' ' || curr == '\t' || curr == '\r' || curr == '\n']. *)
Definition is_blank (curr : Z) : bool :=
  (curr =? 32) || (curr =? 9) || (curr =? 13) || (curr =? 10).

(** [while (curr != '\r' && curr != '\n') fread(&curr, 1, 1, fp)], entered
    with [curr == '#']: the file behind the end of the line, [None] when
    the file ends first. *)
Fixpoint skip_comment (input : list Z) : option (list Z) :=
  match input with
  | [] => None
  | curr :: input =>
      if (curr =? 13) || (curr =? 10) then Some input else skip_comment input
  end.

(** How the branch of a token's end goes on: with the next token and the
    image's width and height as they are then, with [break], or with
    [exit(EXIT_FAILURE)]. *)
Inductive token_result : Type :=
| Next_token (width height : Z)
| Break
| Token_failure.

(** The branch [//token has ended] of the loop of [readPPM] behind
    [buffer[i] = '\0']: the token in [buffer] is the format, the width,
    the height or the maximum value, as [numWP] says. *)
Definition end_token (numWP : Z) (buffer : buffer_t) (width height : Z)
  : exec token_result :=
  if numWP =? 0 then
    b0 <- load buffer 0 ;;
    if negb (b0 =? 80) then Done Token_failure
    else
      b1 <- load buffer 1 ;;
      if negb (b1 =? 54) then Done Token_failure
      else Done (Next_token width height)
  else if numWP =? 1 then
    str <- c_string buffer ;;
    match Util.stringToLong (Some str) with
    | None => Done Token_failure
    | Some width =>
        if width <=? 0 then Done Token_failure
        else Done (Next_token width height)
    end
  else if numWP =? 2 then
    str <- c_string buffer ;;
    match Util.stringToLong (Some str) with
    | None => Done Token_failure
    | Some height =>
        if height <=? 0 then Done Token_failure
        else Done (Next_token width height)
    end
  else if numWP =? 3 then
    str <- c_string buffer ;;
    match Util.stringToLong (Some str) with
    | None => Done Token_failure
    | Some maxval =>
        if (256 <=? maxval) || (maxval <=? 0) then Done Token_failure
        else Done Break
    end
  else Done Token_failure.

(** The [for] loop of [readPPM] from the test of its condition on; every
    run of the body reads a character, so the length of the file bounds
    the runs, and [fuel] is that bound. *)
Fixpoint header_loop (fuel : nat) (input : list Z) (i numWP : Z)
  (token_switch : bool) (buffer : buffer_t) (width height : Z)
  : exec header_result :=
  match fuel with
  | O => Timeout
  | S fuel =>
      if (i <? buflen - 1) || (3 <=? numWP) then
        match input with
        | [] => Done Header_failure                       (* fread *)
        | curr :: input =>
            if token_switch && is_blank curr then
              header_loop fuel input (-1 + 1) numWP true buffer width height
            else if token_switch && (curr =? 35) then
              match skip_comment input with
              | None => Done Header_failure
              | Some input =>
                  header_loop fuel input (-1 + 1) numWP true buffer
                    width height
              end
            else if curr =? 35 then
              match skip_comment input with
              | None => Done Header_failure
              | Some input =>
                  header_loop fuel input (i - 1 + 1) numWP false buffer
                    width height
              end
            else if is_blank curr then
              buffer <- store buffer i 0 ;;
              r <- end_token numWP buffer width height ;;
              match r with
              | Token_failure => Done Header_failure
              | Break => Done (Header width height input)
              | Next_token width height =>
                  header_loop fuel input (-1 + 1) (numWP + 1) true buffer
                    width height
              end
            else
              buffer <- store buffer i curr ;;
              header_loop fuel input (i + 1) numWP false buffer width height
        end
      else Done Header_failure                  (* numWP != 3 *)
  end.

(** [size_t] and [unsigned long] have 64 bits. *)
Definition SIZE_MAX : Z := 2 ^ 64 - 1.

Definition readPPM (file : list Z) : exec ppm_result :=
  h <- header_loop (S (length file)) file 0 0 false (repeat None 64) 0 0 ;;
  match h with
  | Header_failure => Done Exit_failure
  | Header width height rest =>
      let three_height := 3 * height in
      if SIZE_MAX <? three_height then Done Exit_failure
      else
        let pix_mem_size := three_height * width in
        if SIZE_MAX <? pix_mem_size then Done Exit_failure
        else if Z.of_nat (length rest) <? pix_mem_size
             then Done Exit_failure                       (* fread *)
        else Done (Image width height
                     (firstn (Z.to_nat pix_mem_size) rest))
  end.

(** The bytes [writePGM] writes to the file it opened. *)
Definition writePGM (pixels : list Z) (width height : Z) : list Z :=
  [80; 53; 10] ++ decimal_chars width ++ [32] ++ decimal_chars height
  ++ [10; 50; 53; 53; 10] ++ firstn (Z.to_nat (width * height)) pixels.
End Main.

(** A character that belongs to a token of the header: not one of the
    four blanks, not ['#']. *)
Definition token_char (c : Z) : bool :=
  negb (Main.is_blank c) && negb (c =? 35).

(** A value that is NaN or an infinity. *)
Definition nonfinite (x : spec_float) : bool := isnan x || isinf x.

(** * Properties *)

Lemma loop_cached_eq (fuel : nat) (a b c sum : float) (coeffs : Z * Z * Z) :
  convert_coeffs_loop fuel a b c sum coeffs
  = loop_cached fuel (ideal_coeff a sum) (ideal_coeff b sum)
      (ideal_coeff c sum) (flt sum (F32.of_int 256)) coeffs.
Proof.
  revert coeffs.
  induction fuel as [|fuel IH]; intros [[c0 c1] c2]; simpl.
  - reflexivity.
  - destruct (c0 + c1 + c2 =? 256); [reflexivity|].
    rewrite IH. reflexivity.
Qed.

Lemma convert_coeffs_cached (fuel : nat) (a b c : float) :
  convert_coeffs_to_max256 fuel a b c
  = let sum := F32.add (F32.add a b) c in
    c0 <- to_uint16 (F32.mul (F32.of_int 256) (F32.div a sum)) ;;
    c1 <- to_uint16 (F32.mul (F32.of_int 256) (F32.div b sum)) ;;
    c2 <- to_uint16 (F32.mul (F32.of_int 256) (F32.div c sum)) ;;
    loop_cached fuel (ideal_coeff a sum) (ideal_coeff b sum)
      (ideal_coeff c sum) (flt sum (F32.of_int 256)) (c0, c1, c2).
Proof.
  unfold convert_coeffs_to_max256. cbv zeta.
  destruct (to_uint16 (F32.mul (F32.of_int 256) (F32.div a _)));
    try reflexivity.
  destruct (to_uint16 (F32.mul (F32.of_int 256) (F32.div b _)));
    try reflexivity.
  destruct (to_uint16 (F32.mul (F32.of_int 256) (F32.div c _)));
    try reflexivity.
  unfold bind. apply loop_cached_eq.
Qed.

(** ** The concrete scenario *)

(** C6: on the 2 x 1 image with the pixels (255,0,0) and (0,0,0), weights
    (1,1,1), brightness 0 and contrast unset, V1 and V2 return [85; 0];
    V0 turns the weights into (85,85,86) and returns [84; 0]; the two
    outputs differ by at most 1 in every cell. *)
Theorem concrete_scenario_2x1 (fuel : nat) :
  brightness_contrast_V1 fuel img_red_black 2 1 one one one 0 unset
    = Done (1, [85; 0])
  /\ brightness_contrast_V2 fuel img_red_black 2 1 one one one 0 unset
    = Done (1, [85; 0])
  /\ convert_coeffs_to_max256 (S fuel) one one one = Done (85, 85, 86)
  /\ brightness_contrast_V0 (S fuel) img_red_black 2 1 one one one 0 unset
    = Done (1, [84; 0])
  /\ close [85; 0] [84; 0] = true.
Proof.
  split; [vm_compute; reflexivity|].
  split; [vm_compute; reflexivity|].
  split; [destruct fuel; vm_compute; reflexivity|].
  split; [destruct fuel; vm_compute; reflexivity|].
  reflexivity.
Qed.

(** ** The integer weights of the vector strategy *)

(** C2: for the weights (100,100,100) the loop of
    [convert_coeffs_to_max256] returns (0, 0, 256): the sum is 256, but no
    coefficient is within 1 of its ideal value 256/3. *)
Theorem convert_coeffs_hundred :
  convert_coeffs_to_max256 (Z.to_nat 65535) hundred hundred hundred
    = Done (0, 0, 256)
  /\ 3 < Z.abs (3 * 0 - 256) /\ 3 < Z.abs (3 * 256 - 256).
Proof.
  split; [|lia].
  rewrite convert_coeffs_cached. vm_compute. reflexivity.
Qed.

(** C3: for the weights (100,100,100) the loop of
    [convert_coeffs_to_max256] has not returned after 256 adjustments. *)
Theorem convert_coeffs_hundred_slow :
  convert_coeffs_to_max256 256 hundred hundred hundred = Timeout.
Proof.
  vm_compute. reflexivity.
Qed.

(** ** Undefined conversions *)

(** C4: V0 on the red and blue pixel with weights (1,1,1) and contrast
    100.  The grey values are 84 and 85, so the rescale factor is 200 and
    the offset is -16815.5, both finite; the lookup table then converts
    values above 32767 to [int16_t], which C leaves undefined, and the run
    has no defined result.  V1 returns success on the same input. *)
Theorem V0_lookup_overflow :
  convert_coeffs_to_max256 100 one one one = Done (85, 85, 86)
  /\ snd (V0_pass img_red_blue 2 (85, 85, 86) 0 true) = [84; 85]
  /\ compute_kstd 100 hundred (F64.div (F64.of_int 1) (F64.of_int 4))
     = Done (Some (F32.of_int 200))
  /\ compute_summand (F32.of_int 200)
       (F64.div (F64.of_int 169) (F64.of_int 2))
     = F32.div (F32.of_int (-33631)) (F32.of_int 2)
  /\ to_int16 (F32.add (F32.mul (F32.of_int 200) (F32.of_int 248))
                 (F32.div (F32.of_int (-33631)) (F32.of_int 2))) = UB
  /\ brightness_contrast_V0 100 img_red_blue 2 1 one one one 0 hundred = UB
  /\ brightness_contrast_V1 100 img_red_blue 2 1 one one one 0 hundred
     = Done (1, [85; 85]).
Proof.
  repeat split; vm_compute; reflexivity.
Qed.

(** C8: V2 on the single pixel (255,0,0) with the weights (2^127, 0, 0).
    The product [a * 255] overflows to infinity before the division by
    [a + b + c], so the value converted to [uint8_t] is not in [0,256) and
    the conversion is undefined.  V1, which divides the weights first,
    returns 255. *)
Theorem V2_weighted_sum_overflow :
  checkParams (F64.round two_127) fzero fzero 0 unset = true
  /\ F32.div (weighted_sum two_127 fzero fzero [255; 0; 0] 0)
       (F32.add (F32.add two_127 fzero) fzero) = S754_infinity false
  /\ brightness_contrast_V2 0 [255; 0; 0] 1 1 two_127 fzero fzero 0 unset = UB
  /\ brightness_contrast_V1 0 [255; 0; 0] 1 1 two_127 fzero fzero 0 unset
     = Done (1, [255]).
Proof.
  repeat split; vm_compute; reflexivity.
Qed.

(** ** Counterexamples *)



Lemma preconditions_w21 (brightness : Z) :
  -255 <= brightness <= 255 ->
  preconditions [61; 50; 17] 1 1 w21 w72 w07 brightness unset.
Proof.
  intros Hb.
  split.
  - unfold checkParams.
    replace ((brightness <? -255) || (255 <? brightness)) with false
      by (symmetry; apply orb_false_intro; apply Z.ltb_ge; lia).
    vm_compute. reflexivity.
  - split; [simpl; lia|]. split; [reflexivity|].
    unfold is_byte. repeat constructor; lia.
Qed.

(** C7, as stated, fails for V1: with the weights (0.21, 0.72, 0.07) the
    pixel (61,50,17) has the grey value 49; with brightness 50 V1 writes
    100, not clamp(49 + 50) = 99. *)
Lemma V1_brightness_before_truncation : ~ brightness_contract_V1.
Proof.
  intros H.
  assert (E : [100] = map (fun v => clamp_int (v + 50)) [49]).
  { apply (H 0%nat [61; 50; 17] 1%nat 1%nat w21 w72 w07 50).
    - apply preconditions_w21. lia.
    - discriminate.
    - vm_compute. reflexivity.
    - vm_compute. reflexivity. }
  vm_compute in E. discriminate E.
Qed.

(** ** Loops that fill a buffer *)

Lemma exec_eqb_eq (x y : exec Z) : exec_eqb x y = true -> x = y.
Proof.
  destruct x, y; simpl; try discriminate; try reflexivity.
  intros H. apply Z.eqb_eq in H. now subst.
Qed.

Lemma bind_Done {A B : Type} (m : exec A) (k : A -> exec B) (b : B) :
  bind m k = Done b -> exists a, m = Done a /\ k a = Done b.
Proof. destruct m; simpl; intros H; try discriminate. now exists a. Qed.

Lemma for_loop_snoc (cell : nat -> exec Z) (n start : nat) (acc : list Z) :
  for_loop (fun i result => v <- cell i ;; Done (result ++ [v])) start n acc
  = (l <- pixels_of cell start n ;; Done (acc ++ l)).
Proof.
  revert start acc. induction n as [|n IH]; intros start acc; simpl.
  - now rewrite app_nil_r.
  - destruct (cell start) as [v| |]; simpl; try reflexivity.
    rewrite IH. destruct (pixels_of cell (S start) n); simpl; try reflexivity.
    now rewrite <- app_assoc.
Qed.

Lemma V1_pass_unset (a b c : float) (img : list Z) (brightness : Z)
  (n start : nat) (mean : double) (acc : list Z) :
  for_loop (V1_body a b c img brightness false) start n (mean, acc)
  = (l <- pixels_of (V1_pixel a b c img brightness) start n ;;
     Done (mean, acc ++ l)).
Proof.
  revert start acc. induction n as [|n IH]; intros start acc; simpl.
  - now rewrite app_nil_r.
  - unfold V1_body at 1, V1_pixel at 1, clamp_float.
    destruct (brightness =? 0).
    + destruct (to_uint8 _) as [v| |]; simpl; try reflexivity.
      rewrite IH. destruct (pixels_of _ _ _); simpl; try reflexivity.
      now rewrite <- app_assoc.
    + destruct (fgt _ _); [|destruct (flt _ _);
                              [|destruct (to_uint8 _) as [v| |]]];
        simpl; try reflexivity;
        rewrite IH; destruct (pixels_of _ _ _); simpl; try reflexivity;
        now rewrite <- app_assoc.
Qed.

Lemma fcast_range (lo hi : Z) (x : spec_float) (z : Z) :
  fcast lo hi x = Done z -> lo <= z <= hi.
Proof.
  unfold fcast. destruct (ftrunc x) as [t|]; [|discriminate].
  destruct ((lo <=? t) && (t <=? hi)) eqn:E; [|discriminate].
  intros H. injection H as <-. apply andb_true_iff in E. lia.
Qed.

Lemma pixels_of_bytes (cell : nat -> exec Z) (n start : nat) (l : list Z) :
  (forall i v, cell i = Done v -> is_byte v) ->
  pixels_of cell start n = Done l -> Forall is_byte l.
Proof.
  intros Hc. revert start l. induction n as [|n IH]; intros start l; simpl.
  - intros H. injection H as <-. constructor.
  - intros H. apply bind_Done in H as (v & Hv & H).
    apply bind_Done in H as (r & Hr & H). injection H as <-.
    constructor; [now apply (Hc start)|now apply (IH (S start))].
Qed.

Lemma pixels_of_ext (f g : nat -> exec Z) (n start : nat) :
  (forall i, f i = g i) -> pixels_of f start n = pixels_of g start n.
Proof.
  intros H. revert start. induction n as [|n IH]; intros start; simpl.
  - reflexivity.
  - now rewrite H, IH.
Qed.

Lemma for_buf_map (f : Z -> exec Z) (g : Z -> Z) (buf : list Z) :
  Forall (fun v => f v = Done (g v)) buf -> for_buf f buf = Done (map g buf).
Proof.
  induction 1 as [|v buf Hv _ IH]; simpl; [reflexivity|].
  now rewrite Hv, IH.
Qed.

(** ** The brightness stage *)

Lemma clamp_float_of_int (s : Z) :
  -255 <= s <= 510 -> clamp_float (F32.of_int s) = Done (clamp_int s).
Proof.
  intros Hs.
  assert (T : clamp_table_ok = true) by (vm_compute; reflexivity).
  unfold clamp_table_ok in T. rewrite forallb_forall in T.
  specialize (T (Z.to_nat (s + 255))).
  replace (Z.of_nat (Z.to_nat (s + 255)) - 255) with s in T by lia.
  apply exec_eqb_eq, T, in_seq. lia.
Qed.

Lemma clamp_int_byte (v : Z) : is_byte v -> clamp_int (v + 0) = v.
Proof.
  unfold is_byte, clamp_int. intros H. rewrite Z.add_0_r.
  destruct (255 <? v) eqn:E1; [apply Z.ltb_lt in E1; lia|].
  destruct (v <? 0) eqn:E2; [apply Z.ltb_lt in E2; lia|]. reflexivity.
Qed.

Lemma V2_unset (fuel : nat) (img : list Z) (width height : nat)
  (a b c : float) (brightness : Z) :
  -255 <= brightness <= 255 ->
  brightness_contrast_V2 fuel img width height a b c brightness unset
  = (grey <- pixels_of
               (fun i => to_uint8 (F32.div (weighted_sum a b c img i)
                                     (F32.add (F32.add a b) c)))
               0 (width * height) ;;
     Done (1, map (fun v => clamp_int (v + brightness)) grey)).
Proof.
  intros Hbr.
  unfold brightness_contrast_V2, V2_grey. rewrite for_loop_snoc.
  destruct (pixels_of _ 0 (width * height)) as [grey| |] eqn:Hg;
    try reflexivity.
  assert (Hbytes : Forall is_byte grey).
  { apply (pixels_of_bytes _ _ _ _ (fun i v H => fcast_range _ _ _ _ H) Hg). }
  cbn [bind app unset isnan negb].
  destruct (brightness =? 0) eqn:E.
  - apply Z.eqb_eq in E. subst brightness. cbn [bind].
    f_equal. f_equal. symmetry.
    rewrite <- (map_id grey) at 2. apply map_ext_Forall.
    revert Hbytes. apply Forall_impl. intros v Hv. now apply clamp_int_byte.
  - rewrite (for_buf_map _ (fun v => clamp_int (v + brightness))).
    + reflexivity.
    + revert Hbytes. apply Forall_impl. intros v Hv.
      unfold V2_brightness. apply clamp_float_of_int.
      unfold is_byte in Hv. lia.
Qed.

(** C7, amended.  With the contrast unset and a brightness in [-255,255]:
    V2 returns, for every pixel, clamp(grey + brightness, 0, 255), where
    grey is the byte of the weighted grayscale reduction (so with
    brightness 0 it returns the reduction itself); V1 with brightness 0
    returns its weighted grayscale reduction; V1 with another brightness
    adds it to the weighted sum before the truncation and returns the
    truncated clamp of that sum. *)
Theorem brightness_stage (fuel : nat) (img : list Z) (width height : nat)
  (a b c : float) (brightness : Z) :
  -255 <= brightness <= 255 ->
  let sum := F32.add (F32.add a b) c in
  let a' := F32.div a sum in
  let b' := F32.div b sum in
  let c' := F32.div c sum in
  brightness_contrast_V2 fuel img width height a b c brightness unset
  = (grey <- pixels_of (fun i => to_uint8 (F32.div (weighted_sum a b c img i)
                                             sum))
               0 (width * height) ;;
     Done (1, map (fun v => clamp_int (v + brightness)) grey))
  /\ brightness_contrast_V2 fuel img width height a b c 0 unset
     = (grey <- pixels_of (fun i => to_uint8 (F32.div (weighted_sum a b c img i)
                                                sum))
                  0 (width * height) ;;
        Done (1, grey))
  /\ brightness_contrast_V1 fuel img width height a b c 0 unset
     = (grey <- pixels_of (fun i => to_uint8 (weighted_sum a' b' c' img i))
                  0 (width * height) ;;
        Done (1, grey))
  /\ (brightness <> 0 ->
      brightness_contrast_V1 fuel img width height a b c brightness unset
      = (out <- pixels_of
                  (fun i => clamp_float
                              (F32.add (weighted_sum a' b' c' img i)
                                       (F32.of_int brightness)))
                  0 (width * height) ;;
         Done (1, out))).
Proof.
  intros Hb sum a' b' c'.
  split; [now apply V2_unset|].
  split.
  { rewrite V2_unset by lia. fold sum.
    destruct (pixels_of _ 0 (width * height)) as [grey| |] eqn:Hg;
      try reflexivity.
    cbn [bind]. f_equal. f_equal.
    rewrite <- (map_id grey) at 2. apply map_ext_Forall.
    assert (Hbytes : Forall is_byte grey).
    { apply (pixels_of_bytes _ _ _ _ (fun i v H => fcast_range _ _ _ _ H) Hg). }
    revert Hbytes. apply Forall_impl. intros v Hv. now apply clamp_int_byte. }
  split.
  - unfold brightness_contrast_V1. cbn [unset isnan].
    rewrite V1_pass_unset. fold sum. fold a' b' c'.
    rewrite (pixels_of_ext _ (fun i => to_uint8 (weighted_sum a' b' c' img i)))
      by reflexivity.
    destruct (pixels_of _ _ _); reflexivity.
  - intros Hne. unfold brightness_contrast_V1. cbn [unset isnan].
    rewrite V1_pass_unset. fold sum. fold a' b' c'.
    rewrite (pixels_of_ext _
               (fun i => clamp_float
                           (F32.add (weighted_sum a' b' c' img i)
                                    (F32.of_int brightness)))).
    + destruct (pixels_of _ _ _); reflexivity.
    + intros i. unfold V1_pixel.
      destruct (brightness =? 0) eqn:E; [|reflexivity].
      apply Z.eqb_eq in E. contradiction.
Qed.

Lemma brightness_stage_witness :
  -255 <= 50 <= 255
  /\ brightness_contrast_V2 0 [61; 50; 17] 1 1 w21 w72 w07 50 unset
     = (grey <- pixels_of
                  (fun i => to_uint8
                              (F32.div (weighted_sum w21 w72 w07 [61; 50; 17] i)
                                       (F32.add (F32.add w21 w72) w07)))
                  0 (1 * 1) ;;
        Done (1, map (fun v => clamp_int (v + 50)) grey)).
Proof.
  split; [lia|].
  apply (brightness_stage 0 [61; 50; 17] 1 1 w21 w72 w07 50). lia.
Defined.

(** ** Exact floating-point arithmetic *)

Lemma digits2_size (m : positive) : digits2_pos m = Pos.size m.
Proof. induction m; simpl; congruence. Qed.

Lemma digits2_bounds (m : positive) :
  2 ^ (Zpos (digits2_pos m) - 1) <= Zpos m < 2 ^ Zpos (digits2_pos m).
Proof.
  rewrite digits2_size. split.
  - pose proof (Pos.size_le m) as H.
    assert (E : Zpos (2 ^ Pos.size m) = 2 ^ Zpos (Pos.size m))
      by apply Pos2Z.inj_pow.
    assert (H' : 2 ^ Zpos (Pos.size m) <= 2 * Zpos m).
    { rewrite <- E. change (2 * Zpos m) with (Zpos m~0). exact H. }
    replace (Zpos (Pos.size m)) with (Zpos (Pos.size m) - 1 + 1) in H' by lia.
    rewrite Z.pow_add_r in H' by lia. lia.
  - pose proof (Pos.size_gt m) as H.
    rewrite <- Pos2Z.inj_pow. exact H.
Qed.

Lemma digits2_unique (m : positive) (d : Z) :
  2 ^ (d - 1) <= Zpos m < 2 ^ d -> Zpos (digits2_pos m) = d.
Proof.
  intros [H1 H2]. pose proof (digits2_bounds m) as [B1 B2].
  assert (0 < d).
  { destruct (Z.ltb_spec 0 d); [assumption|].
    exfalso. assert (2 ^ d <= 2 ^ 0) by (apply Z.pow_le_mono_r; lia).
    simpl in *. lia. }
  destruct (Z.lt_trichotomy (Zpos (digits2_pos m)) d) as [L|[E|G]];
    [exfalso|assumption|exfalso].
  - assert (2 ^ Zpos (digits2_pos m) <= 2 ^ (d - 1))
      by (apply Z.pow_le_mono_r; lia). lia.
  - assert (2 ^ d <= 2 ^ (Zpos (digits2_pos m) - 1))
      by (apply Z.pow_le_mono_r; lia). lia.
Qed.

Lemma iter_xO (k m : positive) :
  Zpos (Pos.iter xO m k) = Zpos m * 2 ^ Zpos k.
Proof.
  induction k using Pos.peano_ind.
  - simpl. lia.
  - rewrite Pos.iter_succ, Pos2Z.inj_succ, Z.pow_succ_r by lia.
    change (Zpos (Pos.iter xO m k)~0) with (2 * Zpos (Pos.iter xO m k)).
    rewrite IHk. ring.
Qed.

Lemma digits2_shift (m : positive) (k : Z) (M : positive) :
  0 <= k -> Zpos M = Zpos m * 2 ^ k ->
  Zpos (digits2_pos M) = Zpos (digits2_pos m) + k.
Proof.
  intros Hk E. apply digits2_unique. rewrite E.
  pose proof (digits2_bounds m) as [B1 B2].
  replace (Zpos (digits2_pos m) + k - 1) with (Zpos (digits2_pos m) - 1 + k)
    by lia.
  assert (0 < Zpos (digits2_pos m)) by lia.
  rewrite !Z.pow_add_r by lia.
  assert (0 < 2 ^ k) by (apply Z.pow_pos_nonneg; lia).
  split; nia.
Qed.

Lemma iter_pos_nat {A : Type} (f : A -> A) (p : positive) (x : A) :
  iter_pos f p x = Nat.iter (Pos.to_nat p) f x.
Proof.
  revert x. induction p as [p IH|p IH|]; intros x; cbn [iter_pos].
  - rewrite !IH, Pos2Nat.inj_xI.
    replace (S (2 * Pos.to_nat p)) with (Pos.to_nat p + S (Pos.to_nat p))%nat
      by lia.
    rewrite Nat.iter_add. f_equal. now rewrite Nat.iter_succ_r.
  - rewrite !IH, Pos2Nat.inj_xO.
    replace (2 * Pos.to_nat p)%nat with (Pos.to_nat p + Pos.to_nat p)%nat
      by lia.
    now rewrite Nat.iter_add.
  - reflexivity.
Qed.

Lemma shr_exact_nat (n : nat) (m : positive) (M : positive) :
  Zpos M = Zpos m * 2 ^ Z.of_nat n ->
  Nat.iter n shr_1 (Build_shr_record (Zpos M) false false)
  = Build_shr_record (Zpos m) false false.
Proof.
  revert M. induction n as [|n IH]; intros M E.
  - simpl in *. f_equal. lia.
  - rewrite Nat.iter_succ_r.
    rewrite Nat2Z.inj_succ, Z.pow_succ_r in E by lia.
    destruct M as [M|M|]; try lia.
    simpl. apply IH. lia.
Qed.

Section Exact.
Variables prec emax : Z.
Hypothesis Hprec : 0 < prec.

Let emin' := emin prec emax.

Lemma fexp_normal (x : Z) : emin' + prec <= x -> fexp prec emax x = x - prec.
Proof. unfold fexp, emin', emin in *. lia. Qed.

Lemma binary_round_aux_exact (s : bool) (M m : positive) (e n : Z) :
  0 <= n -> Zpos M = Zpos m * 2 ^ n ->
  fexp prec emax (Zpos (digits2_pos M) + e) = e + n ->
  e + n <= emax - prec ->
  binary_round_aux prec emax s (Zpos M) e loc_Exact = S754_finite s m (e + n).
Proof.
  intros Hn HM Hf Hov.
  assert (Hd : Zpos (digits2_pos M) = Zpos (digits2_pos m) + n)
    by (now apply digits2_shift).
  unfold binary_round_aux, shr_fexp.
  cbn [Zdigits2 shr_record_of_loc]. rewrite Hf.
  replace (e + n - e) with n by lia.
  assert (E1 : shr (Build_shr_record (Zpos M) false false) e n
               = (Build_shr_record (Zpos m) false false, e + n)).
  { unfold shr. destruct n as [|p|p]; try lia.
    - rewrite Z.add_0_r. f_equal. f_equal.
      rewrite HM. simpl. lia.
    - f_equal. rewrite iter_pos_nat. apply shr_exact_nat.
      now rewrite positive_nat_Z. }
  rewrite E1. cbn [shr_m loc_of_shr_record round_nearest_even Zdigits2
                     shr_record_of_loc].
  assert (E2 : fexp prec emax (Zpos (digits2_pos m) + (e + n)) = e + n).
  { rewrite <- Hf at 2. f_equal. lia. }
  rewrite E2, Z.sub_diag.
  cbn [shr shr_m].
  destruct (Z.leb_spec (e + n) (emax - prec)); [reflexivity|lia].
Qed.

Lemma binary_round_exact (s : bool) (m M : positive) (e : Z) :
  Zpos (digits2_pos m) <= prec ->
  emin' + prec <= e + Zpos (digits2_pos m) ->
  e + Zpos (digits2_pos m) <= emax ->
  Zpos M = Zpos m * 2 ^ (prec - Zpos (digits2_pos m)) ->
  binary_round prec emax s m e
  = S754_finite s M (e + Zpos (digits2_pos m) - prec).
Proof.
  set (d := Zpos (digits2_pos m)). intros Hd Hlo Hhi HM.
  unfold binary_round. fold d.
  rewrite fexp_normal by lia.
  assert (HdM : Zpos (digits2_pos M) = prec).
  { rewrite (digits2_shift m (prec - d) M) by (lia || assumption).
    fold d. lia. }
  unfold shl_align.
  destruct (d + e - prec - e) as [|k|k] eqn:Hk; try lia.
  - assert (d = prec) by lia.
    assert (M = m).
    { replace (prec - d) with 0 in HM by lia. simpl in HM. lia. }
    subst M.
    replace (e + d - prec) with (e + 0) by lia.
    apply binary_round_aux_exact; try lia.
    fold d. rewrite fexp_normal; lia.
  - assert (Pos.iter xO m k = M).
    { apply Pos2Z.inj. rewrite iter_xO, HM. f_equal. f_equal. lia. }
    subst M.
    replace (e + d - prec) with (d + e - prec + 0) by lia.
    apply binary_round_aux_exact; try lia.
    rewrite HdM. rewrite fexp_normal; lia.
Qed.

(** Scaling the mantissa by a power of two and the exponent back does not
    change what a value that fits the format rounds to. *)
Lemma binary_round_scale (s : bool) (m MK : positive) (K e : Z) :
  0 <= K -> Zpos MK = Zpos m * 2 ^ K ->
  Zpos (digits2_pos m) <= prec ->
  emin' + prec <= e + Zpos (digits2_pos m) ->
  e + Zpos (digits2_pos m) <= emax ->
  binary_round prec emax s MK (e - K) = binary_round prec emax s m e.
Proof.
  set (d := Zpos (digits2_pos m)). intros HK HMK Hd Hlo Hhi.
  assert (Hpow : 0 < 2 ^ (prec - d)) by (apply Z.pow_pos_nonneg; lia).
  set (M := Z.to_pos (Zpos m * 2 ^ (prec - d))).
  assert (HM : Zpos M = Zpos m * 2 ^ (prec - d))
    by (unfold M; rewrite Z2Pos.id; lia).
  rewrite (binary_round_exact s m M e) by (assumption || lia).
  assert (HdK : Zpos (digits2_pos MK) = d + K) by (now apply digits2_shift).
  unfold binary_round. rewrite HdK.
  replace (d + K + (e - K)) with (d + e) by lia.
  rewrite fexp_normal by lia. unfold shl_align. fold d.
  destruct (d + e - prec - (e - K)) as [|k|k] eqn:Hk.
  - replace (e + d - prec) with (e - K + 0) by lia.
    apply binary_round_aux_exact; try lia.
    + rewrite HM, HMK. replace K with (prec - d) by lia. ring.
    + rewrite HdK. replace (d + K + (e - K)) with (d + e) by lia.
      rewrite fexp_normal by lia. lia.
  - replace (e + d - prec) with (e - K + Zpos k) by lia.
    apply binary_round_aux_exact; try lia.
    + rewrite HM, HMK. replace K with ((prec - d) + Zpos k) at 1 by lia.
      rewrite Z.pow_add_r by lia. ring.
    + rewrite HdK. replace (d + K + (e - K)) with (d + e) by lia.
      rewrite fexp_normal by lia. lia.
  - replace (e + d - prec) with (d + e - prec + 0) by lia.
    apply binary_round_aux_exact; try lia.
    + rewrite iter_xO, HM, HMK, Z.mul_1_r, <- Z.mul_assoc, <- Z.pow_add_r
        by lia.
      f_equal. f_equal. lia.
    + rewrite (digits2_shift MK (Zpos k) (Pos.iter xO MK k))
        by (lia || apply iter_xO).
      rewrite HdK.
      replace (d + K + Z.pos k + (d + e - prec)) with (prec + (d + e - prec) + prec - prec)
        by lia.
      rewrite fexp_normal by lia. lia.
Qed.

Lemma digits2_le_prec (p : positive) :
  Zpos p < 2 ^ prec -> Zpos (digits2_pos p) <= prec.
Proof.
  intros H. pose proof (digits2_bounds p) as [B _].
  destruct (Z.leb_spec (Zpos (digits2_pos p)) prec) as [|L]; [assumption|].
  assert (2 ^ prec <= 2 ^ (Zpos (digits2_pos p) - 1))
    by (apply Z.pow_le_mono_r; lia).
  lia.
Qed.

Lemma shl_align_fst (mx : positive) (ex ez : Z) :
  ez <= ex -> Zpos (fst (shl_align mx ex ez)) = Zpos mx * 2 ^ (ex - ez).
Proof.
  intros H. unfold shl_align.
  destruct (ez - ex) as [|k|k] eqn:E; try lia; cbn [fst].
  - replace (ex - ez) with 0 by lia. simpl. lia.
  - rewrite iter_xO. f_equal. f_equal. lia.
Qed.

Variable e0 : Z.
Hypothesis He0lo : emin' + prec <= e0 + 1.
Hypothesis He0hi : e0 + prec <= emax.

(** The canonical form of the fixed-point number [p * 2^e0]. *)
Lemma fixp_round (s : bool) (p : positive) :
  Zpos p < 2 ^ prec ->
  binary_round prec emax s p e0
  = S754_finite s
      (Z.to_pos (Zpos p * 2 ^ (prec - Zpos (digits2_pos p))))
      (e0 + Zpos (digits2_pos p) - prec).
Proof.
  intros Hp. pose proof (digits2_le_prec p Hp) as Hd.
  assert (0 < 2 ^ (prec - Zpos (digits2_pos p)))
    by (apply Z.pow_pos_nonneg; lia).
  apply binary_round_exact; lia.
Qed.

Lemma fixp_round_add (sa sb : bool) (pa pb : positive) :
  Zpos pa < 2 ^ prec -> Zpos pb < 2 ^ prec ->
  Z.abs (cond_Zopp sa (Zpos pa) + cond_Zopp sb (Zpos pb)) < 2 ^ prec ->
  SFadd prec emax (binary_round prec emax sa pa e0)
    (binary_round prec emax sb pb e0)
  = fixp prec emax e0 (cond_Zopp sa (Zpos pa) + cond_Zopp sb (Zpos pb)).
Proof.
  intros Ha Hb Hab.
  pose proof (digits2_le_prec pa Ha) as Hda.
  pose proof (digits2_le_prec pb Hb) as Hdb.
  rewrite (fixp_round sa pa Ha), (fixp_round sb pb Hb).
  set (da := Zpos (digits2_pos pa)) in *.
  set (db := Zpos (digits2_pos pb)) in *.
  assert (Hpa : 0 < 2 ^ (prec - da)) by (apply Z.pow_pos_nonneg; lia).
  assert (Hpb : 0 < 2 ^ (prec - db)) by (apply Z.pow_pos_nonneg; lia).
  cbn [SFadd].
  set (ez := Z.min (e0 + da - prec) (e0 + db - prec)).
  rewrite !shl_align_fst by (unfold ez; lia).
  rewrite !Z2Pos.id by lia.
  set (K := e0 - ez).
  assert (HK : 0 <= K) by (unfold K, ez; lia).
  assert (Ea : Zpos pa * 2 ^ (prec - da) * 2 ^ (e0 + da - prec - ez)
               = Zpos pa * 2 ^ K).
  { rewrite <- Z.mul_assoc, <- Z.pow_add_r by (unfold ez; lia).
    f_equal. f_equal. unfold K. lia. }
  assert (Eb : Zpos pb * 2 ^ (prec - db) * 2 ^ (e0 + db - prec - ez)
               = Zpos pb * 2 ^ K).
  { rewrite <- Z.mul_assoc, <- Z.pow_add_r by (unfold ez; lia).
    f_equal. f_equal. unfold K. lia. }
  rewrite Ea, Eb.
  assert (HpK : 0 < 2 ^ K) by (apply Z.pow_pos_nonneg; lia).
  set (z := cond_Zopp sa (Zpos pa) + cond_Zopp sb (Zpos pb)) in *.
  assert (Ez : cond_Zopp sa (Zpos pa * 2 ^ K) + cond_Zopp sb (Zpos pb * 2 ^ K)
               = z * 2 ^ K).
  { unfold z. destruct sa, sb; cbn [cond_Zopp]; ring. }
  rewrite Ez. replace ez with (e0 - K) by (unfold K; lia).
  unfold fixp, binary_normalize.
  destruct z as [|p|p] eqn:Hz.
  - reflexivity.
  - destruct (Zpos p * 2 ^ K) as [|q|q] eqn:Hq; try lia.
    apply binary_round_scale; try lia; try assumption.
    + apply digits2_le_prec. simpl in Hab. lia.
    + pose proof (digits2_le_prec p). simpl in Hab. lia.
  - destruct (Zneg p * 2 ^ K) as [|q|q] eqn:Hq; try lia.
    apply binary_round_scale; try lia; try assumption.
    + apply digits2_le_prec. simpl in Hab. lia.
    + pose proof (digits2_le_prec p). simpl in Hab. lia.
Qed.

Lemma fixp_add (a b : Z) :
  Z.abs a < 2 ^ prec -> Z.abs b < 2 ^ prec -> Z.abs (a + b) < 2 ^ prec ->
  SFadd prec emax (fixp prec emax e0 a) (fixp prec emax e0 b)
  = fixp prec emax e0 (a + b).
Proof.
  intros Ha Hb Hab.
  destruct a as [|pa|pa], b as [|pb|pb]; try reflexivity.
  - unfold fixp. cbn [binary_normalize Z.add].
    rewrite (fixp_round false pb) by (simpl in Hb; lia). reflexivity.
  - unfold fixp. cbn [binary_normalize Z.add].
    rewrite (fixp_round true pb) by (simpl in Hb; lia). reflexivity.
  - unfold fixp. cbn [binary_normalize Z.add].
    rewrite (fixp_round false pa) by (simpl in Ha; lia). reflexivity.
  - apply (fixp_round_add false false pa pb); simpl in *; lia.
  - apply (fixp_round_add false true pa pb); simpl in *; lia.
  - unfold fixp. cbn [binary_normalize Z.add].
    rewrite (fixp_round true pa) by (simpl in Ha; lia). reflexivity.
  - apply (fixp_round_add true false pa pb); simpl in *; lia.
  - apply (fixp_round_add true true pa pb); simpl in *; lia.
Qed.
End Exact.

Lemma shiftl_match (m s : Z) :
  0 < s ->
  match s with 0 => m | Zpos _ => Z.shiftl m s | Zneg _ => 0 end = m * 2 ^ s.
Proof. intros H. destruct s; try lia. apply Z.shiftl_mul_pow2. lia. Qed.


Section ExactOps.
Variables prec emax : Z.
Hypothesis Hprec : 0 < prec.

Let emin' := emin prec emax.


Lemma canon_m_eq (p : positive) :
  Zpos p < 2 ^ prec ->
  Zpos (canon_m prec p) = Zpos p * 2 ^ (prec - Zpos (digits2_pos p))
  /\ Zpos (digits2_pos (canon_m prec p)) = prec.
Proof.
  intros Hp. pose proof (digits2_le_prec prec emax Hprec p Hp) as Hd.
  assert (0 < 2 ^ (prec - Zpos (digits2_pos p)))
    by (apply Z.pow_pos_nonneg; lia).
  assert (E : Zpos (canon_m prec p) = Zpos p * 2 ^ (prec - Zpos (digits2_pos p)))
    by (unfold canon_m; rewrite Z2Pos.id; lia).
  split; [assumption|].
  rewrite (digits2_shift p (prec - Zpos (digits2_pos p)) (canon_m prec p));
    lia || assumption.
Qed.

Lemma canon_round (s : bool) (e : Z) (p : positive) :
  Zpos p < 2 ^ prec -> emin' + prec <= e + 1 -> e + prec <= emax ->
  binary_round prec emax s p e = S754_finite s (canon_m prec p) (canon_e prec e p).
Proof.
  intros Hp Hlo Hhi. pose proof (digits2_le_prec prec emax Hprec p Hp).
  apply (fixp_round prec emax Hprec e Hlo Hhi s p Hp).
Qed.


Lemma digits2_mul_le (pa pb : positive) :
  Zpos (digits2_pos pa) <= Zpos (digits2_pos (pa * pb))
  <= Zpos (digits2_pos pa) + Zpos (digits2_pos pb).
Proof.
  pose proof (digits2_bounds pa) as [A1 A2].
  pose proof (digits2_bounds pb) as [B1 B2].
  pose proof (digits2_bounds (pa * pb)) as [C1 C2].
  rewrite Pos2Z.inj_mul in C1, C2.
  set (da := Zpos (digits2_pos pa)) in *.
  set (db := Zpos (digits2_pos pb)) in *.
  set (dab := Zpos (digits2_pos (pa * pb))) in *.
  assert (0 < da) by (unfold da; lia).
  assert (0 < db) by (unfold db; lia).
  assert (0 < dab) by (unfold dab; lia).
  split.
  - destruct (Z.leb_spec da dab) as [|L]; [assumption|exfalso].
    assert (2 ^ dab <= 2 ^ (da - 1)) by (apply Z.pow_le_mono_r; lia).
    nia.
  - destruct (Z.leb_spec dab (da + db)) as [|L]; [assumption|exfalso].
    assert (2 ^ (da + db) <= 2 ^ (dab - 1)) by (apply Z.pow_le_mono_r; lia).
    rewrite Z.pow_add_r in * by lia.
    assert (0 < 2 ^ da) by (apply Z.pow_pos_nonneg; lia).
    assert (0 < 2 ^ db) by (apply Z.pow_pos_nonneg; lia).
    nia.
Qed.



(** Truncation of a non-negative fixed-point number. *)
Lemma fixp_trunc (e0 z : Z) :
  0 <= z < 2 ^ prec -> e0 <= 0 ->
  emin' + prec <= e0 + 1 -> e0 + prec <= emax ->
  ftrunc (fixp prec emax e0 z) = Some (z / 2 ^ (- e0)).
Proof.
  intros Hz He L U. destruct z as [|p|p]; try lia.
  { simpl. now rewrite Z.div_0_l by (apply Z.pow_nonzero; lia). }
  assert (Hp : Zpos p < 2 ^ prec) by lia.
  unfold fixp. cbn [binary_normalize].
  rewrite canon_round by (assumption || lia).
  destruct (canon_m_eq p Hp) as [Em _].
  pose proof (digits2_le_prec prec emax Hprec p Hp) as Hd.
  unfold ftrunc, canon_e.
  set (d := Zpos (digits2_pos p)) in *.
  destruct (e0 + d - prec) as [|k|k] eqn:Ek; try lia.
  - f_equal. rewrite Em. fold d.
    replace (prec - d) with 0 by lia. replace (- e0) with 0 by lia.
    now rewrite Z.pow_0_r, Z.mul_1_r, Z.div_1_r.
  - f_equal. rewrite Z.shiftr_div_pow2 by lia. rewrite Em. fold d.
    replace (Zpos k) with ((- e0) + (prec - d)) by lia.
    rewrite Z.pow_add_r by lia.
    apply Z.div_mul_cancel_r; apply Z.pow_nonzero; lia.
Qed.


End ExactOps.

Lemma word_split (x : Z) :
  word x -> x mod 256 + 256 * ((x / 256) mod 256) = x.
Proof.
  unfold word. intros H.
  rewrite (Z.mod_small (x / 256)).
  - pose proof (Z.div_mod x 256). lia.
  - split; [apply Z.div_pos; lia|apply Z.div_lt_upper_bound; lia].
Qed.

Lemma list8 {A : Type} (l : list A) :
  length l = 8%nat ->
  exists x0 x1 x2 x3 x4 x5 x6 x7, l = [x0; x1; x2; x3; x4; x5; x6; x7].
Proof.
  intros H.
  destruct l as [|x0 [|x1 [|x2 [|x3 [|x4 [|x5 [|x6 [|x7 [|]]]]]]]]];
    try discriminate.
  now exists x0, x1, x2, x3, x4, x5, x6, x7.
Qed.

Lemma lanes_of_epi16 (l : list Z) :
  length l = 8%nat -> Forall word l -> epi16_lanes (of_epi16 l) = l.
Proof.
  intros Hl Hw. destruct (list8 l Hl) as (x0 & x1 & x2 & x3 & x4 & x5 & x6 & x7 & ->).
  repeat match goal with H : Forall _ (_ :: _) |- _ => inversion_clear H end.
  unfold epi16_lanes, of_epi16, byte_at.
  cbn [flat_map app map seq nth Nat.mul Nat.add].
  now rewrite !word_split.
Qed.

Lemma lanes_length (v : m128i) : length (epi16_lanes v) = 8%nat.
Proof. reflexivity. Qed.

Lemma map2_length {A B C : Type} (f : A -> B -> C) (l : list A) (l' : list B)
  (n : nat) : length l = n -> length l' = n -> length (map2 f l l') = n.
Proof.
  revert l l'. induction n as [|n IH]; intros [|x l] [|y l']; simpl;
    try discriminate; try reflexivity.
  intros H H'. f_equal. apply IH; congruence.
Qed.

Lemma map2_Forall {A B C : Type} (f : A -> B -> C) (P : C -> Prop)
  (l : list A) (l' : list B) :
  (forall x y, P (f x y)) -> Forall P (map2 f l l').
Proof.
  intros H. revert l'. induction l as [|x l IH]; intros [|y l']; simpl;
    constructor; auto.
Qed.

Lemma word_wrap16 (z : Z) : word (wrap16 z).
Proof. unfold word, wrap16. apply Z.mod_pos_bound. lia. Qed.

Lemma lanes_add (a b : m128i) :
  epi16_lanes (_mm_add_epi16 a b)
  = map2 (fun x y => wrap16 (x + y)) (epi16_lanes a) (epi16_lanes b).
Proof.
  unfold _mm_add_epi16. apply lanes_of_epi16.
  - now apply map2_length.
  - apply map2_Forall. intros. apply word_wrap16.
Qed.

Lemma lanes_zero : epi16_lanes _mm_setzero_si128 = repeat 0 8.
Proof. reflexivity. Qed.

Lemma lanes_set1 (a : Z) : epi16_lanes (_mm_set1_epi16 a) = repeat (wrap16 a) 8.
Proof.
  unfold _mm_set1_epi16. apply lanes_of_epi16; [reflexivity|].
  repeat constructor; apply word_wrap16.
Qed.

Lemma is_byte_word (x : Z) : is_byte x -> word x.
Proof. unfold is_byte, word. lia. Qed.

Lemma byte_lanes_intro (l : list Z) :
  length l = 8%nat -> Forall is_byte l -> byte_lanes (of_epi16 l).
Proof.
  intros Hl Hb. unfold byte_lanes.
  rewrite lanes_of_epi16; auto.
  revert Hb. apply Forall_impl, is_byte_word.
Qed.

Lemma shiftr8_byte (x : Z) : word x -> is_byte (Z.shiftr x 8).
Proof.
  unfold word, is_byte. intros H. rewrite Z.shiftr_div_pow2 by lia.
  change (2 ^ 8) with 256. split.
  - apply Z.div_pos; lia.
  - assert (x / 256 < 256) by (apply Z.div_lt_upper_bound; lia). lia.
Qed.

Lemma srli8_byte_lanes (a b : m128i) :
  byte_lanes (_mm_srli_epi16 (_mm_add_epi16 a b) 8).
Proof.
  unfold _mm_srli_epi16. apply byte_lanes_intro.
  - now rewrite length_map.
  - rewrite lanes_add. apply Forall_map.
    apply map2_Forall. intros x y. apply shiftr8_byte, word_wrap16.
Qed.

Lemma signed16_clamp (y : Z) :
  word y ->
  is_byte (if signed16 0 <? signed16 (if signed16 255 <? signed16 y then 255 else y)
           then (if signed16 255 <? signed16 y then 255 else y) else 0).
Proof.
  unfold word, is_byte, signed16. intros H.
  change (0 <? 32768) with true. change (255 <? 32768) with true. cbv iota.
  destruct (y <? 32768) eqn:E1.
  - destruct (255 <? y) eqn:E2.
    + simpl. lia.
    + rewrite E1. destruct (0 <? y) eqn:E3; lia.
  - apply Z.ltb_ge in E1.
    destruct (255 <? y - 65536) eqn:E2; [apply Z.ltb_lt in E2; lia|].
    rewrite (proj2 (Z.ltb_ge y 32768)) by lia.
    destruct (0 <? y - 65536) eqn:E3; [apply Z.ltb_lt in E3; lia|]. lia.
Qed.

Lemma map2_repeat {A B C : Type} (f : A -> B -> C) (c : A) (l : list B) :
  map2 f (repeat c (length l)) l = map (f c) l.
Proof. induction l as [|y l IH]; simpl; [reflexivity|now rewrite IH]. Qed.

Lemma words_add (a b : m128i) : Forall word (epi16_lanes (_mm_add_epi16 a b)).
Proof. rewrite lanes_add. apply map2_Forall. intros. apply word_wrap16. Qed.

Lemma clamp_byte_lanes (a b : m128i) :
  byte_lanes
    (_mm_max_epi16 _mm_setzero_si128
       (_mm_min_epi16 (_mm_set1_epi16 255) (_mm_add_epi16 a b))).
Proof.
  pose proof (words_add a b) as Hw.
  set (L := epi16_lanes (_mm_add_epi16 a b)) in *.
  assert (HL : length L = 8%nat) by reflexivity.
  assert (Hmin : epi16_lanes (_mm_min_epi16 (_mm_set1_epi16 255)
                                (_mm_add_epi16 a b))
                 = map (fun y => if signed16 255 <? signed16 y then 255 else y)
                       L).
  { unfold _mm_min_epi16. fold L. rewrite lanes_set1.
    change (wrap16 255) with 255. rewrite <- HL at 1. rewrite map2_repeat.
    apply lanes_of_epi16; [now rewrite length_map|].
    apply Forall_map. revert Hw. apply Forall_impl. intros y Hy.
    destruct (signed16 255 <? signed16 y); [unfold word; lia|assumption]. }
  unfold _mm_max_epi16. rewrite Hmin, lanes_zero.
  replace 8%nat with (length (map (fun y => if signed16 255 <? signed16 y
                                            then 255 else y) L))
    by now rewrite length_map.
  rewrite map2_repeat. apply byte_lanes_intro.
  - now rewrite !length_map.
  - rewrite map_map. apply Forall_map. revert Hw. apply Forall_impl.
    intros y Hy. now apply signed16_clamp.
Qed.

(** The two vectors of [grey_block] hold bytes in all their lanes. *)
Lemma grey_block_bytes (img : list Z) (i : nat) (coeffs : Z * Z * Z)
  (brightness : Z) :
  byte_lanes (fst (grey_block img i coeffs brightness))
  /\ byte_lanes (snd (grey_block img i coeffs brightness)).
Proof.
  unfold grey_block. destruct coeffs as [[c0 c1] c2].
  unfold load_and_convert_to_grey16.
  destruct (brightness =? 0); cbn [fst snd]; split;
    first [apply srli8_byte_lanes | apply clamp_byte_lanes].
Qed.

Lemma mask_grey_eq :
  mask_grey = [0; 2; 4; 6; 8; 10; 12; 14; 255; 255; 255; 255; 255; 255; 255; 255]
  /\ mask_grey2
     = [255; 255; 255; 255; 255; 255; 255; 255; 0; 2; 4; 6; 8; 10; 12; 14].
Proof. split; reflexivity. Qed.

Lemma pack_grey_lists (l1 l2 : list Z) :
  length l1 = 8%nat -> length l2 = 8%nat ->
  Forall is_byte l1 -> Forall is_byte l2 ->
  pack_grey (of_epi16 l1) (of_epi16 l2) = l1 ++ l2.
Proof.
  intros H1 H2 B1 B2.
  destruct (list8 l1 H1) as (x0 & x1 & x2 & x3 & x4 & x5 & x6 & x7 & ->).
  destruct (list8 l2 H2) as (y0 & y1 & y2 & y3 & y4 & y5 & y6 & y7 & ->).
  repeat match goal with H : Forall _ (_ :: _) |- _ => inversion_clear H end.
  unfold is_byte in *.
  unfold pack_grey. destruct mask_grey_eq as [-> ->].
  cbv - [Z.modulo Z.div Z.lor].
  rewrite !Z.lor_0_r, !Z.lor_0_l, !Z.mod_small by lia. reflexivity.
Qed.

Lemma pack_grey_bytes (g1 g2 : m128i) :
  byte_lanes g1 -> byte_lanes g2 ->
  pack_grey g1 g2 = epi16_lanes g1 ++ epi16_lanes g2.
Proof.
  intros [E1 B1] [E2 B2]. rewrite E1, E2 at 1.
  now apply pack_grey_lists.
Qed.

Lemma lanes_srli_si128 (l : list Z) :
  length l = 8%nat -> Forall word l ->
  epi16_lanes (_mm_srli_si128 (of_epi16 l) 8) = skipn 4 l ++ repeat 0 4
  /\ epi16_lanes (_mm_srli_si128 (of_epi16 l) 4) = skipn 2 l ++ repeat 0 2
  /\ epi16_lanes (_mm_srli_si128 (of_epi16 l) 2) = skipn 1 l ++ repeat 0 1.
Proof.
  intros Hl Hw.
  destruct (list8 l Hl) as (x0 & x1 & x2 & x3 & x4 & x5 & x6 & x7 & ->).
  repeat match goal with H : Forall _ (_ :: _) |- _ => inversion_clear H end.
  repeat split; cbv - [Z.modulo Z.div Z.add Z.mul];
    rewrite !word_split by assumption; reflexivity.
Qed.

Lemma fold_step_wf (k : nat) (l : list Z) :
  (k <= 8)%nat -> length l = 8%nat ->
  length (fold_step k l) = 8%nat /\ Forall word (fold_step k l).
Proof.
  intros Hk Hl. split.
  - apply map2_length; [assumption|].
    rewrite length_app, length_skipn, repeat_length. lia.
  - apply map2_Forall. intros. apply word_wrap16.
Qed.

Lemma add_srli_si128 (l : list Z) :
  length l = 8%nat -> Forall word l ->
  _mm_add_epi16 (of_epi16 l) (_mm_srli_si128 (of_epi16 l) 8)
  = of_epi16 (fold_step 4 l)
  /\ _mm_add_epi16 (of_epi16 l) (_mm_srli_si128 (of_epi16 l) 4)
     = of_epi16 (fold_step 2 l)
  /\ _mm_add_epi16 (of_epi16 l) (_mm_srli_si128 (of_epi16 l) 2)
     = of_epi16 (fold_step 1 l).
Proof.
  intros Hl Hw. unfold _mm_add_epi16, fold_step.
  destruct (lanes_srli_si128 l Hl Hw) as (-> & -> & ->).
  rewrite (lanes_of_epi16 l Hl Hw). repeat split.
Qed.

Lemma sum_mm_epi16_lanes (l : list Z) :
  length l = 8%nat -> Forall (fun x => 0 <= x <= 4080) l ->
  sum_mm_epi16 (of_epi16 l) = lane_sum l.
Proof.
  intros Hl Hb.
  assert (Hw : Forall word l)
    by (revert Hb; apply Forall_impl; unfold word; lia).
  unfold sum_mm_epi16, _mm_extract_epi16.
  destruct (add_srli_si128 l Hl Hw) as (-> & _ & _).
  destruct (fold_step_wf 4 l) as [H1 W1]; [lia|assumption|].
  destruct (add_srli_si128 _ H1 W1) as (_ & -> & _).
  destruct (fold_step_wf 2 (fold_step 4 l)) as [H2 W2]; [lia|assumption|].
  destruct (add_srli_si128 _ H2 W2) as (_ & _ & ->).
  destruct (fold_step_wf 1 (fold_step 2 (fold_step 4 l))) as [H3 W3];
    [lia|assumption|].
  rewrite (lanes_of_epi16 _ H3 W3).
  clear H1 W1 H2 W2 H3 W3.
  destruct (list8 l Hl) as (x0 & x1 & x2 & x3 & x4 & x5 & x6 & x7 & ->).
  repeat match goal with H : Forall _ (_ :: _) |- _ => inversion_clear H end.
  unfold fold_step.
  cbn [skipn repeat app map2 nth lane_sum fold_right].
  unfold wrap16. rewrite !Z.add_0_r.
  repeat match goal with
         | |- context [?a mod 65536] => rewrite (Z.mod_small a 65536) by lia
         end.
  lia.
Qed.

(** ** The accumulation of the mean in the vector loop *)

Lemma F64_add_int (a b : Z) :
  0 <= a -> 0 <= b -> a + b < 2 ^ 53 ->
  F64.add (F64.of_int a) (F64.of_int b) = F64.of_int (a + b).
Proof.
  intros Ha Hb Hab.
  apply (fixp_add 53 1024 eq_refl 0); unfold emin; lia.
Qed.

Lemma for_blocks_snoc {St : Type} (body : nat -> St -> St)
  (n start : nat) (s : St) :
  for_blocks body start (S n) s
  = body (start + 16 * n)%nat (for_blocks body start n s).
Proof.
  revert start s. induction n as [|n IH]; intros start s.
  - simpl. now rewrite Nat.add_0_r.
  - change (for_blocks body start (S (S n)) s)
      with (for_blocks body (start + 16) (S n) (body start s)).
    rewrite IH. simpl. f_equal. lia.
Qed.

Lemma unflushed_bound (k : nat) : 0 <= unflushed k <= 7.
Proof.
  destruct k as [|k]; cbn [unflushed]; [lia|].
  assert (k mod 8 < 8)%nat by (apply Nat.mod_upper_bound; lia). lia.
Qed.

Lemma unflushed_succ (k : nat) :
  unflushed (S k) = if (16 * k mod 128 =? 0)%nat then 0 else unflushed k + 1.
Proof.
  assert (E : (16 * k mod 128 = 16 * (k mod 8))%nat).
  { change 128%nat with (16 * 8)%nat.
    rewrite Nat.Div0.mul_mod_distr_l. reflexivity. }
  rewrite E. cbn [unflushed].
  destruct (Nat.eqb_spec (16 * (k mod 8)) 0) as [H|H].
  - replace (k mod 8)%nat with 0%nat by lia. reflexivity.
  - destruct k as [|k]; [simpl in H; lia|]. cbn [unflushed].
    assert (H' : (S k mod 8 <> 0)%nat) by lia.
    assert (k mod 8 < 8)%nat by (apply Nat.mod_upper_bound; lia).
    assert (S k mod 8 < 8)%nat by (apply Nat.mod_upper_bound; lia).
    pose proof (Nat.div_mod_eq k 8). pose proof (Nat.div_mod_eq (S k) 8).
    lia.
Qed.

Lemma lanes_inv_zero (k : nat) : lanes_inv k _mm_setzero_si128.
Proof.
  split; [reflexivity|]. rewrite lanes_zero.
  pose proof (unflushed_bound k). repeat constructor; lia.
Qed.

Lemma lane_sum_app (l l' : list Z) :
  lane_sum (l ++ l') = lane_sum l + lane_sum l'.
Proof.
  unfold lane_sum. induction l as [|x l IH]; simpl; [reflexivity|].
  rewrite IH. ring.
Qed.

(** What one round of the vector loop does to the state, in terms of the
    lanes: the additions do not wrap. *)
Lemma V0_block_spec (img : list Z) (coeffs : Z * Z * Z) (brightness : Z)
  (k : nat) (mean_vector : m128i) (mean : double) (result : list Z) :
  lanes_inv k mean_vector ->
  let g := grey_block img (16 * k) coeffs brightness in
  let G := epi16_lanes (fst g) ++ epi16_lanes (snd g) in
  let sums := map2 Z.add (map2 Z.add (epi16_lanes mean_vector)
                                     (epi16_lanes (fst g)))
                (epi16_lanes (snd g)) in
  Forall is_byte G
  /\ length G = 16%nat
  /\ length sums = 8%nat
  /\ Forall (fun x => 0 <= x <= 510 * unflushed k + 510) sums
  /\ lane_sum sums = lane_sum (epi16_lanes mean_vector) + lane_sum G
  /\ V0_block img coeffs brightness true (16 * k) (mean_vector, mean, result)
     = if (16 * k mod 128 =? 0)%nat
       then (_mm_setzero_si128, F64.add mean (F64.of_int (lane_sum sums)),
             result ++ G)
       else (of_epi16 sums, mean, result ++ G).
Proof.
  intros [Emv Hmv] g G sums.
  pose proof (unflushed_bound k) as Hu.
  destruct (grey_block_bytes img (16 * k) coeffs brightness)
    as [[E1 B1] [E2 B2]]. fold g in E1, B1, E2, B2.
  assert (Hsums : Forall (fun x => 0 <= x <= 510 * unflushed k + 510) sums
                  /\ lane_sum sums
                     = lane_sum (epi16_lanes mean_vector) + lane_sum G
                  /\ map2 (fun x y => wrap16 (x + y))
                       (map2 (fun x y => wrap16 (x + y))
                          (epi16_lanes mean_vector) (epi16_lanes (fst g)))
                       (epi16_lanes (snd g)) = sums).
  { unfold sums, G. clear Emv E1 E2.
    destruct (list8 (epi16_lanes mean_vector) eq_refl)
      as (x0 & x1 & x2 & x3 & x4 & x5 & x6 & x7 & El). rewrite El in *.
    destruct (list8 (epi16_lanes (fst g)) eq_refl)
      as (y0 & y1 & y2 & y3 & y4 & y5 & y6 & y7 & E1). rewrite E1 in *.
    destruct (list8 (epi16_lanes (snd g)) eq_refl)
      as (z0 & z1 & z2 & z3 & z4 & z5 & z6 & z7 & E2). rewrite E2 in *.
    repeat match goal with H : Forall _ (_ :: _) |- _ => inversion_clear H end.
    unfold is_byte in *.
    cbn [map2 app lane_sum fold_right]. unfold wrap16.
    repeat match goal with
           | |- context [?a mod 65536] => rewrite (Z.mod_small a 65536) by lia
           end.
    split; [repeat constructor; lia|]. split; [lia|reflexivity]. }
  destruct Hsums as (Hb & Hs & Hw).
  assert (Hlen : length sums = 8%nat)
    by (unfold sums; repeat apply map2_length; reflexivity).
  split; [unfold G; apply Forall_app; now split|].
  split; [reflexivity|]. split; [assumption|]. split; [assumption|].
  split; [assumption|].
  unfold V0_block. fold g. destruct g as [g1 g2] eqn:Eg. cbn [fst snd] in *.
  assert (Eadd : _mm_add_epi16 (_mm_add_epi16 mean_vector g1) g2
                 = of_epi16 sums).
  { unfold _mm_add_epi16 at 1. rewrite lanes_add. now rewrite Hw. }
  rewrite Eadd, (pack_grey_bytes g1 g2) by (split; assumption).
  fold G.
  destruct (16 * k mod 128 =? 0)%nat; [|reflexivity].
  rewrite sum_mm_epi16_lanes; [reflexivity|assumption|].
  revert Hb. apply Forall_impl. intros x. lia.
Qed.

Lemma vector_loop_succ (img : list Z) (coeffs : Z * Z * Z) (brightness : Z)
  (k : nat) :
  vector_loop img coeffs brightness (S k)
  = V0_block img coeffs brightness true (16 * k)
      (vector_loop img coeffs brightness k).
Proof. unfold vector_loop. now rewrite for_blocks_snoc. Qed.

Lemma lanes_inv_loop (img : list Z) (coeffs : Z * Z * Z) (brightness : Z)
  (k : nat) :
  lanes_inv k (fst (fst (vector_loop img coeffs brightness k))).
Proof.
  induction k as [|k IH].
  - apply lanes_inv_zero.
  - rewrite vector_loop_succ.
    destruct (vector_loop img coeffs brightness k) as [[mv mean] result].
    cbn [fst] in IH.
    destruct (V0_block_spec img coeffs brightness k mv mean result IH)
      as (_ & _ & Hlen & Hb & _ & ->).
    unfold lanes_inv. rewrite unflushed_succ.
    destruct (16 * k mod 128 =? 0)%nat eqn:E; cbn [fst].
    + split; [reflexivity|]. rewrite lanes_zero. repeat constructor; lia.
    + assert (Hw : Forall word
                     (map2 Z.add (map2 Z.add (epi16_lanes mv)
                        (epi16_lanes (fst (grey_block img (16 * k) coeffs
                                             brightness))))
                        (epi16_lanes (snd (grey_block img (16 * k) coeffs
                                             brightness))))).
      { revert Hb. apply Forall_impl. intros x.
        pose proof (unflushed_bound k). unfold word. lia. }
      split; rewrite lanes_of_epi16 by assumption; [reflexivity|].
      revert Hb. apply Forall_impl. intros x. lia.
Qed.

(** After [k] blocks [mean] is the exact sum of the stored bytes that have
    been flushed. *)
Lemma mean_inv_loop (img : list Z) (coeffs : Z * Z * Z) (brightness : Z)
  (k : nat) :
  Z.of_nat k * 4080 < 2 ^ 53 ->
  let '(mean_vector, mean, result) := vector_loop img coeffs brightness k in
  mean = F64.of_int (lane_sum result - lane_sum (epi16_lanes mean_vector))
  /\ 0 <= lane_sum (epi16_lanes mean_vector) <= lane_sum result
  /\ lane_sum result <= Z.of_nat k * 4080
  /\ Forall is_byte result
  /\ length result = (16 * k)%nat.
Proof.
  induction k as [|k IH]; intros Hk.
  - cbn. repeat split; try lia. constructor.
  - rewrite vector_loop_succ.
    pose proof (lanes_inv_loop img coeffs brightness k) as Hl.
    destruct (vector_loop img coeffs brightness k) as [[mv mean] result].
    cbn [fst] in Hl.
    destruct IH as (Em & Hs & Hr & Hb & Hlen); [lia|].
    destruct (V0_block_spec img coeffs brightness k mv mean result Hl)
      as (HG & HGlen & Hslen & Hsb & Hsum & ->).
    set (G := epi16_lanes (fst (grey_block img (16 * k) coeffs brightness))
              ++ epi16_lanes (snd (grey_block img (16 * k) coeffs brightness)))
      in *.
    assert (HGs : 0 <= lane_sum G <= 4080).
    { assert (forall l, Forall is_byte l ->
                        0 <= lane_sum l <= 255 * Z.of_nat (length l)) as B.
      { induction 1 as [|x l Hx _ IHl]; cbn [lane_sum fold_right length].
        - lia.
        - fold (lane_sum l). unfold is_byte in Hx. lia. }
      specialize (B G HG). rewrite HGlen in B. lia. }
    destruct (16 * k mod 128 =? 0)%nat.
    + rewrite lanes_zero, lane_sum_app, Hsum, Em.
      rewrite F64_add_int by lia.
      change (lane_sum (repeat 0 8)) with 0.
      repeat split; try lia.
      * f_equal. lia.
      * apply Forall_app. now split.
      * rewrite length_app. lia.
    + assert (Hw : Forall word
                     (map2 Z.add (map2 Z.add (epi16_lanes mv)
                        (epi16_lanes (fst (grey_block img (16 * k) coeffs
                                             brightness))))
                        (epi16_lanes (snd (grey_block img (16 * k) coeffs
                                             brightness))))).
      { revert Hsb. apply Forall_impl. intros x.
        pose proof (unflushed_bound k). unfold word. lia. }
      rewrite lanes_of_epi16, lane_sum_app, Hsum, Em by assumption.
      repeat split; try lia.
      * f_equal. lia.
      * apply Forall_app. now split.
      * rewrite length_app. lia.
Qed.

(** C9.  In the vector loop of V0 with the contrast set, for every number
    [k] of blocks already processed and every lane [j], the 16-bit lane of
    [mean_vector] plus the two grey values added to it in the next round is
    at most 4080, so the additions never leave the [int16_t] range; and
    after the loop and its final flush, [mean] is the exact integer sum of
    the bytes stored in [result]. *)
Theorem vector_mean_exact (img : list Z) (coeffs : Z * Z * Z)
  (brightness : Z) (blocks : nat) :
  Z.of_nat blocks * 4080 < 2 ^ 53 ->
  (forall k j,
      let '(mean_vector, _, _) :=
        for_blocks (V0_block img coeffs brightness true) 0 k
          (_mm_setzero_si128, fzero, []) in
      let '(grey1, grey2) := grey_block img (16 * k) coeffs brightness in
      0 <= nth j (epi16_lanes mean_vector) 0 + nth j (epi16_lanes grey1) 0
           + nth j (epi16_lanes grey2) 0 <= 4080)
  /\ (let '(mean, result) :=
        V0_vector_pass img blocks coeffs brightness true in
      mean = F64.of_int (fold_right Z.add 0 result)
      /\ length result = (16 * blocks)%nat).
Proof.
  intros Hsize. split.
  - intros k j.
    pose proof (lanes_inv_loop img coeffs brightness k) as Hl.
    unfold vector_loop in Hl.
    destruct (for_blocks _ 0 k _) as [[mv mean] result]. cbn [fst] in Hl.
    destruct (V0_block_spec img coeffs brightness k mv mean result Hl)
      as (_ & _ & Hslen & Hsb & _ & _).
    destruct (grey_block img (16 * k) coeffs brightness) as [g1 g2].
    cbn [fst snd] in *.
    pose proof (unflushed_bound k) as Hu.
    destruct (list8 (epi16_lanes mv) eq_refl)
      as (x0 & x1 & x2 & x3 & x4 & x5 & x6 & x7 & El). rewrite El in *.
    destruct (list8 (epi16_lanes g1) eq_refl)
      as (y0 & y1 & y2 & y3 & y4 & y5 & y6 & y7 & E1). rewrite E1 in *.
    destruct (list8 (epi16_lanes g2) eq_refl)
      as (z0 & z1 & z2 & z3 & z4 & z5 & z6 & z7 & E2). rewrite E2 in *.
    cbn [map2] in Hsb.
    repeat match goal with H : Forall _ (_ :: _) |- _ => inversion_clear H end.
    do 8 (destruct j as [|j]; [cbn [nth]; lia|]).
    destruct j; cbn [nth]; lia.
  - unfold V0_vector_pass.
    pose proof (mean_inv_loop img coeffs brightness blocks Hsize) as H.
    pose proof (lanes_inv_loop img coeffs brightness blocks) as Hl.
    unfold vector_loop in H, Hl.
    destruct (for_blocks _ 0 blocks _) as [[mv mean] result]. cbn [fst] in Hl.
    destruct H as (Em & Hs & Hr & Hb & Hlen).
    destruct Hl as [Emv Hlb].
    split; [|assumption].
    rewrite Emv, sum_mm_epi16_lanes, Em.
    + rewrite F64_add_int by lia. f_equal. unfold lane_sum. lia.
    + reflexivity.
    + revert Hlb. apply Forall_impl. intros x.
      pose proof (unflushed_bound blocks). lia.
Qed.

Lemma vector_mean_exact_witness :
  Z.of_nat 2 * 4080 < 2 ^ 53
  /\ (let '(mean, result) :=
        V0_vector_pass (repeat 200 96) 2 (85, 85, 86) 0 true in
      mean = F64.of_int (fold_right Z.add 0 result)
      /\ length result = (16 * 2)%nat).
Proof.
  split; [lia|].
  apply (vector_mean_exact (repeat 200 96) (85, 85, 86) 0 2). lia.
Defined.

Lemma lanes_mullo (a b : m128i) :
  epi16_lanes (_mm_mullo_epi16 a b)
  = map2 (fun x y => wrap16 (x * y)) (epi16_lanes a) (epi16_lanes b).
Proof.
  unfold _mm_mullo_epi16. apply lanes_of_epi16.
  - now apply map2_length.
  - apply map2_Forall. intros. apply word_wrap16.
Qed.

Lemma loadu_list (mem : list Z) (off : nat) :
  _mm_loadu_si128 mem off
  = [nth (off + 0) mem 0; nth (off + 1) mem 0; nth (off + 2) mem 0;
     nth (off + 3) mem 0; nth (off + 4) mem 0; nth (off + 5) mem 0;
     nth (off + 6) mem 0; nth (off + 7) mem 0; nth (off + 8) mem 0;
     nth (off + 9) mem 0; nth (off + 10) mem 0; nth (off + 11) mem 0;
     nth (off + 12) mem 0; nth (off + 13) mem 0; nth (off + 14) mem 0;
     nth (off + 15) mem 0].
Proof. reflexivity. Qed.

Lemma masks_eq :
  mask_red1 = [0; 255; 3; 255; 6; 255; 9; 255; 12; 255; 15; 255; 255; 255; 255; 255]
  /\ mask_green1 = [1; 255; 4; 255; 7; 255; 10; 255; 13; 255; 255; 255; 255; 255; 255; 255]
  /\ mask_blue1 = [2; 255; 5; 255; 8; 255; 11; 255; 14; 255; 255; 255; 255; 255; 255; 255]
  /\ mask_red2 = [255; 255; 255; 255; 255; 255; 255; 255; 255; 255; 255; 255; 2; 255; 5; 255]
  /\ mask_green2 = [255; 255; 255; 255; 255; 255; 255; 255; 255; 255; 0; 255; 3; 255; 6; 255]
  /\ mask_blue2 = [255; 255; 255; 255; 255; 255; 255; 255; 255; 255; 1; 255; 4; 255; 7; 255]
  /\ mask_red3 = [8; 255; 11; 255; 14; 255; 255; 255; 255; 255; 255; 255; 255; 255; 255; 255]
  /\ mask_green3 = [9; 255; 12; 255; 15; 255; 255; 255; 255; 255; 255; 255; 255; 255; 255; 255]
  /\ mask_blue3 = [10; 255; 13; 255; 255; 255; 255; 255; 255; 255; 255; 255; 255; 255; 255; 255]
  /\ mask_red4 = [255; 255; 255; 255; 255; 255; 1; 255; 4; 255; 7; 255; 10; 255; 13; 255]
  /\ mask_green4 = [255; 255; 255; 255; 255; 255; 2; 255; 5; 255; 8; 255; 11; 255; 14; 255]
  /\ mask_blue4 = [255; 255; 255; 255; 0; 255; 3; 255; 6; 255; 9; 255; 12; 255; 15; 255].
Proof. repeat split. Qed.

(** The shuffles of [load_and_convert_to_grey16] on 48 consecutive bytes
    [B 0 .. B 47] put bytes [3j], [3j+1], [3j+2] (red, green, blue of pixel
    [j]) in lane [j] of the first group and those of pixel [8 + j] in lane
    [j] of the second. *)
Lemma deinterleave (B : nat -> Z) :
  let pixels1 := map B (seq 0 16) in
  let pixels2 := map B (seq 16 16) in
  let pixels3 := map B (seq 32 16) in
  let ch (k : nat) := map (fun j => B (3 * j + k)%nat) (seq 0 8) in
  let ch' (k : nat) := map (fun j => B (3 * (8 + j) + k)%nat) (seq 0 8) in
  epi16_lanes (_mm_or_si128 (_mm_shuffle_epi8 pixels1 mask_red1)
                            (_mm_shuffle_epi8 pixels2 mask_red2)) = ch 0%nat
  /\ epi16_lanes (_mm_or_si128 (_mm_shuffle_epi8 pixels1 mask_green1)
                               (_mm_shuffle_epi8 pixels2 mask_green2)) = ch 1%nat
  /\ epi16_lanes (_mm_or_si128 (_mm_shuffle_epi8 pixels1 mask_blue1)
                               (_mm_shuffle_epi8 pixels2 mask_blue2)) = ch 2%nat
  /\ epi16_lanes (_mm_or_si128 (_mm_shuffle_epi8 pixels2 mask_red3)
                               (_mm_shuffle_epi8 pixels3 mask_red4)) = ch' 0%nat
  /\ epi16_lanes (_mm_or_si128 (_mm_shuffle_epi8 pixels2 mask_green3)
                               (_mm_shuffle_epi8 pixels3 mask_green4)) = ch' 1%nat
  /\ epi16_lanes (_mm_or_si128 (_mm_shuffle_epi8 pixels2 mask_blue3)
                               (_mm_shuffle_epi8 pixels3 mask_blue4)) = ch' 2%nat.
Proof.
  cbv zeta.
  destruct masks_eq as (-> & -> & -> & -> & -> & -> & -> & -> & -> & -> & -> & ->).
  repeat split; cbv - [Z.lor Z.add Z.mul];
    rewrite ?Z.lor_0_r, ?Z.lor_0_l, ?Z.mul_0_r, ?Z.add_0_r; reflexivity.
Qed.

Lemma loadu_window (img : list Z) (base off : nat) :
  _mm_loadu_si128 img (base + off)
  = map (fun k => nth (base + k) img 0) (seq off 16).
Proof.
  unfold _mm_loadu_si128. cbn [map seq].
  repeat (f_equal; try lia).
Qed.

(** Lane [j] of the two vectors of [load_and_convert_to_grey16] holds the
    grey value of pixel [i + j], resp. [i + 8 + j]. *)
Lemma load_and_convert_lanes (img : list Z) (i : nat) (coeffs : Z * Z * Z) :
  let '(c0, c1, c2) := coeffs in
  let g := load_and_convert_to_grey16 img i
             (_mm_set1_epi16 c0) (_mm_set1_epi16 c1) (_mm_set1_epi16 c2) in
  epi16_lanes (fst g) = map (fun j => lane_grey coeffs img (i + j)) (seq 0 8)
  /\ epi16_lanes (snd g)
     = map (fun j => lane_grey coeffs img (i + 8 + j)) (seq 0 8).
Proof.
  destruct coeffs as [[c0 c1] c2]. cbv zeta.
  unfold load_and_convert_to_grey16. cbn [fst snd].
  rewrite (loadu_window img (3 * i) 16), (loadu_window img (3 * i) 32).
  change (_mm_loadu_si128 img (3 * i))
    with (map (fun k => nth (3 * i + k) img 0) (seq 0 16)).
  destruct (deinterleave (fun k => nth (3 * i + k) img 0))
    as (R1 & G1 & B1 & R2 & G2 & B2).
  cbv zeta in R1, G1, B1, R2, G2, B2.
  unfold _mm_srli_epi16.
  rewrite !lanes_of_epi16;
    try (now rewrite length_map);
    try (apply Forall_map; rewrite lanes_add; apply map2_Forall;
         intros; apply is_byte_word, shiftr8_byte, word_wrap16).
  rewrite !lanes_add, !lanes_mullo, !lanes_set1.
  rewrite R1, G1, B1, R2, G2, B2.
  unfold lane_grey, img_at. cbn [map seq map2 repeat].
  split; repeat (f_equal; try lia).
Qed.

Lemma img_at_byte (img : list Z) (k : nat) :
  Forall is_byte img -> is_byte (img_at img k).
Proof.
  intros H. unfold img_at. destruct (nth_in_or_default k img 0) as [Hin| ->].
  - rewrite Forall_forall in H. now apply H.
  - unfold is_byte. lia.
Qed.

Lemma fixed_grey_byte (coeffs : Z * Z * Z) (img : list Z) (i : nat) :
  coeffs_ok coeffs -> Forall is_byte img -> is_byte (fixed_grey coeffs img i).
Proof.
  destruct coeffs as [[c0 c1] c2]. intros (H0 & H1 & H2 & Hs) Hb.
  unfold fixed_grey.
  pose proof (img_at_byte img (i * 3) Hb) as Hr.
  pose proof (img_at_byte img (i * 3 + 1) Hb) as Hg.
  pose proof (img_at_byte img (i * 3 + 2) Hb) as Hbl.
  unfold is_byte in *. split.
  - apply Z.div_pos; nia.
  - assert (c0 * img_at img (i * 3) + c1 * img_at img (i * 3 + 1)
            + c2 * img_at img (i * 3 + 2) < 256 * 256) by nia.
    assert ((c0 * img_at img (i * 3) + c1 * img_at img (i * 3 + 1)
             + c2 * img_at img (i * 3 + 2)) / 256 < 256)
      by (apply Z.div_lt_upper_bound; lia).
    lia.
Qed.

Lemma lane_grey_fixed (coeffs : Z * Z * Z) (img : list Z) (i : nat) :
  coeffs_ok coeffs -> Forall is_byte img ->
  lane_grey coeffs img i = fixed_grey coeffs img i.
Proof.
  destruct coeffs as [[c0 c1] c2]. intros (H0 & H1 & H2 & Hs) Hb.
  unfold lane_grey, fixed_grey.
  pose proof (img_at_byte img (i * 3) Hb) as Hr.
  pose proof (img_at_byte img (i * 3 + 1) Hb) as Hg.
  pose proof (img_at_byte img (i * 3 + 2) Hb) as Hbl.
  unfold is_byte in *. unfold wrap16.
  rewrite (Z.mod_small c0), (Z.mod_small c1), (Z.mod_small c2) by lia.
  rewrite (Z.mod_small (_ * c0)), (Z.mod_small (_ * c1)),
    (Z.mod_small (_ * c2)) by nia.
  rewrite (Z.mod_small (_ * c0 + _ * c1)) by nia.
  rewrite Z.mod_small by nia.
  rewrite Z.shiftr_div_pow2 by lia. change (2 ^ 8) with 256.
  f_equal. ring.
Qed.

Lemma scalar_grey_fixed (coeffs : Z * Z * Z) (img : list Z) (i : nat) :
  coeffs_ok coeffs -> Forall is_byte img ->
  scalar_grey coeffs img i = fixed_grey coeffs img i.
Proof.
  intros Hc Hb. pose proof (fixed_grey_byte coeffs img i Hc Hb) as Hg.
  destruct coeffs as [[c0 c1] c2]. destruct Hc as (H0 & H1 & H2 & Hs).
  unfold scalar_grey. unfold fixed_grey in *.
  pose proof (img_at_byte img (i * 3) Hb) as Hr.
  pose proof (img_at_byte img (i * 3 + 1) Hb) as Hgr.
  pose proof (img_at_byte img (i * 3 + 2) Hb) as Hbl.
  unfold is_byte in *.
  rewrite Z.quot_div_nonneg by nia.
  unfold wrap16, signed16. rewrite Z.mod_small by lia.
  destruct (Z.ltb_spec ((c0 * img_at img (i * 3) + c1 * img_at img (i * 3 + 1)
                         + c2 * img_at img (i * 3 + 2)) / 256) 32768); lia.
Qed.

Lemma clamp_lanes (a b : m128i) :
  epi16_lanes
    (_mm_max_epi16 _mm_setzero_si128
       (_mm_min_epi16 (_mm_set1_epi16 255) (_mm_add_epi16 a b)))
  = map (fun y => if signed16 0 <? signed16 (if signed16 255 <? signed16 y
                                             then 255 else y)
                  then (if signed16 255 <? signed16 y then 255 else y)
                  else 0)
        (epi16_lanes (_mm_add_epi16 a b)).
Proof.
  pose proof (words_add a b) as Hw.
  set (L := epi16_lanes (_mm_add_epi16 a b)) in *.
  assert (HL : length L = 8%nat) by reflexivity.
  assert (Hmin : epi16_lanes (_mm_min_epi16 (_mm_set1_epi16 255)
                                (_mm_add_epi16 a b))
                 = map (fun y => if signed16 255 <? signed16 y then 255 else y)
                       L).
  { unfold _mm_min_epi16. fold L. rewrite lanes_set1.
    change (wrap16 255) with 255. rewrite <- HL at 1. rewrite map2_repeat.
    apply lanes_of_epi16; [now rewrite length_map|].
    apply Forall_map. revert Hw. apply Forall_impl. intros y Hy.
    destruct (signed16 255 <? signed16 y); [unfold word; lia|assumption]. }
  unfold _mm_max_epi16. rewrite Hmin, lanes_zero.
  replace 8%nat with (length (map (fun y => if signed16 255 <? signed16 y
                                            then 255 else y) L))
    by now rewrite length_map.
  rewrite map2_repeat, map_map.
  apply lanes_of_epi16; [now rewrite length_map|].
  apply Forall_map. revert Hw. apply Forall_impl.
  intros y Hy. now apply is_byte_word, signed16_clamp.
Qed.

Lemma clamp_lane_value (g brightness : Z) :
  is_byte g -> -255 <= brightness <= 255 ->
  (let y := wrap16 (g + wrap16 brightness) in
   if signed16 0 <? signed16 (if signed16 255 <? signed16 y then 255 else y)
   then (if signed16 255 <? signed16 y then 255 else y) else 0)
  = clamp_int (g + brightness).
Proof.
  unfold is_byte. intros Hg Hb. cbv zeta.
  assert (E : signed16 (wrap16 (g + wrap16 brightness)) = g + brightness
              /\ (0 <= g + brightness ->
                  wrap16 (g + wrap16 brightness) = g + brightness)).
  { unfold wrap16, signed16.
    destruct (Z.ltb_spec brightness 0) as [Hn|Hp].
    - replace (brightness mod 65536) with (brightness + 65536)
        by (apply Z.mod_unique with (q := -1); lia).
      destruct (Z.ltb_spec (g + brightness) 0) as [Hn'|Hp'].
      + rewrite (Z.mod_small (g + (brightness + 65536))) by lia.
        destruct (Z.ltb_spec (g + (brightness + 65536)) 32768); lia.
      + replace ((g + (brightness + 65536)) mod 65536) with (g + brightness)
          by (apply Z.mod_unique with (q := 1); lia).
        destruct (Z.ltb_spec (g + brightness) 32768); lia.
    - rewrite (Z.mod_small brightness) by lia.
      rewrite (Z.mod_small (g + brightness)) by lia.
      destruct (Z.ltb_spec (g + brightness) 32768); lia. }
  destruct E as [E1 E2]. unfold clamp_int.
  change (signed16 255) with 255. change (signed16 0) with 0. rewrite E1.
  destruct (Z.ltb_spec 255 (g + brightness)) as [H1|H1].
  - reflexivity.
  - rewrite E1.
    destruct (Z.ltb_spec 0 (g + brightness)) as [H2|H2];
      destruct (Z.ltb_spec (g + brightness) 0) as [H3|H3]; try lia;
      apply E2; lia.
Qed.

(** The 16 bytes one round of the vector loop stores. *)
Lemma grey_block_pixels (img : list Z) (i : nat) (coeffs : Z * Z * Z)
  (brightness : Z) :
  coeffs_ok coeffs -> Forall is_byte img -> -255 <= brightness <= 255 ->
  let g := grey_block img i coeffs brightness in
  pack_grey (fst g) (snd g)
  = map (fixed_pixel coeffs img brightness) (seq i 16).
Proof.
  intros Hc Hb Hbr g.
  destruct (grey_block_bytes img i coeffs brightness) as [B1 B2]. fold g in B1, B2.
  rewrite (pack_grey_bytes _ _ B1 B2).
  change (seq i 16) with (seq i 8 ++ seq (8 + i) 8). rewrite map_app.
  assert (Hseq : forall s, map (fixed_pixel coeffs img brightness) (seq s 8)
                           = map (fun j => fixed_pixel coeffs img brightness
                                             (s + j)) (seq 0 8)).
  { intros s. cbn [map seq]. repeat (f_equal; try lia). }
  rewrite !Hseq. clear Hseq.
  replace (8 + i)%nat with (i + 8)%nat by lia.
  pose proof (load_and_convert_lanes img i coeffs) as Hl.
  unfold g, grey_block. destruct coeffs as [[c0 c1] c2].
  destruct (load_and_convert_to_grey16 img i _ _ _) as [g1 g2] eqn:Eg.
  cbv zeta in Hl. cbn [fst snd] in Hl. destruct Hl as [L1 L2].
  assert (P : forall j, lane_grey (c0, c1, c2) img j
                        = fixed_grey (c0, c1, c2) img j)
    by (intros; now apply lane_grey_fixed).
  destruct (brightness =? 0) eqn:E0; cbn [fst snd].
  - apply Z.eqb_eq in E0. subst brightness. rewrite L1, L2.
    f_equal; apply map_ext; intros j; rewrite P; unfold fixed_pixel;
      symmetry; apply clamp_int_byte; now apply fixed_grey_byte.
  - rewrite !clamp_lanes, !lanes_add, L1, L2, lanes_set1.
    cbn [repeat map seq map2].
    rewrite !P. unfold fixed_pixel.
    rewrite <- !clamp_lane_value by (try apply fixed_grey_byte; assumption).
    reflexivity.
Qed.

Lemma V0_blocks_unset (img : list Z) (coeffs : Z * Z * Z) (brightness : Z)
  (n start : nat) (mean_vector : m128i) (mean : double) (result : list Z) :
  coeffs_ok coeffs -> Forall is_byte img -> -255 <= brightness <= 255 ->
  for_blocks (V0_block img coeffs brightness false) start n
    (mean_vector, mean, result)
  = (mean_vector, mean,
     result ++ map (fixed_pixel coeffs img brightness) (seq start (16 * n))).
Proof.
  intros Hc Hb Hbr. revert start result.
  induction n as [|n IH]; intros start result.
  - cbn. now rewrite app_nil_r.
  - cbn [for_blocks]. unfold V0_block at 2.
    pose proof (grey_block_pixels img start coeffs brightness Hc Hb Hbr) as Hp.
    cbv zeta in Hp.
    destruct (grey_block img start coeffs brightness) as [g1 g2].
    cbn [fst snd] in Hp. rewrite Hp, IH, <- app_assoc, <- map_app.
    replace (16 * S n)%nat with (16 + 16 * n)%nat by lia.
    now rewrite seq_app.
Qed.

Lemma V0_rest_unset (img : list Z) (coeffs : Z * Z * Z) (brightness : Z)
  (n start : nat) (mean : double) (result : list Z) :
  coeffs_ok coeffs -> Forall is_byte img -> -255 <= brightness <= 255 ->
  for_pure (V0_rest img coeffs brightness false) start n (mean, result)
  = (mean, result ++ map (fixed_pixel coeffs img brightness) (seq start n)).
Proof.
  intros Hc Hb Hbr. revert start result.
  induction n as [|n IH]; intros start result.
  - cbn. now rewrite app_nil_r.
  - cbn [for_pure seq map].
    assert (E : V0_rest img coeffs brightness false start (mean, result)
                = (mean, result ++ [fixed_pixel coeffs img brightness start])).
    { unfold V0_rest, fixed_pixel.
      rewrite (scalar_grey_fixed coeffs img start Hc Hb).
      pose proof (fixed_grey_byte coeffs img start Hc Hb) as Hg.
      set (g := fixed_grey coeffs img start) in *. unfold is_byte in Hg.
      destruct (brightness =? 0) eqn:E0.
      - apply Z.eqb_eq in E0. subst brightness.
        rewrite clamp_int_byte by assumption.
        now rewrite Z.mod_small by lia.
      - assert (Es : signed16 (wrap16 (g + brightness)) = g + brightness).
        { pose proof (clamp_lane_value g brightness Hg Hbr) as _.
          unfold wrap16, signed16.
          destruct (Z.ltb_spec (g + brightness) 0) as [Hn|Hp].
          + replace ((g + brightness) mod 65536) with (g + brightness + 65536)
              by (apply Z.mod_unique with (q := -1); lia).
            destruct (Z.ltb_spec (g + brightness + 65536) 32768); lia.
          + rewrite Z.mod_small by lia.
            destruct (Z.ltb_spec (g + brightness) 32768); lia. }
        rewrite Es. unfold clamp_int.
        destruct (255 <? g + brightness) eqn:E1; [reflexivity|].
        destruct (g + brightness <? 0) eqn:E2; [reflexivity|].
        apply Z.ltb_ge in E1, E2. now rewrite Z.mod_small by lia. }
    rewrite E, IH, <- app_assoc. reflexivity.
Qed.

(** With the contrast unset V0 stores, in the blocks and in the rest, the
    fixed-point value of every pixel. *)
Lemma V0_pass_unset (img : list Z) (wh : nat) (coeffs : Z * Z * Z)
  (brightness : Z) :
  coeffs_ok coeffs -> Forall is_byte img -> -255 <= brightness <= 255 ->
  snd (V0_pass img wh coeffs brightness false)
  = map (fixed_pixel coeffs img brightness) (seq 0 wh).
Proof.
  intros Hc Hb Hbr. unfold V0_pass, V0_vector_pass.
  rewrite V0_blocks_unset by assumption.
  rewrite V0_rest_unset by assumption. cbn [snd app].
  rewrite <- map_app. f_equal.
  pose proof (Nat.div_mod_eq wh 16) as E.
  replace (wh - wh mod 16)%nat with (0 + 16 * (wh / 16))%nat by lia.
  rewrite <- seq_app. f_equal. lia.
Qed.

Lemma sf_eqb_eq (x y : spec_float) : sf_eqb x y = true -> x = y.
Proof.
  destruct x, y; simpl; try discriminate; try reflexivity; intros H.
  - apply Bool.eqb_prop in H. now subst.
  - apply Bool.eqb_prop in H. now subst.
  - apply andb_true_iff in H as [H He]. apply andb_true_iff in H as [Hs Hm].
    apply Bool.eqb_prop in Hs. apply Pos.eqb_eq in Hm. apply Z.eqb_eq in He.
    now subst.
Qed.

Lemma all_from_nat (lo : Z) (n : nat) (f : Z -> bool) (z : Z) :
  all_from lo n f = true -> lo <= z < lo + Z.of_nat n -> f z = true.
Proof.
  revert lo. induction n as [|n IH]; intros lo H Hz; [lia|].
  cbn [all_from] in H. apply andb_true_iff in H as [H0 H].
  destruct (Z.eq_dec z lo) as [->|Hne]; [assumption|].
  apply (IH (lo + 1)); [assumption|lia].
Qed.

Lemma all_from_spec (lo size : Z) (f : Z -> bool) (z : Z) :
  all_from lo (Z.to_nat size) f = true -> lo <= z < lo + size -> f z = true.
Proof.
  intros H Hz. apply (all_from_nat lo (Z.to_nat size)); [assumption|].
  rewrite Z2Nat.id; lia.
Qed.









Section Dyadic.
Variables p q s : Z.
Hypothesis Hc : coeffs_ok (p, q, s).
Variable img : list Z.
Hypothesis Himg : Forall is_byte img.









End Dyadic.



(** * Further properties of the code *)

(** ** Rounding of positive values *)

Lemma shr_1_m (mrs : shr_record) :
  0 <= shr_m mrs -> shr_m (shr_1 mrs) = shr_m mrs / 2.
Proof.
  destruct mrs as [m r s]. cbn [shr_m]. intros Hm.
  destruct m as [|[p|p|]|p]; try lia; cbn [shr_1 shr_m].
  - reflexivity.
  - apply (Z.div_unique (Zpos p~1) 2 (Zpos p) 1); lia.
  - apply (Z.div_unique (Zpos p~0) 2 (Zpos p) 0); lia.
  - reflexivity.
Qed.

Lemma shr_iter_m (n : nat) (mrs : shr_record) :
  0 <= shr_m mrs ->
  shr_m (Nat.iter n shr_1 mrs) = shr_m mrs / 2 ^ Z.of_nat n.
Proof.
  intros Hm. induction n as [|n IH].
  - simpl. now rewrite Z.div_1_r.
  - rewrite Nat.iter_succ, shr_1_m.
    + rewrite IH, Nat2Z.inj_succ, Z.pow_succ_r by lia.
      rewrite Z.div_div by (try apply Z.pow_pos_nonneg; lia).
      f_equal. lia.
    + rewrite IH. apply Z.div_pos; [lia|apply Z.pow_pos_nonneg; lia].
Qed.

Lemma shr_spec (mrs : shr_record) (e n : Z) :
  0 <= shr_m mrs -> 0 <= n ->
  shr_m (fst (shr mrs e n)) = shr_m mrs / 2 ^ n /\ snd (shr mrs e n) = e + n.
Proof.
  intros Hm Hn. unfold shr. destruct n as [|p|p]; try lia; cbn [fst snd].
  - split; [now rewrite Z.div_1_r|lia].
  - split; [|reflexivity].
    rewrite iter_pos_nat, shr_iter_m by assumption.
    now rewrite positive_nat_Z.
Qed.

Lemma digits2_div (m : positive) (n : Z) (q : positive) :
  0 <= n < Zpos (digits2_pos m) -> Zpos q = Zpos m / 2 ^ n ->
  Zpos (digits2_pos q) = Zpos (digits2_pos m) - n.
Proof.
  intros Hn Hq. apply digits2_unique. rewrite Hq.
  pose proof (digits2_bounds m) as [B1 B2].
  set (d := Zpos (digits2_pos m)) in *.
  assert (P : 0 < 2 ^ n) by (apply Z.pow_pos_nonneg; lia).
  split.
  - apply Z.div_le_lower_bound; [assumption|].
    rewrite <- Z.pow_add_r by lia.
    replace (n + (d - n - 1)) with (d - 1) by lia. assumption.
  - apply Z.div_lt_upper_bound; [assumption|].
    rewrite <- Z.pow_add_r by lia.
    replace (n + (d - n)) with d by lia. assumption.
Qed.

Lemma div_pow2_pos (m : positive) (n : Z) :
  0 <= n < Zpos (digits2_pos m) -> 0 < Zpos m / 2 ^ n.
Proof.
  intros Hn. pose proof (digits2_bounds m) as [B1 _].
  assert (P : 0 < 2 ^ n) by (apply Z.pow_pos_nonneg; lia).
  apply Z.div_str_pos. split; [assumption|].
  apply Z.le_trans with (2 ^ (Zpos (digits2_pos m) - 1)); [|assumption].
  apply Z.pow_le_mono_r; lia.
Qed.

Lemma round_nearest_even_range (m : Z) (l : location) :
  m <= round_nearest_even m l <= m + 1.
Proof.
  unfold round_nearest_even. destruct l as [|[ | | ]]; try lia.
  destruct (Z.even m); lia.
Qed.

Lemma digits2_le (p q : positive) :
  Zpos p <= Zpos q -> Zpos (digits2_pos p) <= Zpos (digits2_pos q).
Proof.
  intros H. pose proof (digits2_bounds p) as [P1 _].
  pose proof (digits2_bounds q) as [_ Q2].
  destruct (Z.leb_spec (Zpos (digits2_pos p)) (Zpos (digits2_pos q)))
    as [|L]; [assumption|exfalso].
  assert (2 ^ Zpos (digits2_pos q) <= 2 ^ (Zpos (digits2_pos p) - 1))
    by (apply Z.pow_le_mono_r; lia).
  lia.
Qed.

Section Positive.
Variables prec emax : Z.
Hypothesis Hprec : 0 < prec.

Let emin' := emin prec emax.

Lemma fexp_mono (x y : Z) : x <= y -> fexp prec emax x <= fexp prec emax y.
Proof. unfold fexp. lia. Qed.

Lemma fexp_lt (x : Z) : emin' < x -> fexp prec emax x < x.
Proof. unfold fexp, emin'. lia. Qed.

Lemma fexp_ge_emin (x : Z) : emin' <= fexp prec emax x.
Proof. unfold fexp, emin'. lia. Qed.

(** Rounding a positive value whose leading bit is above [emin] never
    gives zero: the result is an infinity or a canonical finite number
    that is not below the leading bit of the value. *)
Lemma binary_round_aux_pos (s : bool) (m : positive) (e : Z) (l : location) :
  emin' < mag m e -> e <= fexp prec emax (mag m e) ->
  binary_round_aux prec emax s (Zpos m) e l = S754_infinity s
  \/ exists m' e',
       binary_round_aux prec emax s (Zpos m) e l = S754_finite s m' e'
       /\ canonical_mantissa prec emax m' e' = true
       /\ mag m e <= mag m' e'.
Proof.
  unfold mag. set (d := Zpos (digits2_pos m)). intros Hlo Hn.
  unfold binary_round_aux, shr_fexp. cbn [Zdigits2]. fold d.
  set (n := fexp prec emax (d + e) - e).
  assert (Hn0 : 0 <= n) by (unfold n; lia).
  assert (Hnd : n < d) by (unfold n; pose proof (fexp_lt (d + e) Hlo); lia).
  assert (Hm0 : 0 <= shr_m (shr_record_of_loc (Zpos m) l))
    by (destruct l as [|[ | | ]]; simpl; lia).
  assert (Em : shr_m (shr_record_of_loc (Zpos m) l) = Zpos m)
    by (destruct l as [|[ | | ]]; reflexivity).
  destruct (shr_spec (shr_record_of_loc (Zpos m) l) e n Hm0 Hn0) as [S1 S2].
  destruct (shr (shr_record_of_loc (Zpos m) l) e n) as [mrs' e'].
  cbn [fst snd] in S1, S2. rewrite Em in S1. subst e'.
  pose proof (div_pow2_pos m n (conj Hn0 Hnd)) as Hq.
  rewrite <- S1 in Hq.
  pose proof (round_nearest_even_range (shr_m mrs') (loc_of_shr_record mrs'))
    as Hr.
  set (m1 := round_nearest_even (shr_m mrs') (loc_of_shr_record mrs')) in *.
  destruct (shr_m mrs') as [|q|q] eqn:Eq; try lia.
  destruct m1 as [|p1|p1] eqn:E1; try lia.
  assert (Dq : Zpos (digits2_pos q) = d - n)
    by (apply (digits2_div m n q); [lia|congruence]).
  assert (D1 : d - n <= Zpos (digits2_pos p1))
    by (rewrite <- Dq; apply digits2_le; lia).
  cbn [Zdigits2]. set (d1 := Zpos (digits2_pos p1)) in *.
  set (n2 := fexp prec emax (d1 + (e + n)) - (e + n)).
  assert (Ee : e + n = fexp prec emax (d + e)) by (unfold n; lia).
  assert (Hn2 : 0 <= n2).
  { unfold n2. rewrite Ee at 2.
    pose proof (fexp_mono (d + e) (d1 + (e + n))). lia. }
  assert (Hn2d : n2 < d1).
  { unfold n2. pose proof (fexp_lt (d1 + (e + n))). lia. }
  destruct (shr_spec (shr_record_of_loc (Zpos p1) loc_Exact) (e + n) n2)
    as [T1 T2]; [simpl; lia|assumption|].
  destruct (shr (shr_record_of_loc (Zpos p1) loc_Exact) (e + n) n2)
    as [mrs'' e''].
  cbn [fst snd] in T1, T2. cbn [shr_record_of_loc shr_m] in T1. subst e''.
  pose proof (div_pow2_pos p1 n2 (conj Hn2 Hn2d)) as Hf.
  rewrite <- T1 in Hf.
  destruct (shr_m mrs'') as [|mf|mf] eqn:Ef; try lia.
  destruct (e + n + n2 <=? emax - prec); [right|now left].
  exists mf, (e + n + n2). split; [reflexivity|].
  assert (Df : Zpos (digits2_pos mf) = d1 - n2)
    by (apply (digits2_div p1 n2 mf); [lia|congruence]).
  split.
  - unfold canonical_mantissa. apply Z.eqb_eq. rewrite Df.
    replace (d1 - n2 + (e + n + n2)) with (d1 + (e + n)) by lia.
    unfold n2. lia.
  - rewrite Df. lia.
Qed.

Lemma canonical_fexp (m : positive) (e : Z) :
  canonical_mantissa prec emax m e = true ->
  fexp prec emax (mag m e) = e /\ emin' <= e /\ emin' < mag m e.
Proof.
  unfold canonical_mantissa, mag. intros H. apply Z.eqb_eq in H.
  pose proof (fexp_ge_emin (Zpos (digits2_pos m) + e)). lia.
Qed.

Lemma canonical_normal (m : positive) (e : Z) :
  canonical_mantissa prec emax m e = true -> emin' + prec <= mag m e ->
  Zpos (digits2_pos m) = prec.
Proof.
  intros H L. destruct (canonical_fexp m e H) as (F & _ & _).
  rewrite fexp_normal in F by assumption. unfold mag in F. lia.
Qed.

Lemma binary_round_pos (s : bool) (m : positive) (e : Z) :
  emin' < mag m e ->
  binary_round prec emax s m e = S754_infinity s
  \/ exists m' e',
       binary_round prec emax s m e = S754_finite s m' e'
       /\ canonical_mantissa prec emax m' e' = true
       /\ mag m e <= mag m' e'.
Proof.
  intros Hlo. unfold binary_round, shl_align.
  fold (mag m e).
  destruct (fexp prec emax (mag m e) - e) as [|k|k] eqn:Ek.
  - apply binary_round_aux_pos; [assumption|lia].
  - apply binary_round_aux_pos; [assumption|lia].
  - assert (M : mag (Pos.iter xO m k) (fexp prec emax (mag m e)) = mag m e).
    { unfold mag at 1.
      rewrite (digits2_shift m (Zpos k) (Pos.iter xO m k))
        by (lia || apply iter_xO).
      unfold mag. unfold mag in Ek. lia. }
    destruct (binary_round_aux_pos s (Pos.iter xO m k)
                (fexp prec emax (mag m e)) loc_Exact) as [H|H].
    + now rewrite M.
    + rewrite M. lia.
    + now left.
    + right. now rewrite M in H.
Qed.

Lemma shl_align_mag (m : positive) (e ez : Z) :
  ez <= e -> mag (fst (shl_align m e ez)) ez = mag m e.
Proof.
  intros H. unfold mag.
  rewrite (digits2_shift m (e - ez) (fst (shl_align m e ez)));
    [lia|lia|now apply shl_align_fst].
Qed.

(** The sum of two positive canonical numbers. *)
Lemma SFadd_pos (mx : positive) (ex : Z) (my : positive) (ey : Z) :
  canonical_mantissa prec emax mx ex = true ->
  canonical_mantissa prec emax my ey = true ->
  pos_above prec emax (Z.max (mag mx ex) (mag my ey))
    (SFadd prec emax (S754_finite false mx ex) (S754_finite false my ey)).
Proof.
  intros Cx Cy.
  destruct (canonical_fexp mx ex Cx) as (_ & Ex & Mx).
  destruct (canonical_fexp my ey Cy) as (_ & Ey & My).
  cbn [SFadd cond_Zopp]. set (ez := Z.min ex ey).
  pose proof (shl_align_mag mx ex ez ltac:(unfold ez; lia)) as Ax.
  pose proof (shl_align_mag my ey ez ltac:(unfold ez; lia)) as Ay.
  set (a := fst (shl_align mx ex ez)) in *.
  set (b := fst (shl_align my ey ez)) in *.
  change (Zpos a + Zpos b) with (Zpos (a + b)). cbn [binary_normalize].
  assert (Ma : mag a ez <= mag (a + b) ez)
    by (unfold mag; pose proof (digits2_le a (a + b)); lia).
  assert (Mb : mag b ez <= mag (a + b) ez)
    by (unfold mag; pose proof (digits2_le b (a + b)); lia).
  destruct (binary_round_pos false (a + b) ez) as [H|(m' & e' & H & C & M)].
  - lia.
  - now left.
  - right. exists m', e'. repeat split; try assumption. lia.
Qed.

(** The square of a canonical number with a full mantissa. *)
Lemma SFmul_self_pos (s : bool) (m : positive) (e : Z) :
  Zpos (digits2_pos m) = prec -> emin' < 2 * mag m e - 1 ->
  pos_above prec emax (2 * mag m e - 1)
    (SFmul prec emax (S754_finite s m e) (S754_finite s m e)).
Proof.
  intros D Hlo. cbn [SFmul]. rewrite xorb_nilpotent.
  pose proof (digits2_mul_le prec emax m m) as [_ U].
  assert (L : 2 * Zpos (digits2_pos m) - 1 <= Zpos (digits2_pos (m * m))).
  { pose proof (digits2_bounds m) as [B1 _].
    pose proof (digits2_bounds (m * m)) as [_ C2].
    rewrite Pos2Z.inj_mul in C2.
    set (d := Zpos (digits2_pos m)) in *.
    set (dd := Zpos (digits2_pos (m * m))) in *.
    destruct (Z.leb_spec (2 * d - 1) dd) as [|Lt]; [assumption|exfalso].
    assert (0 < d) by (unfold d; lia).
    assert (2 ^ dd <= 2 ^ (2 * d - 2)) by (apply Z.pow_le_mono_r; unfold dd; lia).
    replace (2 * d - 2) with ((d - 1) + (d - 1)) in * by lia.
    rewrite Z.pow_add_r in * by lia.
    assert (0 < 2 ^ (d - 1)) by (apply Z.pow_pos_nonneg; lia).
    nia. }
  assert (M : 2 * mag m e - 1 <= mag (m * m) (e + e)) by (unfold mag; lia).
  destruct (binary_round_aux_pos false (m * m) (e + e) loc_Exact)
    as [H|(m' & e' & H & C & M')].
  - lia.
  - unfold fexp. unfold mag in *. lia.
  - now left.
  - right. exists m', e'. repeat split; try assumption. lia.
Qed.

Lemma div_eucl_div (a b : Z) : Z.div_eucl a b = (a / b, a mod b).
Proof. unfold Z.div, Z.modulo. now destruct (Z.div_eucl a b). Qed.

(** The quotient of two positive numbers with full mantissas. *)
Lemma SFdiv_pos (mx : positive) (ex : Z) (my : positive) (ey : Z) :
  Zpos (digits2_pos mx) = prec -> Zpos (digits2_pos my) = prec ->
  emin' + prec <= ex - ey ->
  pos_above prec emax (ex - ey)
    (SFdiv prec emax (S754_finite false mx ex) (S754_finite false my ey)).
Proof.
  intros Dx Dy Hn. cbn [SFdiv xorb].
  unfold SFdiv_core_binary. cbn [Zdigits2]. rewrite Dx, Dy.
  rewrite fexp_normal by lia.
  rewrite Z.min_l by lia.
  replace (ex - ey - (prec + ex - (prec + ey) - prec)) with prec by lia.
  rewrite shiftl_match by assumption.
  rewrite div_eucl_div.
  pose proof (digits2_bounds mx) as [X1 X2].
  pose proof (digits2_bounds my) as [Y1 Y2].
  rewrite Dx in X1, X2. rewrite Dy in Y1, Y2.
  assert (P : 0 < 2 ^ (prec - 1)) by (apply Z.pow_pos_nonneg; lia).
  assert (P2 : 2 ^ prec = 2 * 2 ^ (prec - 1)).
  { replace prec with (prec - 1 + 1) at 1 by lia.
    rewrite Z.pow_add_r by lia. lia. }
  assert (Q : 2 ^ (prec - 1) <= Zpos mx * 2 ^ prec / Zpos my).
  { apply Z.div_le_lower_bound; [lia|]. nia. }
  destruct (Zpos mx * 2 ^ prec / Zpos my) as [|q|q] eqn:Eq; try lia.
  assert (Dq : prec <= Zpos (digits2_pos q)).
  { pose proof (digits2_bounds q) as [_ B].
    destruct (Z.leb_spec prec (Zpos (digits2_pos q))) as [|Lt];
      [assumption|exfalso].
    assert (2 ^ Zpos (digits2_pos q) <= 2 ^ (prec - 1))
      by (apply Z.pow_le_mono_r; lia).
    lia. }
  destruct (binary_round_aux_pos false q (prec + ex - (prec + ey) - prec)
              (new_location (Zpos my) (Zpos mx * 2 ^ prec mod Zpos my)))
    as [H|(m' & e' & H & C & M')].
  - unfold mag. unfold emin' in *. lia.
  - unfold fexp, mag. lia.
  - now left.
  - right. exists m', e'. repeat split; try assumption.
    unfold mag in *. lia.
Qed.

(** Two canonical numbers with the same value are the same number. *)
Lemma canonical_unique (mx : positive) (ex : Z) (my : positive) (ey : Z) :
  canonical_mantissa prec emax mx ex = true ->
  canonical_mantissa prec emax my ey = true ->
  Zpos (fst (shl_align mx ex (Z.min ex ey)))
  = Zpos (fst (shl_align my ey (Z.min ex ey))) ->
  mx = my /\ ex = ey.
Proof.
  intros Cx Cy E.
  pose proof (shl_align_mag mx ex (Z.min ex ey) ltac:(lia)) as Ax.
  pose proof (shl_align_mag my ey (Z.min ex ey) ltac:(lia)) as Ay.
  assert (E' : fst (shl_align mx ex (Z.min ex ey))
               = fst (shl_align my ey (Z.min ex ey))) by congruence.
  rewrite E' in Ax. rewrite Ax in Ay.
  destruct (canonical_fexp mx ex Cx) as (Fx & _ & _).
  destruct (canonical_fexp my ey Cy) as (Fy & _ & _).
  assert (Ee : ex = ey) by congruence.
  split; [|assumption]. subst ey.
  rewrite Z.min_id in E.
  rewrite !(shl_align_fst prec emax) in E by lia.
  rewrite Z.sub_diag in E. simpl in E. lia.
Qed.

(** The difference of two positive canonical numbers is zero only when
    they are equal; otherwise its leading bit is above the smaller
    exponent. *)
Lemma SFsub_pos (mx : positive) (ex : Z) (my : positive) (ey : Z) :
  canonical_mantissa prec emax mx ex = true ->
  canonical_mantissa prec emax my ey = true ->
  let r := SFsub prec emax (S754_finite false mx ex) (S754_finite false my ey)
  in
  (r = S754_zero false /\ mx = my /\ ex = ey)
  \/ (exists s, r = S754_infinity s)
  \/ (exists s m e, r = S754_finite s m e
                    /\ canonical_mantissa prec emax m e = true
                    /\ Z.min ex ey + 1 <= mag m e).
Proof.
  intros Cx Cy r. unfold r. clear r.
  destruct (canonical_fexp mx ex Cx) as (_ & Ex & _).
  destruct (canonical_fexp my ey Cy) as (_ & Ey & _).
  cbn [SFsub cond_Zopp]. set (ez := Z.min ex ey).
  pose proof (canonical_unique mx ex my ey Cx Cy) as U. fold ez in U.
  set (a := fst (shl_align mx ex ez)) in *.
  set (b := fst (shl_align my ey ez)) in *.
  destruct (Zpos a - Zpos b) as [|p|p] eqn:E; cbn [binary_normalize].
  - left. split; [reflexivity|]. apply U. lia.
  - right.
    destruct (binary_round_pos false p ez) as [H|(m' & e' & H & C & M)].
    + unfold mag. lia.
    + left. now exists false.
    + right. exists false, m', e'. repeat split; try assumption.
      unfold mag in *. lia.
  - right.
    destruct (binary_round_pos true p ez) as [H|(m' & e' & H & C & M)].
    + unfold mag. lia.
    + left. now exists true.
    + right. exists true, m', e'. repeat split; try assumption.
      unfold mag in *. lia.
Qed.
End Positive.

(** ** The variance of a buffer is zero only when the buffer is uniform *)

Lemma pos_above_weaken (prec emax L L' : Z) (x : spec_float) :
  pos_above prec emax L x -> L' <= L -> pos_above prec emax L' x.
Proof.
  intros [H|(m & e & H & C & M)] HL; [now left|right].
  exists m, e. repeat split; try assumption. lia.
Qed.

Lemma pos_above_not_zero (prec emax L : Z) (x : spec_float) :
  pos_above prec emax L x -> feq x fzero = false.
Proof. intros [->|(m & e & -> & _)]; reflexivity. Qed.

(** The [double] of a positive integer below 2^53. *)
Lemma F64_of_int_pos (p : positive) :
  Zpos p < 2 ^ 53 ->
  F64.of_int (Zpos p)
  = S754_finite false (canon_m 53 p) (canon_e 53 0 p)
  /\ canonical_mantissa 53 1024 (canon_m 53 p) (canon_e 53 0 p) = true
  /\ Zpos (digits2_pos (canon_m 53 p)) = 53
  /\ -52 <= canon_e 53 0 p <= 0
  /\ mag (canon_m 53 p) (canon_e 53 0 p) = Zpos (digits2_pos p).
Proof.
  intros Hp.
  destruct (canon_m_eq 53 1024 eq_refl p Hp) as [Em Dm].
  pose proof (digits2_le_prec 53 1024 eq_refl p Hp) as Hd.
  assert (He : -52 <= canon_e 53 0 p <= 0) by (unfold canon_e; lia).
  split; [|split; [|split; [|split]]]; try assumption.
  - unfold F64.of_int. cbn [binary_normalize].
    apply (canon_round 53 1024 eq_refl); unfold emin; lia || assumption.
  - unfold canonical_mantissa. apply Z.eqb_eq. rewrite Dm.
    unfold fexp, emin, canon_e. lia.
  - unfold mag, canon_e. rewrite Dm. lia.
Qed.

Lemma term_cases (mean : double) (v : Z) :
  mean = fzero \/ pos_above 53 1024 (-52) mean ->
  is_byte v ->
  (F64.of_int v = mean /\ var_term mean v = fzero)
  \/ pos_above 53 1024 (-209) (var_term mean v).
Proof.
  intros Hmean Hv. unfold is_byte in Hv. unfold var_term, F64.sub, F64.mul, F64.prec, F64.emax.
  assert (P53 : 2 ^ 53 = 9007199254740992) by reflexivity.
  destruct v as [|p|p]; try lia.
  - (* v = 0 *)
    change (F64.of_int 0) with (S754_zero false).
    destruct Hmean as [->|[->|(m & e & -> & C & M)]].
    + left. split; reflexivity.
    + right. left. reflexivity.
    + right. cbn [SFsub negb].
      assert (D : Zpos (digits2_pos m) = 53)
        by (apply (canonical_normal 53 1024 m e C); unfold emin; lia).
      apply (pos_above_weaken 53 1024 (2 * mag m e - 1)); [|lia].
      apply (SFmul_self_pos 53 1024); [reflexivity|assumption|unfold emin; lia].
  - destruct (F64_of_int_pos p) as (-> & Cv & Dv & Ev & Mv); [lia|].
    set (mv := canon_m 53 p) in *. set (ev := canon_e 53 0 p) in *.
    destruct Hmean as [->|[->|(m & e & -> & C & M)]].
    + right. cbn [SFsub fzero].
      apply (pos_above_weaken 53 1024 (2 * mag mv ev - 1)); [|unfold mag; lia].
      apply (SFmul_self_pos 53 1024); [reflexivity|assumption|unfold emin, mag; lia].
    + right. left. reflexivity.
    + destruct (canonical_fexp 53 1024 m e C) as (Fe & _ & _).
      assert (Ee : -105 <= e) by (unfold fexp, emin in Fe; lia).
      destruct (SFsub_pos 53 1024 eq_refl mv ev m e Cv C)
        as [(E & Em & Ex)|[(s & E)|(s & m' & e' & E & C' & M')]];
        rewrite E.
      * left. subst. split; reflexivity.
      * right. left. now destruct s.
      * right.
        assert (D : Zpos (digits2_pos m') = 53).
        { apply (canonical_normal 53 1024 m' e' C').
          unfold emin. lia. }
        apply (pos_above_weaken 53 1024 (2 * mag m' e' - 1)); [|lia].
        apply (SFmul_self_pos 53 1024); [reflexivity|assumption|unfold emin; lia].
Qed.

Lemma add_cases (acc t : double) :
  acc = fzero \/ pos_above 53 1024 (-209) acc ->
  t = fzero \/ pos_above 53 1024 (-209) t ->
  (acc = fzero /\ t = fzero /\ F64.add acc t = fzero)
  \/ pos_above 53 1024 (-209) (F64.add acc t).
Proof.
  unfold F64.add, F64.prec, F64.emax.
  intros [->|[->|(m & e & -> & C & M)]] [->|[->|(m' & e' & -> & C' & M')]].
  - left. repeat split.
  - right. left. reflexivity.
  - right. right. exists m', e'. repeat split; assumption.
  - right. left. reflexivity.
  - right. left. reflexivity.
  - right. left. reflexivity.
  - right. right. exists m, e. repeat split; assumption.
  - right. left. reflexivity.
  - right. apply (pos_above_weaken 53 1024 (Z.max (mag m e) (mag m' e')));
      [|lia].
    now apply (SFadd_pos 53 1024).
Qed.

Lemma var_sum_cases (mean : double) (buf : list Z) (acc : double) :
  mean = fzero \/ pos_above 53 1024 (-52) mean ->
  acc = fzero \/ pos_above 53 1024 (-209) acc ->
  Forall is_byte buf ->
  (acc = fzero /\ Forall (fun v => F64.of_int v = mean) buf
   /\ var_sum mean acc buf = fzero)
  \/ pos_above 53 1024 (-209) (var_sum mean acc buf).
Proof.
  intros Hmean Hacc Hb. revert acc Hacc.
  induction Hb as [|v l Hv Hl IH]; intros acc Hacc.
  - destruct Hacc as [->|H]; [left|right; exact H].
    repeat split. constructor.
  - change (var_sum mean acc (v :: l))
      with (var_sum mean (F64.add acc (var_term mean v)) l).
    destruct (term_cases mean v Hmean Hv) as [[Ev Et]|Ht].
    + destruct (add_cases acc (var_term mean v) Hacc (or_introl Et))
        as [(Ea & _ & E)|H].
      * destruct (IH _ (or_introl E)) as [(_ & F & R)|R]; [left|now right].
        repeat split; try assumption. now constructor.
      * destruct (IH _ (or_intror H)) as [(Z0 & _)|R]; [|now right].
        apply pos_above_not_zero in H. rewrite Z0 in H. discriminate.
    + destruct (add_cases acc (var_term mean v) Hacc (or_intror Ht))
        as [(_ & Et & _)|H].
      * apply pos_above_not_zero in Ht. rewrite Et in Ht. discriminate.
      * destruct (IH _ (or_intror H)) as [(Z0 & _)|R]; [|now right].
        apply pos_above_not_zero in H. rewrite Z0 in H. discriminate.
Qed.
Lemma mean_cases (total N : Z) :
  0 <= total < 2 ^ 53 -> 0 < N < 2 ^ 53 ->
  let mean := F64.div (F64.of_int total) (F64.of_int N) in
  mean = fzero \/ pos_above 53 1024 (-52) mean.
Proof.
  intros Htotal HN mean. unfold mean, F64.div, F64.prec, F64.emax.
  destruct N as [|pn|pn]; try lia.
  destruct (F64_of_int_pos pn) as (-> & Cn & Dn & En & Mn); [lia|].
  destruct total as [|ps|ps]; try lia.
  - left. reflexivity.
  - right. destruct (F64_of_int_pos ps) as (-> & Cs & Ds & Es & Ms); [lia|].
    apply (pos_above_weaken 53 1024 (canon_e 53 0 ps - canon_e 53 0 pn));
      [|lia].
    apply (SFdiv_pos 53 1024); [reflexivity|assumption|assumption|unfold emin; lia].
Qed.

(** When the variance the code computes for a buffer of bytes compares
    equal to 0, every cell of the buffer has the value of the mean. *)
Lemma var_zero_uniform (buf : list Z) (N : Z) :
  Forall is_byte buf -> 0 <= lane_sum buf < 2 ^ 53 -> 0 < N < 2 ^ 53 ->
  let mean := F64.div (F64.of_int (lane_sum buf)) (F64.of_int N) in
  feq (F64.div (var_sum mean fzero buf) (F64.of_int N)) fzero = true ->
  Forall (fun v => F64.of_int v = mean) buf.
Proof.
  intros Hb HS HN mean Hvar.
  pose proof (mean_cases (lane_sum buf) N HS HN) as Hm. fold mean in Hm.
  destruct (var_sum_cases mean buf fzero Hm (or_introl eq_refl) Hb)
    as [(_ & F & _)|H]; [assumption|exfalso].
  revert Hvar. unfold F64.div, F64.prec, F64.emax.
  destruct N as [|pn|pn]; try lia.
  destruct (F64_of_int_pos pn) as (-> & Cn & Dn & En & Mn); [lia|].
  destruct H as [->|(m & e & -> & C & M)]; [discriminate|].
  assert (D : Zpos (digits2_pos m) = 53)
    by (apply (canonical_normal 53 1024 m e C); unfold emin; lia).
  destruct (canonical_fexp 53 1024 m e C) as (Fe & _ & _).
  assert (Ee : -262 <= e) by (unfold fexp, emin in Fe; lia).
  pose proof (SFdiv_pos 53 1024 eq_refl m e (canon_m 53 pn) (canon_e 53 0 pn)
                D Dn ltac:(unfold emin; lia)) as Q.
  apply pos_above_not_zero in Q. rewrite Q. discriminate.
Qed.

Lemma flat_table : all_from 0 (Z.to_nat 256) flat_table_ok = true.
Proof. vm_compute. reflexivity. Qed.

Lemma flat_table_byte (v : Z) :
  is_byte v ->
  compute_summand fzero (F64.of_int v) = F32.of_int v
  /\ F32.mul fzero (F32.of_int v) = fzero
  /\ F32.add fzero (F32.of_int v) = F32.of_int v
  /\ (isnan (F32.of_int v) || isinf (F32.of_int v)) = false
  /\ V2_contrast fzero (F64.of_int v) v = Done v.
Proof.
  intros Hv. unfold is_byte in Hv. pose proof flat_table as T.
  apply (all_from_spec _ _ _ v) in T; [|lia].
  unfold flat_table_ok in T.
  apply andb_true_iff in T as [T T5]. apply andb_true_iff in T as [T T4].
  apply andb_true_iff in T as [T T3]. apply andb_true_iff in T as [T1 T2].
  apply sf_eqb_eq in T1, T2, T3. apply exec_eqb_eq in T5.
  apply negb_true_iff in T4. auto.
Qed.

Lemma F64_of_int_inj (u v : Z) :
  is_byte u -> is_byte v -> F64.of_int u = F64.of_int v -> u = v.
Proof.
  unfold is_byte. intros Hu Hv E.
  assert (T : forall z, 0 <= z <= 255 -> ftrunc (F64.of_int z) = Some z).
  { intros z Hz. unfold F64.of_int.
    change (binary_normalize F64.prec F64.emax z 0 false)
      with (fixp 53 1024 0 z).
    rewrite (fixp_trunc 53 1024 eq_refl 0 z);
      [now rewrite Z.div_1_r|change (2 ^ 53) with 9007199254740992; lia
      |lia|unfold emin; lia|lia]. }
  pose proof (T u Hu) as Tu. rewrite E, (T v Hv) in Tu. congruence.
Qed.

Lemma pixels_of_length (cell : nat -> exec Z) (n start : nat) (l : list Z) :
  pixels_of cell start n = Done l -> length l = n.
Proof.
  revert start l. induction n as [|n IH]; intros start l; cbn [pixels_of].
  - intros H. now injection H as <-.
  - intros H. apply bind_Done in H as (v & _ & H).
    apply bind_Done in H as (r & Hr & H). injection H as <-.
    simpl. f_equal. now apply (IH (S start)).
Qed.

Lemma pixels_of_const (cell : nat -> exec Z) (v : Z) (n start : nat) :
  (forall i, (start <= i < start + n)%nat -> cell i = Done v) ->
  pixels_of cell start n = Done (repeat v n).
Proof.
  revert start. induction n as [|n IH]; intros start H; cbn [pixels_of repeat].
  - reflexivity.
  - rewrite H by lia. cbn [bind]. rewrite IH; [reflexivity|].
    intros i Hi. apply H. lia.
Qed.

Lemma Done_inj {A : Type} (x y : A) : Done x = Done y -> x = y.
Proof. congruence. Qed.

Lemma V1_body_set (a b c : float) (img : list Z) (brightness : Z) (i : nat)
  (total : Z) (acc : list Z) (s' : pass_state) :
  0 <= total -> total + 255 < 2 ^ 53 ->
  V1_body a b c img brightness true i (F64.of_int total, acc) = Done s' ->
  exists v, V1_pixel a b c img brightness i = Done v /\ is_byte v
            /\ s' = (F64.of_int (total + v), acc ++ [v]).
Proof.
  intros Htotal Hlt. unfold V1_body, V1_pixel, clamp_float.
  assert (P : forall v, 0 <= v <= 255 ->
                push v true (F64.of_int total, acc)
                = (F64.of_int (total + v), acc ++ [v])).
  { intros v Hv. unfold push. now rewrite F64_add_int by lia. }
  destruct (brightness =? 0).
  - intros H. apply bind_Done in H as (v & Ev & H). apply Done_inj in H.
    exists v. pose proof (fcast_range _ _ _ _ Ev) as Hv.
    rewrite P in H by assumption. now repeat split.
  - destruct (fgt _ _).
    + intros H. apply Done_inj in H. rewrite P in H by lia.
      exists 255. unfold is_byte. repeat split; try lia. now symmetry.
    + destruct (flt _ _).
      * intros H. apply Done_inj in H. exists 0. unfold is_byte.
        repeat split; try lia. rewrite Z.add_0_r. now symmetry.
      * intros H. apply bind_Done in H as (v & Ev & H). apply Done_inj in H.
        exists v. pose proof (fcast_range _ _ _ _ Ev) as Hv.
        rewrite P in H by assumption. now repeat split.
Qed.

Lemma V1_pass_set (a b c : float) (img : list Z) (brightness : Z)
  (n start : nat) (total : Z) (acc : list Z) (mean' : double) (res : list Z) :
  0 <= total -> total + 255 * Z.of_nat n < 2 ^ 53 ->
  for_loop (V1_body a b c img brightness true) start n (F64.of_int total, acc)
    = Done (mean', res) ->
  exists l, pixels_of (V1_pixel a b c img brightness) start n = Done l
            /\ res = acc ++ l /\ mean' = F64.of_int (total + lane_sum l)
            /\ Forall is_byte l /\ 0 <= lane_sum l <= 255 * Z.of_nat n.
Proof.
  revert start total acc.
  induction n as [|n IH]; intros start total acc Htotal Hlt; cbn [for_loop pixels_of].
  - intros H. injection H as <- <-. exists [].
    rewrite app_nil_r. cbn [lane_sum fold_right]. rewrite Z.add_0_r.
    repeat split; try constructor; lia.
  - intros H. apply bind_Done in H as (s' & E1 & H).
    apply V1_body_set in E1 as (v & Ev & Hv & ->); [|lia|lia].
    unfold is_byte in Hv.
    apply IH in H as (l & El & -> & -> & Hl & Hsum); [|lia|lia].
    exists (v :: l). rewrite Ev, El. cbn [bind lane_sum fold_right].
    fold (lane_sum l).
    repeat split; try lia.
    + now rewrite <- app_assoc.
    + f_equal. lia.
    + constructor; assumption.
Qed.

Lemma uniform_repeat (buf : list Z) (mean : double) :
  Forall is_byte buf -> Forall (fun v => F64.of_int v = mean) buf ->
  buf <> [] ->
  exists v, is_byte v /\ mean = F64.of_int v /\ buf = repeat v (length buf).
Proof.
  intros Hb Hm Hne. destruct buf as [|v l]; [contradiction|].
  inversion_clear Hb as [|? ? Hv Hl]. inversion_clear Hm as [|? ? Ev El].
  exists v. split; [assumption|]. split; [now symmetry|].
  cbn [length repeat]. f_equal.
  clear Hne. induction l as [|u l IH]; [reflexivity|].
  inversion_clear Hl as [|? ? Hu Hl']. inversion_clear El as [|? ? Eu El'].
  cbn [length repeat]. f_equal.
  - apply F64_of_int_inj; congruence || assumption.
  - now apply IH.
Qed.

(** The lookup table of V1 for [kstd = 0] and a summand that is a byte. *)
Lemma lookup_V1_flat (v : Z) :
  is_byte v -> lookup_V1 fzero (F32.of_int v) = Done (repeat v 256).
Proof.
  intros Hv. unfold lookup_V1. rewrite for_loop_snoc.
  rewrite (pixels_of_const _ v); [reflexivity|].
  intros i Hi.
  destruct (flat_table_byte (Z.of_nat i)) as (_ & -> & _);
    [unfold is_byte; lia|].
  destruct (flat_table_byte v Hv) as (_ & _ & -> & _).
  unfold is_byte in Hv.
  rewrite clamp_float_of_int by lia. unfold clamp_int.
  destruct (Z.ltb_spec 255 v); [lia|]. destruct (Z.ltb_spec v 0); [lia|].
  reflexivity.
Qed.

Lemma map_lookup_flat (v : Z) (n : nat) :
  is_byte v ->
  map (fun u => nth (Z.to_nat u) (repeat v 256) 0) (repeat v n) = repeat v n.
Proof.
  intros Hv. unfold is_byte in Hv.
  assert (E : nth (Z.to_nat v) (repeat v 256) 0 = v).
  { rewrite (nth_indep _ 0 v) by (rewrite repeat_length; lia).
    apply nth_repeat. }
  generalize dependent (repeat v 256). intros t E.
  induction n as [|n IH]; cbn [repeat map]; [reflexivity|].
  now rewrite IH, E.
Qed.

(** V1, variance zero.  When the variance V1 computes compares equal to 0
    (the contrast being set), the buffer of the first pass is uniform,
    the mean is its byte, [kstd] is 0, the summand is the mean, and V1
    returns success with the buffer of the first pass, which is also what
    it returns with the contrast unset. *)
Theorem V1_variance_zero (fuel : nat) (img : list Z) (width height : nat)
  (a b c : float) (brightness : Z) (contrast : float)
  (mean var : double) (result : list Z) :
  Z.of_nat (width * height) * 255 < 2 ^ 53 ->
  isnan contrast = false ->
  V1_statistics img width height a b c brightness = Done (mean, var, result) ->
  feq var fzero = true ->
  compute_kstd fuel contrast var = Done (Some fzero)
  /\ (exists v, is_byte v /\ result = repeat v (width * height)
                /\ mean = F64.of_int v
                /\ compute_summand fzero mean = F32.of_int v)
  /\ brightness_contrast_V1 fuel img width height a b c brightness contrast
     = Done (1, result)
  /\ brightness_contrast_V1 fuel img width height a b c brightness unset
     = Done (1, result).
Proof.
  intros Hsize Hk Hst Hvar.
  unfold V1_statistics in Hst.
  apply bind_Done in Hst as ([meansum res] & Hpass & Hst).
  injection Hst as Emean Evar Eres. subst res.
  pose proof Hpass as Hpass'.
  change fzero with (F64.of_int 0) in Hpass' at 1.
  apply V1_pass_set in Hpass' as (l & Hl & El & Em & Hb & Hsum); [|lia|lia].
  cbn [app] in El. subst l. rewrite Z.add_0_l in Em.
  pose proof (pixels_of_length _ _ _ _ Hl) as Hlen.
  set (wh := (width * height)%nat) in *.
  assert (Hwh : (0 < wh)%nat).
  { destruct wh; [|lia]. exfalso.
    destruct result; [|discriminate]. subst. discriminate. }
  assert (P53 : 2 ^ 53 = 9007199254740992) by reflexivity.
  assert (U : Forall (fun v => F64.of_int v = mean) result).
  { subst mean meansum var.
    apply (var_zero_uniform result (Z.of_nat wh)); try assumption; lia. }
  destruct (uniform_repeat result mean Hb U) as (v & Hv & Ev & Er).
  { intros ->. simpl in Hlen. lia. }
  rewrite Hlen in Er.
  destruct (flat_table_byte v Hv) as (T1 & _ & _ & T4 & _).
  assert (K : compute_kstd fuel contrast var = Done (Some fzero)).
  { unfold compute_kstd, fne. fold (feq var fzero). now rewrite Hvar. }
  split; [exact K|]. split.
  { exists v. split; [assumption|]. split; [assumption|].
    split; [assumption|]. now rewrite Ev. }
  split.
  - unfold brightness_contrast_V1. rewrite Hk. fold wh. rewrite Hpass.
    cbn [bind]. cbv zeta. rewrite Evar, Emean, K. cbn [bind].
    rewrite Ev, T1, T4, lookup_V1_flat by assumption. cbn [bind].
    rewrite Er at 1. rewrite map_lookup_flat by assumption.
    now rewrite <- Er.
  - unfold brightness_contrast_V1. cbn [unset isnan]. fold wh.
    rewrite V1_pass_unset, Hl. reflexivity.
Qed.

Lemma V1_variance_zero_witness :
  (Z.of_nat (2 * 1) * 255 < 2 ^ 53
   /\ isnan fifty = false
   /\ V1_statistics [10; 10; 10; 10; 10; 10] 2 1
        (weight256 55) (weight256 182) (weight256 19) 0
      = Done (F64.of_int 10, fzero, [10; 10])
   /\ feq fzero fzero = true)
  /\ brightness_contrast_V1 0 [10; 10; 10; 10; 10; 10] 2 1
       (weight256 55) (weight256 182) (weight256 19) 0 fifty
     = Done (1, [10; 10]).
Proof.
  assert (H : Z.of_nat (2 * 1) * 255 < 2 ^ 53
              /\ isnan fifty = false
              /\ V1_statistics [10; 10; 10; 10; 10; 10] 2 1
                   (weight256 55) (weight256 182) (weight256 19) 0
                 = Done (F64.of_int 10, fzero, [10; 10])
              /\ feq fzero fzero = true).
  { split; [simpl; lia|]. split; [reflexivity|].
    split; [vm_compute; reflexivity|reflexivity]. }
  split; [exact H|]. destruct H as (H1 & H2 & H3 & H4).
  exact (proj1 (proj2 (proj2
           (V1_variance_zero 0 [10; 10; 10; 10; 10; 10] 2 1
              (weight256 55) (weight256 182) (weight256 19) 0 fifty
              (F64.of_int 10) fzero [10; 10] H1 H2 H3 H4)))).
Defined.

Lemma fold_mean_exact (l : list Z) (total : Z) :
  Forall is_byte l -> 0 <= total -> total + 255 * Z.of_nat (length l) < 2 ^ 53 ->
  fold_left (fun m v => F64.add m (F64.of_int v)) l (F64.of_int total)
  = F64.of_int (total + lane_sum l)
  /\ 0 <= lane_sum l <= 255 * Z.of_nat (length l).
Proof.
  intros Hl. revert total.
  induction Hl as [|v l Hv Hl IH]; intros total Htotal Hlt;
    cbn [fold_left lane_sum fold_right length].
  - rewrite Z.add_0_r. split; [reflexivity|lia].
  - unfold is_byte in Hv. cbn [length] in Hlt. rewrite Nat2Z.inj_succ in Hlt.
    rewrite F64_add_int by lia.
    destruct (IH (total + v)) as [E B]; [lia|lia|].
    fold (lane_sum l). rewrite E. split; [f_equal; lia|lia].
Qed.

(** V2, variance zero.  When the variance V2 computes on the buffer of
    its brightness stage compares equal to 0 (the contrast being set),
    that buffer is uniform, [kstd] is 0, and V2 returns success with the
    buffer unchanged. *)
Theorem V2_variance_zero (fuel : nat) (img : list Z) (width height : nat)
  (a b c : float) (brightness : Z) (contrast : float) (result : list Z) :
  Z.of_nat (width * height) * 255 < 2 ^ 53 ->
  -255 <= brightness <= 255 ->
  isnan contrast = false ->
  brightness_contrast_V2 fuel img width height a b c brightness unset
    = Done (1, result) ->
  let '(mean, var) := V2_statistics result (width * height) in
  feq var fzero = true ->
  compute_kstd fuel contrast var = Done (Some fzero)
  /\ (exists v, is_byte v /\ result = repeat v (width * height)
                /\ mean = F64.of_int v)
  /\ brightness_contrast_V2 fuel img width height a b c brightness contrast
     = Done (1, result).
Proof.
  intros Hsize Hbr Hk Hunset. unfold V2_statistics.
  set (wh := (width * height)%nat) in *. intros Hvar.
  (* the buffer of the brightness stage *)
  pose proof Hunset as Hu. rewrite V2_unset in Hu by assumption. fold wh in Hu.
  apply bind_Done in Hu as (grey & Hg & Hu). apply Done_inj in Hu.
  injection Hu as Er.
  pose proof (pixels_of_length _ _ _ _ Hg) as Hlen.
  assert (Hb : Forall is_byte result).
  { subst result. apply Forall_forall. intros x Hx.
    apply in_map_iff in Hx as (y & <- & _). unfold clamp_int, is_byte.
    destruct (255 <? y + brightness) eqn:E1; [lia|].
    destruct (y + brightness <? 0) eqn:E2; [lia|].
    apply Z.ltb_ge in E1, E2. lia. }
  assert (Hlen' : length result = wh) by (subst result; now rewrite length_map).
  destruct (fold_mean_exact result 0 Hb) as [Em Hsum];
    [lia|rewrite Hlen'; lia|].
  change (F64.of_int 0) with fzero in Em. rewrite Z.add_0_l in Em.
  rewrite Em in Hvar |- *. rewrite Hlen' in Hsum.
  assert (Hwh : (0 < wh)%nat).
  { destruct wh; [|lia]. exfalso.
    destruct result; [|discriminate]. discriminate. }
  set (mean := F64.div (F64.of_int (lane_sum result))
                 (F64.of_int (Z.of_nat wh))) in *.
  assert (U : Forall (fun v => F64.of_int v = mean) result).
  { apply (var_zero_uniform result (Z.of_nat wh)); try assumption; lia. }
  destruct (uniform_repeat result mean Hb U) as (v & Hv & Ev & Er').
  { intros E. rewrite E in Hlen'. simpl in Hlen'. lia. }
  rewrite Hlen' in Er'.
  assert (K : compute_kstd fuel contrast
                (F64.div (var_sum mean fzero result) (F64.of_int (Z.of_nat wh)))
              = Done (Some fzero)).
  { unfold compute_kstd, fne.
    fold (feq (F64.div (var_sum mean fzero result) (F64.of_int (Z.of_nat wh)))
            fzero).
    now rewrite Hvar. }
  split; [exact K|]. split.
  { exists v. split; [assumption|]. split; assumption. }
  (* the run with the contrast *)
  revert Hunset. unfold brightness_contrast_V2. fold wh.
  destruct (for_loop (V2_grey a b c img) 0 wh []) as [r1| |]; try discriminate.
  cbn [bind].
  destruct (if brightness =? 0 then Done r1
            else for_buf (V2_brightness brightness) r1) as [r2| |];
    try discriminate.
  cbn [bind unset isnan negb]. intros H. apply Done_inj in H.
  injection H as ->. rewrite Hk. cbn [negb]. cbv zeta.
  rewrite Em. fold mean. rewrite K. cbn [bind].
  destruct (flat_table_byte v Hv) as (T1 & _ & _ & T4 & T5).
  rewrite Ev, T1, T4.
  rewrite (for_buf_map _ (fun u => u)).
  - now rewrite map_id.
  - rewrite Er'. clear - T5.
    induction wh as [|n IH]; cbn [repeat]; constructor; assumption.
Qed.

Lemma V2_variance_zero_witness :
  (Z.of_nat (2 * 1) * 255 < 2 ^ 53 /\ -255 <= 0 <= 255
   /\ isnan fifty = false
   /\ brightness_contrast_V2 0 [10; 10; 10; 10; 10; 10] 2 1
        (weight256 55) (weight256 182) (weight256 19) 0 unset
      = Done (1, [10; 10]))
  /\ (feq (snd (V2_statistics [10; 10] (2 * 1))) fzero = true
      /\ brightness_contrast_V2 0 [10; 10; 10; 10; 10; 10] 2 1
           (weight256 55) (weight256 182) (weight256 19) 0 fifty
         = Done (1, [10; 10])).
Proof.
  assert (H : Z.of_nat (2 * 1) * 255 < 2 ^ 53 /\ -255 <= 0 <= 255
              /\ isnan fifty = false
              /\ brightness_contrast_V2 0 [10; 10; 10; 10; 10; 10] 2 1
                   (weight256 55) (weight256 182) (weight256 19) 0 unset
                 = Done (1, [10; 10])).
  { split; [simpl; lia|]. split; [lia|]. split; [reflexivity|].
    vm_compute; reflexivity. }
  split; [exact H|]. destruct H as (H1 & H2 & H3 & H4).
  pose proof (V2_variance_zero 0 [10; 10; 10; 10; 10; 10] 2 1
                (weight256 55) (weight256 182) (weight256 19) 0 fifty
                [10; 10] H1 H2 H3 H4) as T.
  destruct (V2_statistics [10; 10] (2 * 1)) as [mean var] eqn:E.
  assert (Hv : feq var fzero = true).
  { apply (f_equal snd) in E. cbn [snd] in E. rewrite <- E.
    vm_compute. reflexivity. }
  split; [exact Hv|]. exact (proj2 (proj2 (T Hv))).
Defined.

(** ** [convert_coeffs_to_max256] *)

Lemma adjust_coeffs_words (a b c sum : float) (c0 c1 c2 : Z) :
  word c0 -> word c1 -> word c2 ->
  let '(d0, d1, d2) := adjust_coeffs a b c sum (c0, c1, c2) in
  word d0 /\ word d1 /\ word d2.
Proof.
  intros H0 H1 H2. unfold adjust_coeffs.
  repeat match goal with
         | |- context [if ?x then _ else _] => destruct x
         end;
    (split; [|split]); assumption || apply word_wrap16.
Qed.

Lemma convert_coeffs_loop_exit (fuel : nat) (a b c sum : float)
  (c0 c1 c2 : Z) (r : Z * Z * Z) :
  word c0 -> word c1 -> word c2 ->
  convert_coeffs_loop fuel a b c sum (c0, c1, c2) = Done r -> coeffs_ok r.
Proof.
  revert c0 c1 c2.
  induction fuel as [|fuel IH]; intros c0 c1 c2 H0 H1 H2;
    cbn [convert_coeffs_loop coeffs_total];
    destruct (Z.eqb_spec (c0 + c1 + c2) 256) as [E|E]; intros H;
    try discriminate.
  - injection H as <-. unfold coeffs_ok, word in *. lia.
  - injection H as <-. unfold coeffs_ok, word in *. lia.
  - pose proof (adjust_coeffs_words a b c sum c0 c1 c2 H0 H1 H2) as W.
    destruct (adjust_coeffs a b c sum (c0, c1, c2)) as [[d0 d1] d2].
    destruct W as (W0 & W1 & W2). now apply (IH d0 d1 d2).
Qed.

Lemma convert_coeffs_exit (fuel : nat) (a b c : float) (coeffs : Z * Z * Z) :
  convert_coeffs_to_max256 fuel a b c = Done coeffs -> coeffs_ok coeffs.
Proof.
  unfold convert_coeffs_to_max256. intros H.
  apply bind_Done in H as (c0 & E0 & H).
  apply bind_Done in H as (c1 & E1 & H).
  apply bind_Done in H as (c2 & E2 & H).
  apply fcast_range in E0, E1, E2.
  apply (convert_coeffs_loop_exit _ _ _ _ _ c0 c1 c2 coeffs) in H;
    unfold word; lia || assumption.
Qed.

(** Whenever [convert_coeffs_to_max256] returns, the three integer
    coefficients are not negative and their sum is exactly 256 (so each is
    at most 256), whatever the weights were. *)
Theorem convert_coeffs_returns_256 (fuel : nat) (a b c : float)
  (c0 c1 c2 : Z) :
  convert_coeffs_to_max256 fuel a b c = Done (c0, c1, c2) ->
  0 <= c0 <= 256 /\ 0 <= c1 <= 256 /\ 0 <= c2 <= 256 /\ c0 + c1 + c2 = 256.
Proof.
  intros H. apply convert_coeffs_exit in H. unfold coeffs_ok in H. lia.
Qed.

Lemma convert_coeffs_returns_256_witness :
  convert_coeffs_to_max256 2 one one one = Done (85, 85, 86)
  /\ (0 <= 85 <= 256 /\ 0 <= 85 <= 256 /\ 0 <= 86 <= 256
      /\ 85 + 85 + 86 = 256).
Proof.
  assert (H : convert_coeffs_to_max256 2 one one one = Done (85, 85, 86))
    by (vm_compute; reflexivity).
  split; [exact H|].
  exact (convert_coeffs_returns_256 2 one one one 85 85 86 H).
Defined.

(** ** [brightness_contrast_V0] without contrast *)

(** With the contrast unset, whenever the conversion of the weights
    returns the integer coefficients [coeffs], V0 returns success and cell
    [i] of its buffer is clamp((c0 r + c1 g + c2 b) / 256 + brightness,
    0, 255): the vector blocks and the scalar loop over the last
    [wh mod 16] pixels store the same function of the pixel. *)
Theorem V0_unset_fixed_point (fuel : nat) (img : list Z) (width height : nat)
  (a b c : float) (brightness : Z) (coeffs : Z * Z * Z) :
  convert_coeffs_to_max256 fuel a b c = Done coeffs ->
  length img = (3 * (width * height))%nat -> Forall is_byte img ->
  -255 <= brightness <= 255 ->
  brightness_contrast_V0 fuel img width height a b c brightness unset
  = Done (1, map (fixed_pixel coeffs img brightness)
               (seq 0 (width * height))).
Proof.
  intros Hc _ Himg Hbr. unfold brightness_contrast_V0.
  rewrite Hc. cbn [bind unset isnan].
  rewrite V0_pass_unset; [reflexivity| |assumption|assumption].
  now apply (convert_coeffs_exit fuel a b c).
Qed.

Lemma V0_unset_fixed_point_witness :
  (convert_coeffs_to_max256 2 one one one = Done (85, 85, 86)
   /\ length img_red_black = (3 * (2 * 1))%nat
   /\ Forall is_byte img_red_black /\ -255 <= 10 <= 255)
  /\ brightness_contrast_V0 2 img_red_black 2 1 one one one 10 unset
     = Done (1, map (fixed_pixel (85, 85, 86) img_red_black 10)
                  (seq 0 (2 * 1))).
Proof.
  assert (H : convert_coeffs_to_max256 2 one one one = Done (85, 85, 86)
              /\ length img_red_black = (3 * (2 * 1))%nat
              /\ Forall is_byte img_red_black /\ -255 <= 10 <= 255).
  { split; [vm_compute; reflexivity|]. split; [reflexivity|].
    split; [unfold is_byte; repeat constructor; lia|lia]. }
  split; [exact H|].
  destruct H as (Hc & Hl & Hi & Hb).
  exact (V0_unset_fixed_point 2 img_red_black 2 1 one one one 10 (85, 85, 86)
           Hc Hl Hi Hb).
Defined.

(** ** [sum_mm_epi16] *)

(** [sum_mm_epi16] returns the sum of the eight 16-bit lanes of its
    argument modulo 2^16: the three folding additions wrap around, and
    the value read from lane 0 is the exact sum only while that sum is
    below 65536. *)
Theorem sum_mm_epi16_wraps (l : list Z) :
  length l = 8%nat -> Forall word l ->
  sum_mm_epi16 (of_epi16 l) = lane_sum l mod 65536
  /\ (lane_sum l < 65536 -> sum_mm_epi16 (of_epi16 l) = lane_sum l).
Proof.
  intros Hl Hw.
  assert (E : sum_mm_epi16 (of_epi16 l) = lane_sum l mod 65536).
  { unfold sum_mm_epi16, _mm_extract_epi16.
    destruct (add_srli_si128 l Hl Hw) as (-> & _ & _).
    destruct (fold_step_wf 4 l) as [H1 W1]; [lia|assumption|].
    destruct (add_srli_si128 _ H1 W1) as (_ & -> & _).
    destruct (fold_step_wf 2 (fold_step 4 l)) as [H2 W2]; [lia|assumption|].
    destruct (add_srli_si128 _ H2 W2) as (_ & _ & ->).
    destruct (fold_step_wf 1 (fold_step 2 (fold_step 4 l))) as [H3 W3];
      [lia|assumption|].
    rewrite (lanes_of_epi16 _ H3 W3).
    clear H1 W1 H2 W2 H3 W3 Hw.
    destruct (list8 l Hl) as (x0 & x1 & x2 & x3 & x4 & x5 & x6 & x7 & ->).
    unfold fold_step.
    cbn [skipn repeat app map2 nth lane_sum fold_right].
    unfold wrap16. rewrite !Z.add_0_r.
    rewrite <- (Z.add_mod (x0 + x4) (x2 + x6)) by lia.
    rewrite <- (Z.add_mod (x1 + x5) (x3 + x7)) by lia.
    rewrite <- Z.add_mod by lia.
    f_equal. lia. }
  split; [assumption|].
  intros Hlt. rewrite E. apply Z.mod_small. split; [|assumption].
  clear - Hw. induction Hw as [|x l Hx _ IH]; cbn [lane_sum fold_right].
  - lia.
  - unfold word in Hx. unfold lane_sum in IH. lia.
Qed.

Lemma sum_mm_epi16_wraps_witness :
  (length [65535; 1; 2; 3; 4; 5; 6; 7] = 8%nat
   /\ Forall word [65535; 1; 2; 3; 4; 5; 6; 7])
  /\ sum_mm_epi16 (of_epi16 [65535; 1; 2; 3; 4; 5; 6; 7])
     = lane_sum [65535; 1; 2; 3; 4; 5; 6; 7] mod 65536.
Proof.
  assert (H : length [65535; 1; 2; 3; 4; 5; 6; 7] = 8%nat
              /\ Forall word [65535; 1; 2; 3; 4; 5; 6; 7]).
  { split; [reflexivity|]. unfold word. repeat constructor; lia. }
  split; [exact H|]. destruct H as [Hl Hw].
  exact (proj1 (sum_mm_epi16_wraps [65535; 1; 2; 3; 4; 5; 6; 7] Hl Hw)).
Defined.

(** ** [load_and_convert_to_grey16] *)

(** The twelve shuffle masks separate the channels of 16 interleaved RGB
    pixels correctly: for integer coefficients with sum 256, lane [j] of
    [grey1] holds (c0 r + c1 g + c2 b) / 256 of pixel [i + j] and lane [j]
    of [grey2] that of pixel [i + 8 + j], without wrap-around in the
    16-bit products and sums. *)
Theorem load_and_convert_grey (img : list Z) (i : nat) (c0 c1 c2 : Z) :
  coeffs_ok (c0, c1, c2) -> Forall is_byte img ->
  (3 * i + 48 <= length img)%nat ->
  let g := load_and_convert_to_grey16 img i
             (_mm_set1_epi16 c0) (_mm_set1_epi16 c1) (_mm_set1_epi16 c2) in
  epi16_lanes (fst g)
    = map (fun j => fixed_grey (c0, c1, c2) img (i + j)) (seq 0 8)
  /\ epi16_lanes (snd g)
     = map (fun j => fixed_grey (c0, c1, c2) img (i + 8 + j)) (seq 0 8).
Proof.
  intros Hc Himg _ g.
  pose proof (load_and_convert_lanes img i (c0, c1, c2)) as H.
  cbv beta iota zeta in H. fold g in H. destruct H as [H1 H2].
  rewrite H1, H2. split; apply map_ext; intros j;
    now apply lane_grey_fixed.
Qed.

Lemma load_and_convert_grey_witness :
  (coeffs_ok (85, 85, 86) /\ Forall is_byte (repeat 200 48)
   /\ (3 * 0 + 48 <= length (repeat 200 48))%nat)
  /\ epi16_lanes
       (fst (load_and_convert_to_grey16 (repeat 200 48) 0
               (_mm_set1_epi16 85) (_mm_set1_epi16 85) (_mm_set1_epi16 86)))
     = map (fun j => fixed_grey (85, 85, 86) (repeat 200 48) (0 + j))
         (seq 0 8).
Proof.
  assert (H : coeffs_ok (85, 85, 86) /\ Forall is_byte (repeat 200 48)
              /\ (3 * 0 + 48 <= length (repeat 200 48))%nat).
  { split; [unfold coeffs_ok; lia|]. split; [|simpl; lia].
    simpl. unfold is_byte. repeat constructor; lia. }
  split; [exact H|]. destruct H as (H1 & H2 & H3).
  exact (proj1 (load_and_convert_grey (repeat 200 48) 0 85 85 86 H1 H2 H3)).
Defined.

(** ** [sqrtHeron] *)

Lemma feq_eq (x y : spec_float) :
  feq x y = true ->
  x = y \/ (exists s s', x = S754_zero s /\ y = S754_zero s').
Proof.
  unfold feq, SFeqb.
  destruct x as [s|[]| |[] m e], y as [s'|[]| |[] m' e']; cbn [SFcompare];
    try discriminate; try (now left).
  - intros _. right. now exists s, s'.
  - destruct (Z.compare_spec e e') as [->|L|G]; try discriminate.
    destruct (Pos.compare_cont Eq m m') eqn:E; try discriminate.
    apply Pos.compare_eq in E. subst. now left.
  - destruct (Z.compare_spec e e') as [->|L|G]; try discriminate.
    destruct (Pos.compare_cont Eq m m') eqn:E; try discriminate.
    apply Pos.compare_eq in E. subst. now left.
Qed.

Lemma heron_step_zero (m : positive) (e : Z) (s s' : bool) :
  heron_step (S754_finite false m e) (S754_zero s) <> S754_zero s'.
Proof. destruct s; vm_compute; discriminate. Qed.

(** [(n + 1) / 2] is not zero for a finite [n > 0]. *)
Lemma heron_start (m : positive) (e : Z) :
  feq (F32.div (F32.add (S754_finite false m e) (F32.of_int 1))
         (F32.of_int 2)) (F32.of_int 0) = false.
Proof.
  change (F32.of_int 1) with (S754_finite false 8388608 (-23)).
  change (F32.of_int 2) with (S754_finite false 8388608 (-22)).
  change (F32.of_int 0) with fzero.
  unfold F32.add, F32.div, F32.prec, F32.emax.
  assert (A : pos_above 24 128 1
                (SFadd 24 128 (S754_finite false m e)
                   (S754_finite false 8388608 (-23)))).
  { cbn [SFadd cond_Zopp]. set (ez := Z.min e (-23)).
    pose proof (shl_align_mag 24 128 8388608 (-23) ez ltac:(unfold ez; lia)) as Ab.
    set (a := fst (shl_align m e ez)) in *.
    set (b := fst (shl_align 8388608 (-23) ez)) in *.
    change (Zpos a + Zpos b) with (Zpos (a + b)). cbn [binary_normalize].
    assert (Mb : 1 <= mag (a + b) ez).
    { change (mag 8388608 (-23)) with 1 in Ab. rewrite <- Ab.
      unfold mag. pose proof (digits2_le b (a + b)). lia. }
    destruct (binary_round_pos 24 128 eq_refl false (a + b) ez)
      as [H|(m' & e' & H & C & M)].
    - unfold emin. lia.
    - now left.
    - right. exists m', e'. repeat split; try assumption. lia. }
  destruct A as [->|(m' & e' & -> & C & M)]; [reflexivity|].
  assert (D : Zpos (digits2_pos m') = 24)
    by (apply (canonical_normal 24 128 m' e' C); unfold emin; lia).
  destruct (canonical_fexp 24 128 m' e' C) as (Fe & _ & _).
  assert (Ee : -23 <= e') by (unfold fexp, emin in Fe; lia).
  apply (pos_above_not_zero 24 128 (e' - -22)).
  apply (SFdiv_pos 24 128); [reflexivity|assumption|reflexivity|].
  unfold emin. lia.
Qed.

Lemma sqrtHeron_loop_exit (fuel : nat) (m : positive) (e : Z)
  (x x0 r : float) :
  x = heron_step (S754_finite false m e) x0 \/ fne x x0 = true ->
  sqrtHeron_loop fuel (S754_finite false m e) x x0 = Done r ->
  heron_step (S754_finite false m e) r = r /\ isnan r = false.
Proof.
  assert (Exit : forall x x0,
            x = heron_step (S754_finite false m e) x0 \/ fne x x0 = true ->
            fne x x0 = false ->
            heron_step (S754_finite false m e) x = x /\ isnan x = false).
  { clear. intros x x0 Hx E. destruct Hx as [Hx|Hx]; [|congruence].
    unfold fne in E. apply negb_false_iff in E.
    assert (Hnan : isnan x = false).
    { destruct x; try reflexivity. discriminate. }
    split; [|assumption].
    apply feq_eq in E as [E|(s & s' & E1 & E2)].
    - now rewrite E at 1.
    - subst x0. rewrite E1 in Hx. symmetry in Hx.
      now apply heron_step_zero in Hx. }
  revert x x0.
  induction fuel as [|fuel IH]; intros x x0 Hx; cbn [sqrtHeron_loop];
    destruct (fne x x0) eqn:E; try discriminate.
  - intros H. apply Done_inj in H. subst r.
    destruct Hx as [Hx|Hx]; [|discriminate].
    apply (Exit x x0); [now left|assumption].
  - intros H. apply (IH (heron_step (S754_finite false m e) x) x);
      [now left|exact H].
  - intros H. apply Done_inj in H. subst r.
    destruct Hx as [Hx|Hx]; [|discriminate].
    apply (Exit x x0); [now left|assumption].
Qed.

(** What [sqrtHeron] returns, whenever it returns: NaN for a negative,
    NaN or infinite [n]; 0 for [n = 0]; and for a finite [n > 0] a value
    [x] that is not NaN and is a fixed point of the iteration in [float]
    arithmetic, [(x + n / x) / 2 = x].  In the first two cases it returns
    without entering the loop. *)
Theorem sqrtHeron_result (fuel : nat) (n r : float) :
  sqrtHeron fuel n = Done r ->
  if flt n (F32.of_int 0) || isnan n || isinf n then
    r = S754_nan /\ sqrtHeron 0 n = Done r
  else if feq n fzero then
    r = F32.of_int 0 /\ sqrtHeron 0 n = Done r
  else
    F32.div (F32.add r (F32.div n r)) (F32.of_int 2) = r /\ isnan r = false.
Proof.
  unfold sqrtHeron.
  destruct (flt n (F32.of_int 0) || isnan n || isinf n) eqn:Hn.
  { intros H. apply Done_inj in H. now subst r. }
  destruct (feq n fzero) eqn:Hz.
  { intros H. apply Done_inj in H. now subst r. }
  destruct n as [[]|[]| |[] m e]; try (simpl in Hn, Hz; discriminate).
  apply sqrtHeron_loop_exit. right.
  unfold fne. now rewrite heron_start.
Qed.

Lemma sqrtHeron_result_witness :
  sqrtHeron 10 (F32.of_int 4) = Done (F32.of_int 2)
  /\ F32.div (F32.add (F32.of_int 2) (F32.div (F32.of_int 4) (F32.of_int 2)))
       (F32.of_int 2) = F32.of_int 2.
Proof.
  assert (H : sqrtHeron 10 (F32.of_int 4) = Done (F32.of_int 2))
    by (vm_compute; reflexivity).
  split; [exact H|].
  exact (proj1 (sqrtHeron_result 10 (F32.of_int 4) (F32.of_int 2) H)).
Defined.

Lemma nonfinite_add (prec emax : Z) (x y : spec_float) :
  nonfinite x = true ->
  nonfinite (SFadd prec emax x y) = true
  /\ nonfinite (SFadd prec emax y x) = true.
Proof.
  destruct x as [|[]| |]; try discriminate; intros _;
    destruct y as [[]|[]| |[]]; split; reflexivity.
Qed.

Lemma nonfinite_mul (prec emax : Z) (x y : spec_float) :
  nonfinite x = true ->
  nonfinite (SFmul prec emax x y) = true
  /\ nonfinite (SFmul prec emax y x) = true.
Proof.
  destruct x as [|[]| |]; try discriminate; intros _;
    destruct y as [[]|[]| |[]]; split; reflexivity.
Qed.

Lemma nonfinite_div (prec emax : Z) (x y : spec_float) :
  nonfinite x = true -> nonfinite y = true -> SFdiv prec emax x y = S754_nan.
Proof.
  destruct x as [|[]| |]; try discriminate; intros _;
    destruct y as [|[]| |]; try discriminate; reflexivity.
Qed.

Lemma nonfinite_not_zero (x : spec_float) :
  nonfinite x = true -> feq x fzero = false.
Proof. destruct x as [|[]| |]; try discriminate; reflexivity. Qed.

(** The double of a [float] (the conversion at the call of [checkParams])
    is NaN or infinite when the [float] is. *)
Lemma nonfinite_round (x : float) :
  nonfinite x = true -> F64.round x = x.
Proof. destruct x; try discriminate; reflexivity. Qed.

(** [checkParams] does not ask the coefficients to be finite: a list of
    arguments it accepts is still accepted when any one coefficient is
    replaced by NaN or by +infinity. *)
Theorem checkParams_accepts_nonfinite (V_option B_option : Z)
  (input_filename output_filename : option (list Z)) (a b c : double)
  (brightness : Z) (contrast : float) (x : double) :
  Util.checkParams V_option B_option input_filename output_filename a b c
    brightness contrast = true ->
  x = S754_nan \/ x = S754_infinity false ->
  Util.checkParams V_option B_option input_filename output_filename x b c
    brightness contrast = true
  /\ Util.checkParams V_option B_option input_filename output_filename a x c
       brightness contrast = true
  /\ Util.checkParams V_option B_option input_filename output_filename a b x
       brightness contrast = true.
Proof.
  unfold Util.checkParams. intros H Hx.
  destruct ((brightness <? -255) || (255 <? brightness)); [discriminate|].
  destruct (negb (isnan contrast) && _); [discriminate|].
  destruct (flt a (F64.of_int 0)) eqn:Ha; [discriminate|].
  destruct (flt b (F64.of_int 0)) eqn:Hb; [discriminate|].
  destruct (flt c (F64.of_int 0)) eqn:Hc; [discriminate|].
  cbn [orb] in H |- *.
  destruct ((V_option <? 0) || (Util.MAX_VERSION <? V_option));
    [discriminate|].
  destruct (B_option <? 0); [discriminate|].
  destruct output_filename; [|discriminate].
  destruct input_filename; [|discriminate].
  assert (Fx : flt x (F64.of_int 0) = false)
    by (destruct Hx as [-> | ->]; reflexivity).
  assert (Nx : nonfinite x = true)
    by (destruct Hx as [-> | ->]; reflexivity).
  rewrite Fx. cbn [orb].
  destruct (nonfinite_add 53 1024 x b Nx) as [N1 _].
  destruct (nonfinite_add 53 1024 x a Nx) as [_ N2].
  destruct (nonfinite_add 53 1024 x (F64.add a b) Nx) as [_ N3].
  destruct (nonfinite_add 53 1024 _ c N1) as [N1' _].
  destruct (nonfinite_add 53 1024 _ c N2) as [N2' _].
  unfold F64.add, F64.prec, F64.emax.
  now rewrite !nonfinite_not_zero.
Qed.

Lemma checkParams_accepts_nonfinite_witness :
  (Util.checkParams 0 0 (Some []) (Some []) (F64.of_int 1) (F64.of_int 1)
     (F64.of_int 1) 0 unset = true
   /\ (S754_nan = S754_nan \/ S754_nan = S754_infinity false))
  /\ Util.checkParams 0 0 (Some []) (Some []) S754_nan (F64.of_int 1)
       (F64.of_int 1) 0 unset = true.
Proof.
  assert (H : Util.checkParams 0 0 (Some []) (Some []) (F64.of_int 1)
                (F64.of_int 1) (F64.of_int 1) 0 unset = true
              /\ (S754_nan = S754_nan \/ S754_nan = S754_infinity false)).
  { split; [reflexivity|now left]. }
  split; [exact H|]. destruct H as [H1 H2].
  exact (proj1 (checkParams_accepts_nonfinite 0 0 (Some []) (Some [])
                  (F64.of_int 1) (F64.of_int 1) (F64.of_int 1) 0 unset
                  S754_nan H1 H2)).
Defined.

(** ** A coefficient that is NaN or infinite *)

Lemma SFadd_nan_r (prec emax : Z) (x : spec_float) :
  SFadd prec emax x S754_nan = S754_nan.
Proof. now destruct x. Qed.

Lemma SFmul_nan_r (prec emax : Z) (x : spec_float) :
  SFmul prec emax x S754_nan = S754_nan.
Proof. now destruct x. Qed.

Lemma weighted_sum_nan (a b c : float) (img : list Z) (i : nat) :
  a = S754_nan \/ b = S754_nan \/ c = S754_nan ->
  weighted_sum a b c img i = S754_nan.
Proof.
  unfold weighted_sum, F32.add, F32.mul.
  intros [-> | [-> | ->]]; cbn [SFmul SFadd];
    now rewrite ?SFadd_nan_r.
Qed.

Lemma weighted_sum_nonfinite (a b c : float) (img : list Z) (i : nat) :
  nonfinite a || nonfinite b || nonfinite c = true ->
  nonfinite (weighted_sum a b c img i) = true.
Proof.
  unfold weighted_sum, F32.add, F32.mul. intros H.
  generalize (F32.of_int (img_at img (i * 3))).
  generalize (F32.of_int (img_at img (i * 3 + 1))).
  generalize (F32.of_int (img_at img (i * 3 + 2))).
  intros u g r.
  apply orb_true_iff in H as [H|H]; [apply orb_true_iff in H as [H|H]|].
  - destruct (nonfinite_mul F32.prec F32.emax a r H) as [H1 _].
    destruct (nonfinite_add F32.prec F32.emax _
                (SFmul F32.prec F32.emax b g) H1) as [H2 _].
    now destruct (nonfinite_add F32.prec F32.emax _
                    (SFmul F32.prec F32.emax c u) H2) as [H3 _].
  - destruct (nonfinite_mul F32.prec F32.emax b g H) as [H1 _].
    destruct (nonfinite_add F32.prec F32.emax _
                (SFmul F32.prec F32.emax a r) H1) as [_ H2].
    now destruct (nonfinite_add F32.prec F32.emax _
                    (SFmul F32.prec F32.emax c u) H2) as [H3 _].
  - destruct (nonfinite_mul F32.prec F32.emax c u H) as [H1 _].
    now destruct (nonfinite_add F32.prec F32.emax _
                    (SFadd F32.prec F32.emax (SFmul F32.prec F32.emax a r)
                       (SFmul F32.prec F32.emax b g)) H1) as [_ H2].
Qed.

Lemma sum_nonfinite (a b c : float) :
  nonfinite a || nonfinite b || nonfinite c = true ->
  nonfinite (F32.add (F32.add a b) c) = true.
Proof.
  unfold F32.add. intros H.
  apply orb_true_iff in H as [H|H]; [apply orb_true_iff in H as [H|H]|].
  - destruct (nonfinite_add F32.prec F32.emax a b H) as [H1 _].
    now destruct (nonfinite_add F32.prec F32.emax _ c H1) as [H2 _].
  - destruct (nonfinite_add F32.prec F32.emax b a H) as [_ H1].
    now destruct (nonfinite_add F32.prec F32.emax _ c H1) as [H2 _].
  - now destruct (nonfinite_add F32.prec F32.emax c
                    (SFadd F32.prec F32.emax a b) H) as [_ H1].
Qed.

Lemma clamp_float_nan : clamp_float S754_nan = UB.
Proof. reflexivity. Qed.

Lemma fcast_cases (lo hi : Z) (x : spec_float) :
  fcast lo hi x = UB \/ exists z, fcast lo hi x = Done z.
Proof.
  unfold fcast. destruct (ftrunc x) as [z|]; [|now left].
  destruct ((lo <=? z) && (z <=? hi)); [right; now exists z|now left].
Qed.

(** When one of the three coefficients is NaN or infinite, each strategy
    converts a NaN to an integer type on every image with at least one
    pixel: V1 and V2 in the cast of the first grey value, V0 in the
    conversion of the coefficients.  The C standard leaves this
    conversion undefined. *)
Theorem nonfinite_weight_undefined (fuel : nat) (img : list Z)
  (width height : nat) (a b c : float) (brightness : Z) (contrast : float) :
  nonfinite a || nonfinite b || nonfinite c = true ->
  (0 < width * height)%nat ->
  brightness_contrast_V0 fuel img width height a b c brightness contrast = UB
  /\ brightness_contrast_V1 fuel img width height a b c brightness contrast
     = UB
  /\ brightness_contrast_V2 fuel img width height a b c brightness contrast
     = UB.
Proof.
  intros Hw Hwh. pose proof (sum_nonfinite a b c Hw) as Hs.
  set (sum := F32.add (F32.add a b) c) in *.
  assert (Hn : F32.div a sum = S754_nan \/ F32.div b sum = S754_nan
               \/ F32.div c sum = S754_nan).
  { apply orb_true_iff in Hw as [Hw|Hw]; [apply orb_true_iff in Hw as [Hw|Hw]|].
    - left. now apply nonfinite_div.
    - right. left. now apply nonfinite_div.
    - right. right. now apply nonfinite_div. }
  destruct (width * height)%nat as [|n] eqn:Ewh; [lia|].
  split; [|split].
  - unfold brightness_contrast_V0, convert_coeffs_to_max256. fold sum.
    assert (K : forall x, x = S754_nan ->
                  to_uint16 (F32.mul (F32.of_int 256) x) = UB)
      by (intros x ->; reflexivity).
    destruct (fcast_cases 0 65535 (F32.mul (F32.of_int 256) (F32.div a sum)))
      as [E0|(c0 & E0)]; unfold to_uint16; rewrite E0; [reflexivity|].
    destruct (fcast_cases 0 65535 (F32.mul (F32.of_int 256) (F32.div b sum)))
      as [E1|(c1 & E1)]; cbn [bind]; rewrite E1; [reflexivity|].
    destruct (fcast_cases 0 65535 (F32.mul (F32.of_int 256) (F32.div c sum)))
      as [E2|(c2 & E2)]; cbn [bind]; rewrite E2; [reflexivity|].
    exfalso. destruct Hn as [Hn|[Hn|Hn]]; apply K in Hn; unfold to_uint16 in Hn;
      congruence.
  - unfold brightness_contrast_V1. fold sum. rewrite Ewh.
    assert (B : forall k s,
              V1_body (F32.div a sum) (F32.div b sum) (F32.div c sum) img
                brightness k 0 s = UB).
    { intros k s. unfold V1_body. rewrite weighted_sum_nan by assumption.
      destruct (brightness =? 0); reflexivity. }
    destruct (isnan contrast); cbn [for_loop]; now rewrite B.
  - unfold brightness_contrast_V2. rewrite Ewh. cbn [for_loop].
    unfold V2_grey at 1. fold sum.
    assert (E : F32.div (weighted_sum a b c img 0) sum = S754_nan).
    { apply nonfinite_div; [|assumption]. now apply weighted_sum_nonfinite. }
    now rewrite E.
Qed.

Lemma nonfinite_weight_undefined_witness :
  (nonfinite S754_nan || nonfinite one || nonfinite one = true
   /\ (0 < 2 * 1)%nat)
  /\ brightness_contrast_V1 0 img_red_black 2 1 S754_nan one one 0 unset = UB.
Proof.
  assert (H : nonfinite S754_nan || nonfinite one || nonfinite one = true
              /\ (0 < 2 * 1)%nat) by (split; [reflexivity|simpl; lia]).
  split; [exact H|]. destruct H as [H1 H2].
  exact (proj1 (proj2 (nonfinite_weight_undefined 0 img_red_black 2 1
                         S754_nan one one 0 unset H1 H2))).
Defined.

(** ** Contrast 0 *)

Lemma kstd_zero_contrast (fuel : nat) (sc : bool) (var : double)
  (kstd : float) :
  compute_kstd fuel (S754_zero sc) var = Done (Some kstd) ->
  exists s, kstd = S754_zero s.
Proof.
  unfold compute_kstd. destruct (fne var fzero).
  - intros H. apply bind_Done in H as (r & _ & H).
    destruct r as [sr|sr| |sr m e]; cbn in H; try discriminate;
      apply Done_inj in H; injection H as <-; eauto.
  - intros H. apply Done_inj in H. injection H as <-. now exists false.
Qed.

Lemma F32_of_int_byte (v : Z) :
  is_byte v ->
  F32.of_int v = S754_zero false \/ exists m e, F32.of_int v = S754_finite false m e.
Proof.
  unfold is_byte. intros Hv. destruct v as [|p|p]; try lia; [now left|right].
  unfold F32.of_int. cbn [binary_normalize].
  exists (canon_m 24 p), (canon_e 24 0 p).
  apply (canon_round 24 128 eq_refl); unfold emin; lia.
Qed.

Lemma mul_zero_byte (s : bool) (v : Z) :
  is_byte v -> F32.mul (S754_zero s) (F32.of_int v) = S754_zero s.
Proof.
  intros Hv. destruct (F32_of_int_byte v Hv) as [-> | (m & e & ->)];
    cbn; now destruct s.
Qed.

(** A first pass that returns has written one byte per pixel. *)
Lemma V1_pass_result (a b c : float) (img : list Z) (brightness : Z)
  (set : bool) (n start : nat) (mean mean' : double) (acc res : list Z) :
  for_loop (V1_body a b c img brightness set) start n (mean, acc)
    = Done (mean', res) ->
  exists l, res = acc ++ l /\ Forall is_byte l /\ length l = n.
Proof.
  revert start mean acc.
  induction n as [|n IH]; intros start mean acc; cbn [for_loop].
  - intros H. apply Done_inj in H. injection H as <- <-. exists [].
    now rewrite app_nil_r.
  - intros H. apply bind_Done in H as ([m1 r1] & E1 & H).
    apply IH in H as (l & -> & Hl & Hlen).
    assert (E : exists v, r1 = acc ++ [v] /\ is_byte v).
    { revert E1. unfold V1_body, push, is_byte.
      destruct (brightness =? 0).
      - intros H. apply bind_Done in H as (v & Ev & H).
        apply fcast_range in Ev. apply Done_inj in H. injection H as _ <-.
        now exists v.
      - destruct (fgt _ _).
        + intros H. apply Done_inj in H. injection H as _ <-.
          exists 255. split; [reflexivity|lia].
        + destruct (flt _ _).
          * intros H. apply Done_inj in H. injection H as _ <-.
            exists 0. split; [reflexivity|lia].
          * intros H. apply bind_Done in H as (v & Ev & H).
            apply fcast_range in Ev. apply Done_inj in H. injection H as _ <-.
            now exists v. }
    destruct E as (v & -> & Hv). exists (v :: l).
    rewrite <- app_assoc. repeat split; [now constructor|simpl; lia].
Qed.

Lemma map_lookup_const (v : Z) (result : list Z) :
  Forall is_byte result ->
  map (fun u => nth (Z.to_nat u) (repeat v 256) 0) result
  = repeat v (length result).
Proof.
  intros H.
  assert (E : forall u, is_byte u -> nth (Z.to_nat u) (repeat v 256) 0 = v).
  { intros u Hu. unfold is_byte in Hu.
    rewrite (nth_indep _ 0 v) by (rewrite repeat_length; lia).
    apply nth_repeat. }
  generalize dependent (repeat v 256). intros t E.
  induction H as [|u l Hu Hl IH]; cbn [map length repeat]; [reflexivity|].
  now rewrite IH, E.
Qed.

Lemma pixels_of_same (cell : nat -> exec Z) (n : nat) (l : list Z) :
  (forall i, (i < n)%nat -> cell i = cell 0%nat) ->
  pixels_of cell 0 n = Done l -> exists v, l = repeat v n.
Proof.
  intros Hc H. destruct (cell 0%nat) as [v| |] eqn:E0.
  - exists v. rewrite (pixels_of_const cell v n 0) in H.
    + now apply Done_inj in H.
    + intros i Hi. apply Hc. lia.
  - destruct n; [apply Done_inj in H; subst; now exists 0|].
    cbn [pixels_of] in H. rewrite E0 in H. discriminate.
  - destruct n; [apply Done_inj in H; subst; now exists 0|].
    cbn [pixels_of] in H. rewrite E0 in H. discriminate.
Qed.

Lemma for_buf_result (f : Z -> exec Z) (P : Z -> Prop) (l r : list Z) :
  (forall u u', f u = Done u' -> P u') ->
  for_buf f l = Done r -> Forall P r /\ length r = length l.
Proof.
  intros Hf. revert r. induction l as [|u l IH]; intros r; cbn [for_buf].
  - intros H. apply Done_inj in H. subst. now split.
  - intros H. apply bind_Done in H as (u' & Eu & H).
    apply bind_Done in H as (r' & Er & H). apply Done_inj in H. subst r.
    destruct (IH r' Er) as [Hr Hl]. split; [|simpl; now f_equal].
    constructor; [now apply (Hf u)|assumption].
Qed.

Lemma clamp_float_byte (x : float) (v : Z) :
  clamp_float x = Done v -> is_byte v.
Proof.
  unfold clamp_float, is_byte.
  destruct (fgt _ _); [intros E; apply Done_inj in E; lia|].
  destruct (flt _ _); [intros E; apply Done_inj in E; lia|].
  apply fcast_range.
Qed.

(** With the contrast set to 0, a successful run of V1 or of V2 returns a
    buffer whose cells all hold the same value: [kstd] is a zero, so the
    value remapped to no longer depends on the grey value. *)
Theorem contrast_zero_flat (fuel : nat) (img : list Z) (width height : nat)
  (a b c : float) (brightness : Z) (out : list Z) :
  brightness_contrast_V1 fuel img width height a b c brightness
    (F32.of_int 0) = Done (1, out)
  \/ brightness_contrast_V2 fuel img width height a b c brightness
       (F32.of_int 0) = Done (1, out) ->
  exists v, out = repeat v (width * height).
Proof.
  change (F32.of_int 0) with (S754_zero false).
  set (wh := (width * height)%nat). intros [H|H].
  - unfold brightness_contrast_V1 in H. cbn [isnan] in H. fold wh in H.
    apply bind_Done in H as ([meansum result] & Hpass & H).
    apply V1_pass_result in Hpass as (l & El & Hb & Hlen).
    cbn [app] in El. subst l. cbv zeta in H.
    apply bind_Done in H as (k & Hk & H).
    destruct k as [kstd|]; [|discriminate].
    apply kstd_zero_contrast in Hk as (s & ->).
    destruct (isnan _ || isinf _); [discriminate|].
    apply bind_Done in H as (lookup & Hlookup & H).
    apply Done_inj in H. injection H as <-.
    unfold lookup_V1 in Hlookup. rewrite for_loop_snoc in Hlookup.
    apply bind_Done in Hlookup as (t & Ht & Hlookup).
    apply Done_inj in Hlookup. cbn [app] in Hlookup. subst t.
    apply pixels_of_same in Ht as (v & ->).
    + exists v. rewrite map_lookup_const by assumption. now rewrite Hlen.
    + intros i Hi. rewrite !mul_zero_byte; [reflexivity| |];
        unfold is_byte; lia.
  - unfold brightness_contrast_V2 in H. fold wh in H.
    apply bind_Done in H as (r1 & Hr1 & H).
    apply bind_Done in H as (result & Hr & H).
    cbn [isnan negb] in H. cbv zeta in H.
    apply bind_Done in H as (k & Hk & H).
    destruct k as [kstd|]; [|discriminate].
    apply kstd_zero_contrast in Hk as (s & ->).
    destruct (isnan _ || isinf _); [discriminate|].
    apply bind_Done in H as (res & Hres & H).
    apply Done_inj in H. injection H as <-.
    (* the buffer of the brightness stage holds [wh] bytes *)
    unfold V2_grey in Hr1. rewrite for_loop_snoc in Hr1.
    apply bind_Done in Hr1 as (grey & Hg & Hr1). apply Done_inj in Hr1.
    cbn [app] in Hr1. subst r1.
    pose proof (pixels_of_length _ _ _ _ Hg) as Hlen.
    pose proof (pixels_of_bytes _ _ _ _
                  (fun i v H => fcast_range _ _ _ _ H) Hg) as Hgb.
    assert (Hb : Forall is_byte result /\ length result = wh).
    { destruct (brightness =? 0).
      - apply Done_inj in Hr. now subst.
      - rewrite <- Hlen. apply (for_buf_result (V2_brightness brightness));
          [|assumption].
        intros u u'. apply clamp_float_byte. }
    destruct Hb as [Hb Hlen'].
    (* every cell is remapped to the same value *)
    set (m := F64.div _ _) in Hres.
    assert (Hc : forall u, is_byte u ->
                   V2_contrast (S754_zero s) m u = V2_contrast (S754_zero s) m 0).
    { intros u Hu. unfold V2_contrast.
      rewrite !mul_zero_byte; [reflexivity|unfold is_byte; lia|assumption]. }
    destruct (V2_contrast (S754_zero s) m 0) as [v| |] eqn:E0.
    + exists v. rewrite (for_buf_map _ (fun _ => v)) in Hres.
      * apply Done_inj in Hres. subst res. rewrite <- Hlen'.
        clear. induction result; simpl; now f_equal.
      * revert Hb. apply Forall_impl. intros u Hu. now apply Hc.
    + destruct result as [|u l]; [exists 0; rewrite <- Hlen'; apply Done_inj in Hres; now subst res|].
      cbn [for_buf] in Hres. inversion_clear Hb as [|? ? Hu _].
      rewrite Hc in Hres by assumption. discriminate.
    + destruct result as [|u l]; [exists 0; rewrite <- Hlen'; apply Done_inj in Hres; now subst res|].
      cbn [for_buf] in Hres. inversion_clear Hb as [|? ? Hu _].
      rewrite Hc in Hres by assumption. discriminate.
Qed.

Lemma contrast_zero_flat_witness :
  (brightness_contrast_V1 20 img_red_black 2 1 one one one 0 (F32.of_int 0)
     = Done (1, [42; 42])
   \/ brightness_contrast_V2 20 img_red_black 2 1 one one one 0 (F32.of_int 0)
      = Done (1, [42; 42]))
  /\ exists v, [42; 42] = repeat v (2 * 1).
Proof.
  assert (H : brightness_contrast_V1 20 img_red_black 2 1 one one one 0
                (F32.of_int 0) = Done (1, [42; 42])
              \/ brightness_contrast_V2 20 img_red_black 2 1 one one one 0
                   (F32.of_int 0) = Done (1, [42; 42])).
  { left. vm_compute. reflexivity. }
  split; [exact H|].
  exact (contrast_zero_flat 20 img_red_black 2 1 one one one 0 [42; 42] H).
Defined.

(** ** The first pass of V0 with the contrast set *)

Lemma for_blocks_result (img : list Z) (coeffs : Z * Z * Z) (brightness : Z)
  (n start : nat) (s1 s2 : simd_state) :
  snd s1 = snd s2 ->
  snd (for_blocks (V0_block img coeffs brightness true) start n s1)
  = snd (for_blocks (V0_block img coeffs brightness false) start n s2).
Proof.
  revert start s1 s2. induction n as [|n IH]; intros start s1 s2 E;
    cbn [for_blocks]; [assumption|].
  apply IH. destruct s1 as [[mv1 m1] r1], s2 as [[mv2 m2] r2].
  cbn [snd] in E. subst r2. unfold V0_block.
  destruct (grey_block img start coeffs brightness) as [grey1 grey2].
  destruct (start mod 128 =? 0)%nat; reflexivity.
Qed.

Lemma for_rest_result (img : list Z) (coeffs : Z * Z * Z) (brightness : Z)
  (n start : nat) (s1 s2 : pass_state) :
  snd s1 = snd s2 ->
  snd (for_pure (V0_rest img coeffs brightness true) start n s1)
  = snd (for_pure (V0_rest img coeffs brightness false) start n s2).
Proof.
  revert start s1 s2. induction n as [|n IH]; intros start s1 s2 E;
    cbn [for_pure]; [assumption|].
  apply IH. destruct s1 as [m1 r1], s2 as [m2 r2].
  cbn [snd] in E. subst r2. unfold V0_rest.
  destruct (brightness =? 0); [reflexivity|].
  destruct (255 <? _); [reflexivity|]. destruct (_ <? 0); reflexivity.
Qed.

(** The buffer V0 writes in its first pass is the same whether the
    contrast is set or not; only the accumulation of the mean differs. *)
Lemma V0_pass_result (img : list Z) (wh : nat) (coeffs : Z * Z * Z)
  (brightness : Z) :
  snd (V0_pass img wh coeffs brightness true)
  = snd (V0_pass img wh coeffs brightness false).
Proof.
  unfold V0_pass. apply for_rest_result. unfold V0_vector_pass.
  pose proof (for_blocks_result img coeffs brightness (wh / 16) 0
                (_mm_setzero_si128, fzero, []) (_mm_setzero_si128, fzero, [])
                eq_refl) as E.
  destruct (for_blocks (V0_block img coeffs brightness true) _ _ _)
    as [[mv1 m1] r1].
  destruct (for_blocks (V0_block img coeffs brightness false) _ _ _)
    as [[mv2 m2] r2].
  exact E.
Qed.

Lemma for_loop_ext {St : Type} (body body' : nat -> St -> exec St)
  (n start : nat) (s : St) :
  (forall i s, body i s = body' i s) ->
  for_loop body start n s = for_loop body' start n s.
Proof.
  intros H. revert start s. induction n as [|n IH]; intros start s;
    cbn [for_loop]; [reflexivity|].
  rewrite H. destruct (body' start s); cbn [bind]; auto.
Qed.

(** With the contrast set to 0, a successful run of V0 returns a buffer
    whose cells all hold the same value. *)
Theorem contrast_zero_flat_V0 (fuel : nat) (img : list Z)
  (width height : nat) (a b c : float) (brightness : Z) (out : list Z) :
  Forall is_byte img -> -255 <= brightness <= 255 ->
  brightness_contrast_V0 fuel img width height a b c brightness
    (F32.of_int 0) = Done (1, out) ->
  exists v, out = repeat v (width * height).
Proof.
  change (F32.of_int 0) with (S754_zero false).
  set (wh := (width * height)%nat). intros Himg Hbr H.
  unfold brightness_contrast_V0 in H. fold wh in H.
  apply bind_Done in H as (coeffs & Hc & H).
  apply convert_coeffs_exit in Hc. cbn [isnan] in H.
  pose proof (V0_pass_result img wh coeffs brightness) as Er.
  rewrite V0_pass_unset in Er by assumption.
  destruct (V0_pass img wh coeffs brightness true) as [meansum result].
  cbn [snd] in Er. cbv zeta in H.
  apply bind_Done in H as (k & Hk & H).
  destruct k as [kstd|]; [|discriminate].
  apply kstd_zero_contrast in Hk as (s & ->).
  destruct (isnan _ || isinf _); [discriminate|].
  apply bind_Done in H as (lookup & Hlookup & H).
  apply Done_inj in H. injection H as <-.
  set (summand := compute_summand _ _) in Hlookup.
  unfold lookup_V0 in Hlookup.
  rewrite (for_loop_ext _
             (fun i lookup =>
                v <- (res <- to_int16
                               (F32.add (F32.mul (S754_zero s)
                                           (F32.of_int (Z.of_nat i))) summand) ;;
                      Done (clamp_int res mod 256)) ;;
                Done (lookup ++ [v]))) in Hlookup.
  2:{ intros i t. now destruct (to_int16 _). }
  rewrite for_loop_snoc in Hlookup.
  apply bind_Done in Hlookup as (t & Ht & Hlookup).
  apply Done_inj in Hlookup. cbn [app] in Hlookup. subst t.
  apply pixels_of_same in Ht as (v & ->).
  - exists v. rewrite map_lookup_const.
    + now rewrite Er, length_map, length_seq.
    + rewrite Er. apply Forall_forall. intros x Hx.
      apply in_map_iff in Hx as (i & <- & _).
      unfold fixed_pixel, clamp_int, is_byte.
      destruct (255 <? _) eqn:E1; [lia|].
      destruct (_ <? 0) eqn:E2; [lia|].
      apply Z.ltb_ge in E1, E2. lia.
  - intros i Hi. rewrite !mul_zero_byte; [reflexivity| |];
      unfold is_byte; lia.
Qed.

Lemma contrast_zero_flat_V0_witness :
  (Forall is_byte img_red_black /\ -255 <= 0 <= 255
   /\ brightness_contrast_V0 20 img_red_black 2 1 one one one 0 (F32.of_int 0)
      = Done (1, [42; 42]))
  /\ exists v, [42; 42] = repeat v (2 * 1).
Proof.
  assert (H : Forall is_byte img_red_black /\ -255 <= 0 <= 255
              /\ brightness_contrast_V0 20 img_red_black 2 1 one one one 0
                   (F32.of_int 0) = Done (1, [42; 42])).
  { split; [unfold is_byte; repeat constructor; lia|]. split; [lia|].
    vm_compute. reflexivity. }
  split; [exact H|]. destruct H as (H1 & H2 & H3).
  exact (contrast_zero_flat_V0 20 img_red_black 2 1 one one one 0 [42; 42]
           H1 H2 H3).
Defined.

(** ** [stringToLong] and [stringToInt] *)

Lemma digits_value_rest (acc : Z) (rest : list Z) :
  match rest with c :: _ => Util.isdigit c = false | [] => True end ->
  Util.digits_value rest acc = (acc, rest).
Proof.
  destruct rest as [|c r]; [reflexivity|]. intros Hr.
  cbn [Util.digits_value]. now rewrite Hr.
Qed.

Lemma digits_value_acc (d : Decimal.uint) (a : positive) (rest : list Z) :
  match rest with c :: _ => Util.isdigit c = false | [] => True end ->
  Util.digits_value (uint_chars d ++ rest) (Zpos a)
  = (Zpos (Pos.of_uint_acc d a), rest).
Proof.
  intros Hr. revert a.
  induction d as [|d IH|d IH|d IH|d IH|d IH|d IH|d IH|d IH|d IH|d IH];
    intros a; cbn [uint_chars Pos.of_uint_acc];
    [now apply digits_value_rest|..];
    rewrite <- app_comm_cons; cbn [Util.digits_value];
    change (Util.isdigit _) with true; cbv iota; rewrite <- IH;
    f_equal; lia.
Qed.

Lemma digits_value_uint (d : Decimal.uint) (rest : list Z) :
  match rest with c :: _ => Util.isdigit c = false | [] => True end ->
  Util.digits_value (uint_chars d ++ rest) 0 = (Z.of_N (Pos.of_uint d), rest).
Proof.
  intros Hr.
  induction d as [|d IH|d IH|d IH|d IH|d IH|d IH|d IH|d IH|d IH|d IH];
    cbn [uint_chars Pos.of_uint];
    [now apply digits_value_rest|..];
    rewrite <- app_comm_cons; cbn [Util.digits_value];
    change (Util.isdigit _) with true; cbv iota;
    [exact IH|..]; cbn [Z.of_N];
    rewrite <- (digits_value_acc d _ rest Hr); f_equal; lia.
Qed.

Lemma to_uint_head (p : positive) :
  exists c r, uint_chars (Pos.to_uint p) = c :: r
              /\ Util.isdigit c = true /\ Util.isspace c = false
              /\ (c =? 45) = false /\ (c =? 43) = false.
Proof.
  pose proof (DecimalPos.Unsigned.of_to p) as E.
  destruct (Pos.to_uint p) as [|d|d|d|d|d|d|d|d|d|d]; [discriminate|..];
    cbn [uint_chars]; eexists; eexists; (split; [reflexivity|]);
    repeat split; reflexivity.
Qed.

Lemma isdigit_facts (c : Z) :
  Util.isdigit c = true ->
  Util.isspace c = false /\ (c =? 45) = false /\ (c =? 43) = false.
Proof.
  unfold Util.isdigit, Util.isspace. intros H.
  apply andb_true_iff in H as [H1 H2]. apply Z.leb_le in H1, H2.
  repeat split.
  - apply orb_false_iff. split; [apply Z.eqb_neq; lia|].
    apply andb_false_iff. right. apply Z.leb_gt. lia.
  - apply Z.eqb_neq. lia.
  - apply Z.eqb_neq. lia.
Qed.

Lemma strtol_digit (c : Z) (r : list Z) :
  Util.isdigit c = true ->
  Util.strtol (c :: r)
  = clamp_long (fst (Util.digits_value (c :: r) 0))
      (snd (Util.digits_value (c :: r) 0)).
Proof.
  intros Hd. destruct (isdigit_facts c Hd) as (Hs & H45 & H43).
  unfold Util.strtol. cbn [Util.skip_space]. rewrite Hs, H45, H43, Hd.
  now destruct (Util.digits_value (c :: r) 0).
Qed.

Lemma strtol_minus (c : Z) (r : list Z) :
  Util.isdigit c = true ->
  Util.strtol (45 :: c :: r)
  = clamp_long (- fst (Util.digits_value (c :: r) 0))
      (snd (Util.digits_value (c :: r) 0)).
Proof.
  intros Hd. unfold Util.strtol. cbn [Util.skip_space].
  change (Util.isspace 45) with false. cbv iota.
  change (45 =? 45) with true. cbv iota. rewrite Hd.
  now destruct (Util.digits_value (c :: r) 0).
Qed.

Lemma clamp_long_id (v : Z) (rest : list Z) :
  Util.LONG_MIN <= v <= Util.LONG_MAX ->
  clamp_long v rest = Some (v, rest, false).
Proof.
  intros H. unfold clamp_long.
  destruct (Z.ltb_spec v Util.LONG_MIN); [lia|].
  destruct (Z.ltb_spec Util.LONG_MAX v); [lia|]. reflexivity.
Qed.

Lemma strtol_decimal (z : Z) (rest : list Z) :
  match rest with c :: _ => Util.isdigit c = false | [] => True end ->
  Util.strtol (decimal_chars z ++ rest) = clamp_long z rest.
Proof.
  intros Hr. destruct z as [|p|p]; cbn [decimal_chars].
  - change ([48] ++ rest) with (48 :: rest).
    rewrite strtol_digit by reflexivity.
    change (48 :: rest) with (uint_chars (Decimal.D0 Decimal.Nil) ++ rest).
    now rewrite digits_value_uint by assumption.
  - destruct (to_uint_head p) as (c & r & E & Hd & _).
    pose proof (digits_value_uint (Pos.to_uint p) rest Hr) as V.
    rewrite DecimalPos.Unsigned.of_to in V.
    rewrite E in V |- *. rewrite <- app_comm_cons in V |- *.
    now rewrite strtol_digit, V by assumption.
  - destruct (to_uint_head p) as (c & r & E & Hd & _).
    pose proof (digits_value_uint (Pos.to_uint p) rest Hr) as V.
    rewrite DecimalPos.Unsigned.of_to in V.
    rewrite E in V |- *. rewrite <- app_comm_cons in V.
    rewrite <- !app_comm_cons.
    now rewrite strtol_minus, V by assumption.
Qed.

Lemma strtol_clamp_like (str : list Z) :
  exists neg s, Util.strtol str = clamp_like neg s.
Proof.
  unfold Util.strtol. destruct (Util.skip_space str) as [|c r].
  - exists false, []. reflexivity.
  - destruct (c =? 45); [|destruct (c =? 43)].
    + exists true, r. reflexivity.
    + exists false, r. reflexivity.
    + exists false, (c :: r). reflexivity.
Qed.

Lemma clamp_like_range (neg : bool) (s : list Z) (v : Z) (rest : list Z) :
  clamp_like neg s = Some (v, rest, false) ->
  Util.LONG_MIN <= v <= Util.LONG_MAX.
Proof.
  unfold clamp_like. destruct s as [|d s']; [discriminate|].
  destruct (Util.isdigit d); [|discriminate].
  destruct (Util.digits_value (d :: s') 0) as [x r]. cbv zeta.
  destruct (Z.ltb_spec (if neg then - x else x) Util.LONG_MIN); [discriminate|].
  destruct (Z.ltb_spec Util.LONG_MAX (if neg then - x else x)); [discriminate|].
  intros E. injection E as E _. lia.
Qed.

Lemma stringToLong_range (str : option (list Z)) (z : Z) :
  Util.stringToLong str = Some z -> Util.LONG_MIN <= z <= Util.LONG_MAX.
Proof.
  unfold Util.stringToLong. destruct str as [str|]; [|discriminate].
  destruct (strtol_clamp_like str) as (neg & s & E). rewrite E.
  destruct (clamp_like neg s) as [[[v rest] erange]|] eqn:C; [|discriminate].
  destruct rest; [|discriminate]. destruct erange; [discriminate|].
  intros Ez. injection Ez as Ez. subst v. exact (clamp_like_range _ _ _ _ C).
Qed.

(** [stringToLong] reads the decimal numeral of every [long] back to that
    [long]; it rejects the numeral of a number that is no [long], and a
    numeral followed by a character that is no digit. *)
Theorem stringToLong_decimal (z : Z) (rest : list Z) :
  match rest with c :: _ => Util.isdigit c = false | [] => True end ->
  Util.stringToLong (Some (decimal_chars z ++ rest))
  = match rest with
    | [] => if (Util.LONG_MIN <=? z) && (z <=? Util.LONG_MAX)
            then Some z else None
    | _ :: _ => None
    end.
Proof.
  intros Hr. unfold Util.stringToLong. rewrite strtol_decimal by assumption.
  unfold clamp_long.
  destruct (Z.ltb_spec z Util.LONG_MIN), (Z.ltb_spec Util.LONG_MAX z),
    (Z.leb_spec Util.LONG_MIN z), (Z.leb_spec z Util.LONG_MAX);
    try lia; destruct rest; reflexivity.
Qed.

Lemma stringToLong_decimal_witness :
  Util.stringToLong (Some (decimal_chars 640 ++ [120])) = None.
Proof.
  exact (stringToLong_decimal 640 [120] (eq_refl : Util.isdigit 120 = false)).
Defined.

Lemma stringToLong_numeral (z : Z) :
  Util.LONG_MIN <= z <= Util.LONG_MAX ->
  Util.stringToLong (Some (decimal_chars z)) = Some z.
Proof.
  intros Hz. unfold Util.stringToLong.
  pose proof (strtol_decimal z [] I) as E. rewrite app_nil_r in E.
  rewrite E. now rewrite clamp_long_id.
Qed.

(** [stringToInt] reads the decimal numeral of every [int] back to that
    [int], and rejects the numeral of every other number. *)
Theorem stringToInt_decimal (z : Z) :
  Util.stringToInt (Some (decimal_chars z))
  = if (Util.INT_MIN <=? z) && (z <=? Util.INT_MAX) then Some z else None.
Proof.
  unfold Util.stringToInt.
  pose proof (stringToLong_decimal z [] I) as E. rewrite app_nil_r in E.
  rewrite E. clear E.
  destruct (Z.leb_spec Util.LONG_MIN z), (Z.leb_spec z Util.LONG_MAX),
    (Z.leb_spec Util.INT_MIN z), (Z.leb_spec z Util.INT_MAX);
    cbn [andb]; try reflexivity;
    try (unfold Util.LONG_MIN, Util.LONG_MAX, Util.INT_MIN, Util.INT_MAX in *; lia);
    destruct (Z.ltb_spec z Util.INT_MIN), (Z.ltb_spec Util.INT_MAX z);
    try reflexivity; lia.
Qed.




(** ** [readPPM] and [writePGM] *)

Lemma uint_chars_length (d : Decimal.uint) :
  length (uint_chars d) = Decimal.nb_digits d.
Proof. induction d; simpl; congruence. Qed.

Lemma of_uint_acc_lower (d : Decimal.uint) (a : positive) :
  Zpos a * 10 ^ Z.of_nat (Decimal.nb_digits d) <= Zpos (Pos.of_uint_acc d a).
Proof.
  revert a. induction d as [|d IH|d IH|d IH|d IH|d IH|d IH|d IH|d IH|d IH|d IH];
    intros a; cbn [Decimal.nb_digits Pos.of_uint_acc];
    [simpl; lia|..];
    rewrite Nat2Z.inj_succ, Z.pow_succ_r by lia;
    (eapply Z.le_trans; [|apply IH]);
    assert (0 < 10 ^ Z.of_nat (Decimal.nb_digits d)) by (apply Z.pow_pos_nonneg; lia);
    nia.
Qed.

Lemma to_uint_lower (p : positive) :
  10 ^ (Z.of_nat (Decimal.nb_digits (Pos.to_uint p)) - 1) <= Zpos p.
Proof.
  pose proof (DecimalPos.Unsigned.of_to p) as E.
  pose proof (DecimalPos.Unsigned.to_of (Pos.to_uint p)) as N. rewrite E in N.
  cbn [N.to_uint Pos.to_uint] in N. unfold N.to_uint in N.
  assert (Hn : Decimal.nzhead (Pos.to_uint p) = Pos.to_uint p).
  { pose proof (DecimalPos.Unsigned.to_uint_nonnil p) as Hnil.
    unfold Decimal.unorm in N.
    destruct (Decimal.nzhead (Pos.to_uint p)) eqn:Hz; try exact (eq_sym N).
    exfalso. pose proof (DecimalPos.Unsigned.to_uint_nonzero p) as Hnz.
    now rewrite <- N in Hnz. }
  destruct (Pos.to_uint p) as [|d|d|d|d|d|d|d|d|d|d] eqn:Ed;
    cbn [Decimal.nb_digits Pos.of_uint] in *;
    try (injection E as E; rewrite <- E;
         rewrite Nat2Z.inj_succ;
         replace (Z.succ (Z.of_nat (Decimal.nb_digits d)) - 1)
           with (Z.of_nat (Decimal.nb_digits d)) by lia;
         eapply Z.le_trans; [|apply of_uint_acc_lower]; lia).
  - discriminate.
  - exfalso. cbn [Decimal.nzhead] in Hn.
    pose proof (DecimalFacts.nb_digits_nzhead d) as L. rewrite Hn in L.
    cbn [Decimal.nb_digits] in L. lia.
Qed.

Lemma decimal_chars_length (z : Z) :
  0 <= z < 2 ^ 64 -> (length (decimal_chars z) <= 20)%nat.
Proof.
  intros Hz. destruct z as [|p|p]; try lia; [simpl; lia|].
  cbn [decimal_chars]. rewrite uint_chars_length.
  pose proof (to_uint_lower p) as L.
  set (n := Decimal.nb_digits (Pos.to_uint p)) in *.
  destruct (Nat.leb_spec n 20) as [|G]; [assumption|exfalso].
  assert (10 ^ 20 <= 10 ^ (Z.of_nat n - 1)) by (apply Z.pow_le_mono_r; lia).
  assert (2 ^ 64 < 10 ^ 20) by reflexivity.
  lia.
Qed.

Lemma uint_chars_token (d : Decimal.uint) :
  Forall (fun c => token_char c = true /\ c <> 0) (uint_chars d).
Proof.
  induction d; cbn [uint_chars]; constructor; try assumption;
    (split; [reflexivity|discriminate]).
Qed.

Lemma decimal_chars_token (z : Z) :
  0 <= z -> Forall (fun c => token_char c = true /\ c <> 0) (decimal_chars z).
Proof.
  intros Hz. destruct z as [|p|p]; try lia; cbn [decimal_chars].
  - constructor; [split; [reflexivity|discriminate]|constructor].
  - apply uint_chars_token.
Qed.

Lemma token_char_facts (c : Z) :
  token_char c = true -> Main.is_blank c = false /\ (c =? 35) = false.
Proof.
  unfold token_char. intros H. apply andb_true_iff in H as [H1 H2].
  apply negb_true_iff in H1, H2. now split.
Qed.

Lemma update_app {A : Type} (l1 l2 : list A) (x y : A) :
  Main.update (length l1) x (l1 ++ y :: l2) = l1 ++ x :: l2.
Proof. induction l1 as [|a l1 IH]; simpl; [reflexivity|now rewrite IH]. Qed.

Lemma store_app (pre : list (option Z)) (tl : list (option Z)) (y : option Z)
  (c : Z) :
  (length pre < 64)%nat ->
  Main.store (pre ++ y :: tl) (Z.of_nat (length pre)) c
  = Done (pre ++ Some c :: tl).
Proof.
  intros H. unfold Main.store, Main.buflen.
  destruct (Z.leb_spec 0 (Z.of_nat (length pre))); [|lia].
  destruct (Z.ltb_spec (Z.of_nat (length pre)) 64); [|lia].
  cbn [andb]. now rewrite Nat2Z.id, update_app.
Qed.

(** One character of a token: it is stored at [i]. *)
Lemma header_char (fuel : nat) (c : Z) (input : list Z) (i numWP : Z)
  (token_switch : bool) (buffer : Main.buffer_t) (width height : Z) :
  token_char c = true ->
  i < 63 \/ 3 <= numWP ->
  Main.header_loop (S fuel) (c :: input) i numWP token_switch buffer
    width height
  = (buffer' <- Main.store buffer i c ;;
     Main.header_loop fuel input (i + 1) numWP false buffer' width height).
Proof.
  intros Hc Hcond. destruct (token_char_facts c Hc) as [Hb H35].
  cbn [Main.header_loop].
  assert (Cond : (i <? Main.buflen - 1) || (3 <=? numWP) = true).
  { apply orb_true_iff. destruct Hcond as [Hcond|Hcond].
    - left. apply Z.ltb_lt. unfold Main.buflen. lia.
    - right. now apply Z.leb_le. }
  rewrite Cond, Hb, H35. rewrite !andb_false_r. reflexivity.
Qed.

(** The characters of a token are stored one after the other. *)
Lemma header_token (tok : list Z) (c : Z) (pre : list Z) (tl : Main.buffer_t)
  (fuel : nat) (input : list Z) (numWP : Z) (token_switch : bool)
  (width height : Z) :
  Forall (fun c => token_char c = true) (c :: tok) ->
  (length pre + S (length tok) <= 63)%nat \/ 3 <= numWP ->
  (length pre + S (length tok) <= 64)%nat ->
  (S (length tok) <= length tl)%nat ->
  Main.header_loop (S (length tok) + fuel) ((c :: tok) ++ input)
    (Z.of_nat (length pre)) numWP token_switch (map Some pre ++ tl)
    width height
  = Main.header_loop fuel input (Z.of_nat (length pre + S (length tok)))
      numWP false (map Some (pre ++ c :: tok) ++ skipn (S (length tok)) tl)
      width height.
Proof.
  revert c pre tl token_switch.
  induction tok as [|d tok IH]; intros c pre tl token_switch Htok Hcond Hlen Htl;
    (destruct tl as [|y tl]; [simpl in Htl; lia|]);
    change ((c :: ?t) ++ input) with (c :: (t ++ input));
    change (S ?n + fuel)%nat with (S (n + fuel));
    rewrite header_char
      by first [now inversion Htok
               |destruct Hcond; [left; cbn [length] in *; lia|now right]];
    rewrite <- (length_map Some pre) at 1;
    rewrite store_app by (rewrite length_map; cbn [length] in *; lia);
    cbn [bind].
  - cbn [length Nat.add app skipn]. rewrite map_app. cbn [map].
    rewrite <- app_assoc. cbn [app]. f_equal. lia.
  - replace (Z.of_nat (length pre) + 1) with (Z.of_nat (length (pre ++ [c])))
      by (rewrite length_app; simpl; lia).
    replace (map Some pre ++ Some c :: tl) with (map Some (pre ++ [c]) ++ tl)
      by (rewrite map_app, <- app_assoc; reflexivity).
    cbn [length] in *. rewrite IH.
    + rewrite <- app_assoc. cbn [app skipn]. f_equal.
      rewrite length_app. simpl. lia.
    + now inversion Htok.
    + rewrite length_app. simpl. destruct Hcond; [left; lia|now right].
    + rewrite length_app. simpl. lia.
    + simpl in Htl. lia.
Qed.

(** The string in the buffer after a token and its terminator. *)
Lemma c_string_token (tok : list Z) (tl : Main.buffer_t) :
  Forall (fun c => c <> 0) tok ->
  Main.c_string (map Some (tok ++ [0]) ++ tl) = Done tok.
Proof.
  induction 1 as [|c tok Hc Htok IH]; [reflexivity|].
  change ((c :: tok) ++ [0]) with (c :: (tok ++ [0])).
  cbn [map]. change ((?x :: ?l) ++ tl) with (x :: (l ++ tl)).
  cbn [Main.c_string]. apply Z.eqb_neq in Hc. rewrite Hc.
  now rewrite IH.
Qed.

(** The blank that ends a token. *)
Lemma header_end (fuel : nat) (c : Z) (input : list Z) (tok : list Z)
  (y : option Z) (tl : Main.buffer_t) (numWP width height : Z) :
  Main.is_blank c = true ->
  (length tok < 63)%nat \/ 3 <= numWP ->
  (length tok < 64)%nat ->
  Main.header_loop (S fuel) (c :: input) (Z.of_nat (length tok)) numWP false
    (map Some tok ++ y :: tl) width height
  = (r <- Main.end_token numWP (map Some (tok ++ [0]) ++ tl) width height ;;
     match r with
     | Main.Token_failure => Done Main.Header_failure
     | Main.Break => Done (Main.Header width height input)
     | Main.Next_token width height =>
         Main.header_loop fuel input 0 (numWP + 1) true
           (map Some (tok ++ [0]) ++ tl) width height
     end).
Proof.
  intros Hb Hcond Hlen. cbn [Main.header_loop].
  assert (Cond : (Z.of_nat (length tok) <? Main.buflen - 1)
                 || (3 <=? numWP) = true).
  { apply orb_true_iff. destruct Hcond as [Hcond|Hcond].
    - left. apply Z.ltb_lt. unfold Main.buflen. lia.
    - right. now apply Z.leb_le. }
  assert (H35 : (c =? 35) = false).
  { unfold Main.is_blank in Hb. apply Z.eqb_neq. intros ->. discriminate. }
  rewrite Cond, Hb, H35. cbn [andb].
  rewrite <- (length_map Some tok) at 1.
  rewrite store_app by (rewrite length_map; lia). cbn [bind].
  replace (map Some tok ++ Some 0 :: tl) with (map Some (tok ++ [0]) ++ tl)
    by (rewrite map_app, <- app_assoc; reflexivity).
  reflexivity.
Qed.

Lemma skipn_head {A : Type} (n : nat) (l : list A) :
  (n < length l)%nat -> exists y, skipn n l = y :: skipn (S n) l.
Proof.
  revert l. induction n as [|n IH]; intros [|x l] H; simpl in H; try lia.
  - now exists x.
  - destruct (IH l) as [y E]; [lia|]. exists y. exact E.
Qed.

(** A token and the blank behind it, from the first cell of the buffer
    on. *)
Lemma header_word (t : list Z) (b : Z) (fuel : nat) (input : list Z)
  (numWP : Z) (token_switch : bool) (buffer : Main.buffer_t)
  (width height : Z) :
  t <> [] -> Forall (fun c => token_char c = true) t ->
  Main.is_blank b = true ->
  length buffer = 64%nat ->
  (length t < 63)%nat \/ 3 <= numWP -> (length t < 64)%nat ->
  let buffer' := map Some (t ++ [0]) ++ skipn (S (length t)) buffer in
  length buffer' = 64%nat
  /\ Main.header_loop (length t + S fuel) (t ++ b :: input) 0 numWP
       token_switch buffer width height
     = (r <- Main.end_token numWP buffer' width height ;;
        match r with
        | Main.Token_failure => Done Main.Header_failure
        | Main.Break => Done (Main.Header width height input)
        | Main.Next_token width height =>
            Main.header_loop fuel input 0 (numWP + 1) true buffer'
              width height
        end).
Proof.
  intros Hne Ht Hb Hbuf Hcond Hlen buffer'. split.
  - unfold buffer'. rewrite length_app, length_map, length_app, length_skipn.
    simpl. lia.
  - destruct t as [|c tok]; [congruence|]. cbn [length] in *.
    pose proof (header_token tok c [] buffer (S fuel) (b :: input) numWP
                  token_switch width height Ht) as T.
    change (map Some [] ++ buffer) with buffer in T.
    change (Z.of_nat (length [])) with 0 in T.
    change ([] ++ c :: tok) with (c :: tok) in T.
    change (length [] + S (length tok))%nat with (S (length tok)) in T.
    rewrite T by first [lia | destruct Hcond; [left; lia|now right]].
    destruct (skipn_head (S (length tok)) buffer) as [y E]; [lia|].
    rewrite E.
    change (c :: tok) with ([] ++ c :: tok) at 1.
    cbn [app].
    rewrite (header_end fuel b input (c :: tok) y _ numWP width height Hb)
      by (cbn [length]; first [lia | destruct Hcond; [left; lia|now right]]).
    reflexivity.
Qed.

Lemma decimal_chars_nonempty (z : Z) : decimal_chars z <> [].
Proof.
  destruct z as [|p|p]; cbn [decimal_chars]; try discriminate.
  destruct (to_uint_head p) as (c & r & E & _). rewrite E. discriminate.
Qed.

Lemma Forall_fst {A : Type} (P Q : A -> Prop) (l : list A) :
  Forall (fun x => P x /\ Q x) l -> Forall P l /\ Forall Q l.
Proof.
  induction 1 as [|x l [Hp Hq] _ [IH1 IH2]]; split; constructor; assumption.
Qed.

Lemma end_token_format (junk : list Z) (tl : Main.buffer_t) (width height : Z) :
  Main.end_token 0 (map Some ((80 :: 54 :: junk) ++ [0]) ++ tl) width height
  = Done (Main.Next_token width height).
Proof. reflexivity. Qed.

Lemma end_token_width (z : Z) (tl : Main.buffer_t) (width height : Z) :
  0 < z <= Util.LONG_MAX ->
  Main.end_token 1 (map Some (decimal_chars z ++ [0]) ++ tl) width height
  = Done (Main.Next_token z height).
Proof.
  intros Hz. unfold Main.end_token. change (1 =? 0) with false.
  change (1 =? 1) with true. cbv iota.
  destruct (Forall_fst _ _ _ (decimal_chars_token z ltac:(lia))) as [_ H0].
  rewrite c_string_token by assumption. cbn [bind].
  rewrite stringToLong_numeral by (unfold Util.LONG_MIN, Util.LONG_MAX in *; lia).
  destruct (Z.leb_spec z 0); [lia|reflexivity].
Qed.

Lemma end_token_height (z : Z) (tl : Main.buffer_t) (width height : Z) :
  0 < z <= Util.LONG_MAX ->
  Main.end_token 2 (map Some (decimal_chars z ++ [0]) ++ tl) width height
  = Done (Main.Next_token width z).
Proof.
  intros Hz. unfold Main.end_token. change (2 =? 0) with false.
  change (2 =? 1) with false. change (2 =? 2) with true. cbv iota.
  destruct (Forall_fst _ _ _ (decimal_chars_token z ltac:(lia))) as [_ H0].
  rewrite c_string_token by assumption. cbn [bind].
  rewrite stringToLong_numeral by (unfold Util.LONG_MIN, Util.LONG_MAX in *; lia).
  destruct (Z.leb_spec z 0); [lia|reflexivity].
Qed.

Lemma end_token_maxval (z : Z) (tl : Main.buffer_t) (width height : Z) :
  0 < z < 256 ->
  Main.end_token 3 (map Some (decimal_chars z ++ [0]) ++ tl) width height
  = Done Main.Break.
Proof.
  intros Hz. unfold Main.end_token. change (3 =? 0) with false.
  change (3 =? 1) with false. change (3 =? 2) with false.
  change (3 =? 3) with true. cbv iota.
  destruct (Forall_fst _ _ _ (decimal_chars_token z ltac:(lia))) as [_ H0].
  rewrite c_string_token by assumption. cbn [bind].
  rewrite stringToLong_numeral by (unfold Util.LONG_MIN, Util.LONG_MAX in *; lia).
  destruct (Z.leb_spec 256 z); [lia|]. destruct (Z.leb_spec z 0); [lia|].
  reflexivity.
Qed.

Lemma decimal_word (z : Z) :
  0 < z <= Util.LONG_MAX ->
  decimal_chars z <> []
  /\ Forall (fun c => token_char c = true) (decimal_chars z)
  /\ (length (decimal_chars z) < 63)%nat.
Proof.
  intros Hz. split; [apply decimal_chars_nonempty|]. split.
  - apply (Forall_fst _ _ _ (decimal_chars_token z ltac:(lia))).
  - pose proof (decimal_chars_length z) as L.
    unfold Util.LONG_MAX in Hz. lia.
Qed.

(** The format token. *)
Lemma header_format (junk : list Z) (fuel : nat) (input : list Z) :
  Forall (fun c => token_char c = true) junk -> (length junk <= 60)%nat ->
  exists buffer, length buffer = 64%nat /\
    Main.header_loop (length (80 :: 54 :: junk) + S fuel)
      ((80 :: 54 :: junk) ++ 10 :: input) 0 0 false (repeat None 64) 0 0
    = Main.header_loop fuel input 0 1 true buffer 0 0.
Proof.
  intros Hjunk Hlen.
  destruct (header_word (80 :: 54 :: junk) 10 fuel input
              0 false (repeat None 64) 0 0) as [L0 E0];
    [discriminate
    |constructor; [reflexivity|]; constructor; [reflexivity|assumption]
    |reflexivity|reflexivity|left; cbn [length]; lia|cbn [length]; lia|].
  rewrite E0, end_token_format. cbn [bind].
  eexists. split; [exact L0|reflexivity].
Qed.

(** The tokens of the width and the height. *)
Lemma header_dims (w h : Z) (fuel : nat) (input : list Z)
  (buffer : Main.buffer_t) (width height : Z) :
  0 < w <= Util.LONG_MAX -> 0 < h <= Util.LONG_MAX ->
  length buffer = 64%nat ->
  exists buffer', length buffer' = 64%nat /\
    Main.header_loop
      (length (decimal_chars w) + S (length (decimal_chars h) + S fuel))
      (decimal_chars w ++ 32 :: decimal_chars h ++ 10 :: input)
      0 1 true buffer width height
    = Main.header_loop fuel input 0 3 true buffer' w h.
Proof.
  intros Hw Hh Lb.
  destruct (decimal_word w Hw) as (Nw & Tw & Lw).
  destruct (decimal_word h Hh) as (Nh & Th & Lh).
  destruct (header_word (decimal_chars w) 32
              (length (decimal_chars h) + S fuel)
              (decimal_chars h ++ 10 :: input)
              1 true buffer width height) as [L1 E1];
    [assumption|assumption|reflexivity|assumption|left; lia|lia|].
  rewrite E1, end_token_width by assumption. cbn [bind]. clear E1.
  set (b1 := map Some (decimal_chars w ++ [0]) ++ _) in *.
  destruct (header_word (decimal_chars h) 10 fuel input
              (1 + 1) true b1 w height) as [L2 E2];
    [assumption|assumption|reflexivity|assumption|left; lia|lia|].
  rewrite E2, end_token_height by assumption. cbn [bind]. clear E2.
  eexists. split; [exact L2|reflexivity].
Qed.

(** The three tokens before the maximum value: format, width, height. *)
Lemma header_prefix (junk : list Z) (w h : Z) (fuel : nat) (input : list Z) :
  Forall (fun c => token_char c = true) junk -> (length junk <= 60)%nat ->
  0 < w <= Util.LONG_MAX -> 0 < h <= Util.LONG_MAX ->
  exists buffer, length buffer = 64%nat /\
    Main.header_loop
      (length (80 :: 54 :: junk)
       + S (length (decimal_chars w) + S (length (decimal_chars h) + S fuel)))
      ((80 :: 54 :: junk) ++ 10 :: decimal_chars w ++ 32 :: decimal_chars h
         ++ 10 :: input)
      0 0 false (repeat None 64) 0 0
    = Main.header_loop fuel input 0 3 true buffer w h.
Proof.
  intros Hjunk Hlen Hw Hh.
  destruct (header_format junk
              (length (decimal_chars w) + S (length (decimal_chars h) + S fuel))
              (decimal_chars w ++ 32 :: decimal_chars h ++ 10 :: input)
              Hjunk Hlen) as (b0 & L0 & E0).
  rewrite E0.
  exact (header_dims w h fuel input b0 0 0 Hw Hh L0).
Qed.

(** [readPPM] reads a file of the form "P6", width, height and maximum
    value as decimal numerals, each followed by one blank, then the
    [3 * height * width] bytes of the pixels: it returns the width, the
    height and these bytes.  The format token may go on behind "P6", the
    maximum value is any of 1 to 255, and bytes behind the pixels are
    left unread. *)
Theorem readPPM_canonical (junk : list Z) (w h m : Z) (data extra : list Z) :
  Forall (fun c => token_char c = true) junk -> (length junk <= 60)%nat ->
  0 < w <= Util.LONG_MAX -> 0 < h <= Util.LONG_MAX -> 0 < m < 256 ->
  3 * h * w <= Main.SIZE_MAX ->
  Z.of_nat (length data) = 3 * h * w ->
  Main.readPPM
    ((80 :: 54 :: junk) ++ 10 :: decimal_chars w ++ 32 :: decimal_chars h
       ++ 10 :: decimal_chars m ++ 10 :: data ++ extra)
  = Done (Main.Image w h data).
Proof.
  intros Hjunk Hlen Hw Hh Hm Hsize Hdata. unfold Main.readPPM.
  set (rest := data ++ extra).
  replace (S (length _))
    with (length (80 :: 54 :: junk)%Z
          + S (length (decimal_chars w)
               + S (length (decimal_chars h)
                    + S (length (decimal_chars m) + S (S (length rest))))))%nat
    by (repeat first [rewrite length_app | progress cbn [length]]; lia).
  destruct (header_prefix junk w h
              (length (decimal_chars m) + S (S (length rest)))
              (decimal_chars m ++ 10 :: rest) Hjunk Hlen Hw Hh)
    as (buffer & Lb & E).
  rewrite E. clear E.
  assert (Hm' : 0 < m <= Util.LONG_MAX) by (unfold Util.LONG_MAX; lia).
  destruct (decimal_word m Hm') as (Nm & Tm & Lm).
  destruct (header_word (decimal_chars m) 10 (S (length rest)) rest 3 true
              buffer w h) as [_ E3];
    try assumption; try reflexivity; try lia; try (left; lia).
  rewrite E3, end_token_maxval by assumption. cbn [bind]. clear E3.
  destruct (Z.ltb_spec Main.SIZE_MAX (3 * h)); [nia|].
  destruct (Z.ltb_spec Main.SIZE_MAX (3 * h * w)); [lia|].
  destruct (Z.ltb_spec (Z.of_nat (length rest)) (3 * h * w)) as [G|_].
  { unfold rest in G. rewrite length_app in G. lia. }
  rewrite <- Hdata, Nat2Z.id. unfold rest.
  rewrite firstn_app, Nat.sub_diag, firstn_all. cbn [firstn].
  now rewrite app_nil_r.
Qed.

Lemma readPPM_canonical_witness :
  Main.readPPM
    ((80 :: 54 :: []) ++ 10 :: decimal_chars 2 ++ 32 :: decimal_chars 1
       ++ 10 :: decimal_chars 255 ++ 10 :: [1; 2; 3; 4; 5; 6] ++ [7])
  = Done (Main.Image 2 1 [1; 2; 3; 4; 5; 6]).
Proof.
  apply (readPPM_canonical [] 2 1 255 [1; 2; 3; 4; 5; 6] [7]).
  - constructor.
  - simpl; lia.
  - unfold Util.LONG_MAX; lia.
  - unfold Util.LONG_MAX; lia.
  - lia.
  - unfold Main.SIZE_MAX; lia.
  - reflexivity.
Defined.

(** A fourth token of 64 characters overruns [buffer]: once three tokens
    are read, the loop condition [i < buflen - 1 || numWP >= 3] holds for
    every [i], and the character behind the 64th is stored at
    [buffer[64]], or ends the token with [buffer[64] = 0]. *)
Theorem readPPM_buffer_overrun (w h : Z) (tok : list Z) (c : Z)
  (rest : list Z) :
  0 < w <= Util.LONG_MAX -> 0 < h <= Util.LONG_MAX ->
  Forall (fun c => token_char c = true) tok -> length tok = 64%nat ->
  c <> 35 ->
  Main.readPPM
    ([80; 54] ++ 10 :: decimal_chars w ++ 32 :: decimal_chars h
       ++ 10 :: tok ++ c :: rest)
  = UB.
Proof.
  intros Hw Hh Htok Hlen Hc. unfold Main.readPPM.
  replace (S (length _))
    with (length (80 :: 54 :: [])%Z
          + S (length (decimal_chars w)
               + S (length (decimal_chars h)
                    + S (length tok + S (S (length rest))))))%nat
    by (repeat first [rewrite length_app | progress cbn [length]]; lia).
  destruct (header_prefix [] w h (length tok + S (S (length rest)))
              (tok ++ c :: rest) (Forall_nil _) ltac:(simpl; lia) Hw Hh)
    as (buffer & Lb & E).
  rewrite E. clear E.
  destruct tok as [|d tok]; [discriminate|]. cbn [length] in Hlen.
  pose proof (header_token tok d [] buffer (S (S (length rest))) (c :: rest)
                3 true w h Htok) as T.
  change (map Some [] ++ buffer) with buffer in T.
  change (Z.of_nat (length [])) with 0 in T.
  change ([] ++ d :: tok) with (d :: tok) in T.
  change (length [] + S (length tok))%nat with (S (length tok)) in T.
  cbn [length]. rewrite T by first [lia | now right]. clear T.
  rewrite Hlen, skipn_all2 by lia. rewrite app_nil_r.
  cbn [Main.header_loop]. change (3 <=? 3) with true.
  rewrite orb_true_r. cbn [andb].
  apply Z.eqb_neq in Hc. rewrite Hc.
  change (Z.of_nat 64) with 64. unfold Main.store.
  change ((0 <=? 64) && (64 <? Main.buflen)) with false. cbv iota.
  now destruct (Main.is_blank c).
Qed.

Lemma readPPM_buffer_overrun_witness :
  Main.readPPM
    ([80; 54] ++ 10 :: decimal_chars 2 ++ 32 :: decimal_chars 1
       ++ 10 :: repeat 50 64 ++ 10 :: [])
  = UB.
Proof.
  apply (readPPM_buffer_overrun 2 1 (repeat 50 64) 10 []).
  - unfold Util.LONG_MAX; lia.
  - unfold Util.LONG_MAX; lia.
  - apply Forall_forall. intros x Hx. apply repeat_spec in Hx. now subst x.
  - reflexivity.
  - discriminate.
Defined.

(** Before the fourth token the loop condition bounds the index: a file
    that begins with 63 characters of a token ends the program after the
    63rd, which is stored at [buffer[62]]. *)
Theorem readPPM_long_token (tok rest : list Z) :
  Forall (fun c => token_char c = true) tok -> length tok = 63%nat ->
  Main.readPPM (tok ++ rest) = Done Main.Exit_failure.
Proof.
  intros Htok Hlen. unfold Main.readPPM.
  replace (S (length _)) with (length tok + S (length rest))%nat
    by (rewrite length_app; lia).
  destruct tok as [|d tok]; [discriminate|]. cbn [length] in Hlen.
  pose proof (header_token tok d [] (repeat None 64) (S (length rest)) rest
                0 false 0 0 Htok) as T.
  change (map Some [] ++ repeat None 64) with (repeat None 64 : Main.buffer_t) in T.
  change (Z.of_nat (length [])) with 0 in T.
  change ([] ++ d :: tok) with (d :: tok) in T.
  change (length [] + S (length tok))%nat with (S (length tok)) in T.
  cbn [length]. rewrite T by first [left; lia | rewrite repeat_length; lia | lia].
  clear T. rewrite Hlen. cbn [Main.header_loop]. reflexivity.
Qed.

Lemma readPPM_long_token_witness :
  Main.readPPM (repeat 80 63 ++ [10]) = Done Main.Exit_failure.
Proof.
  apply (readPPM_long_token (repeat 80 63) [10]).
  - apply Forall_forall. intros x Hx. apply repeat_spec in Hx. now subst x.
  - reflexivity.
Defined.

(** [readPPM] does not read what [writePGM] writes: the file begins with
    "P5", and the program ends at the format check. *)
Theorem readPPM_rejects_writePGM (pixels : list Z) (width height : Z) :
  Main.readPPM (Main.writePGM pixels width height) = Done Main.Exit_failure.
Proof.
  unfold Main.readPPM, Main.writePGM.
  set (rest := decimal_chars width ++ _).
  change ([80; 53; 10] ++ rest) with ([80; 53] ++ 10 :: rest).
  replace (S (length _)) with (length [80; 53]%Z + S (S (length rest)))%nat
    by (rewrite length_app; cbn [length]; lia).
  destruct (header_word [80; 53] 10 (S (length rest)) rest 0 false
              (repeat None 64) 0 0) as [_ E];
    [discriminate
    |repeat (constructor; [reflexivity|]); constructor
    |reflexivity|reflexivity|left; cbn [length]; lia|cbn [length]; lia|].
  rewrite E. reflexivity.
Qed.

Lemma skip_comment_suffix (input out : list Z) :
  Main.skip_comment input = Some out -> exists pre, input = pre ++ out /\ pre <> [].
Proof.
  revert out. induction input as [|c input IH]; intros out H; [discriminate|].
  cbn [Main.skip_comment] in H. destruct ((c =? 13) || (c =? 10)).
  - injection H as <-. now exists [c].
  - destruct (IH out H) as (pre & -> & _). now exists (c :: pre).
Qed.

Lemma store_returns (buffer : Main.buffer_t) (i c : Z) :
  Main.store buffer i c <> Timeout.
Proof. unfold Main.store. now destruct ((0 <=? i) && (i <? Main.buflen)). Qed.

Lemma load_returns (buffer : Main.buffer_t) (i : Z) :
  Main.load buffer i <> Timeout.
Proof.
  unfold Main.load. destruct ((0 <=? i) && (i <? Main.buflen)); [|discriminate].
  now destruct (nth (Z.to_nat i) buffer None).
Qed.

Lemma c_string_returns (buffer : Main.buffer_t) :
  Main.c_string buffer <> Timeout.
Proof.
  induction buffer as [|[c|] rest IH]; cbn [Main.c_string]; try discriminate.
  destruct (c =? 0); [discriminate|].
  destruct (Main.c_string rest); try discriminate. congruence.
Qed.

Lemma end_token_returns (numWP : Z) (buffer : Main.buffer_t) (width height : Z) :
  Main.end_token numWP buffer width height <> Timeout.
Proof.
  unfold Main.end_token.
  pose proof (load_returns buffer 0) as L0.
  pose proof (load_returns buffer 1) as L1.
  pose proof (c_string_returns buffer) as Cs.
  destruct (numWP =? 0).
  { destruct (Main.load buffer 0) as [b0| |]; [|discriminate|congruence].
    cbn [bind]. destruct (negb (b0 =? 80)); [discriminate|].
    destruct (Main.load buffer 1) as [b1| |]; [|discriminate|congruence].
    cbn [bind]. now destruct (negb (b1 =? 54)). }
  destruct (Main.c_string buffer) as [str| |]; [| |congruence].
  - cbn [bind].
    destruct (numWP =? 1); [|destruct (numWP =? 2); [|destruct (numWP =? 3)]];
      try discriminate;
      destruct (Util.stringToLong (Some str)) as [z|]; try discriminate.
    + now destruct (z <=? 0).
    + now destruct (z <=? 0).
    + now destruct ((256 <=? z) || (z <=? 0)).
  - cbn [bind].
    destruct (numWP =? 1); [|destruct (numWP =? 2); [|destruct (numWP =? 3)]];
      discriminate.
Qed.

(** The fuel [readPPM] gives the loop is enough: every run of the body
    reads at least one character. *)
Lemma header_loop_returns (fuel : nat) (input : list Z) (i numWP : Z)
  (token_switch : bool) (buffer : Main.buffer_t) (width height : Z) :
  (length input < fuel)%nat ->
  Main.header_loop fuel input i numWP token_switch buffer width height
  <> Timeout.
Proof.
  revert input i numWP token_switch buffer width height.
  induction fuel as [|fuel IH];
    intros input i numWP token_switch buffer width height Hlen; [lia|].
  cbn [Main.header_loop].
  destruct ((i <? Main.buflen - 1) || (3 <=? numWP)); [|discriminate].
  destruct input as [|curr input]; [discriminate|]. cbn [length] in Hlen.
  assert (Hc : forall out, Main.skip_comment input = Some out ->
                           (length out < fuel)%nat).
  { intros out Ho. destruct (skip_comment_suffix _ _ Ho) as (pre & -> & _).
    rewrite length_app in Hlen. lia. }
  destruct (token_switch && Main.is_blank curr); [apply IH; lia|].
  destruct (token_switch && (curr =? 35)).
  { destruct (Main.skip_comment input) as [out|]; [|discriminate].
    apply IH. now apply Hc. }
  destruct (curr =? 35).
  { destruct (Main.skip_comment input) as [out|]; [|discriminate].
    apply IH. now apply Hc. }
  destruct (Main.is_blank curr).
  - pose proof (store_returns buffer i 0) as St.
    destruct (Main.store buffer i 0) as [b| |]; [|discriminate|congruence].
    cbn [bind]. pose proof (end_token_returns numWP b width height) as Et.
    destruct (Main.end_token numWP b width height) as [[w' h'| |]| |];
      cbn [bind]; try discriminate; [apply IH; lia|congruence].
  - pose proof (store_returns buffer i curr) as St.
    destruct (Main.store buffer i curr) as [b| |]; [|discriminate|congruence].
    cbn [bind]. apply IH. lia.
Qed.

Lemma end_token_next (numWP : Z) (buffer : Main.buffer_t)
  (width height w h : Z) :
  Main.end_token numWP buffer width height = Done (Main.Next_token w h) ->
  (numWP = 0 /\ w = width /\ h = height)
  \/ (numWP = 1 /\ 0 < w <= Util.LONG_MAX /\ h = height)
  \/ (numWP = 2 /\ w = width /\ 0 < h <= Util.LONG_MAX).
Proof.
  unfold Main.end_token.
  destruct (Z.eqb_spec numWP 0) as [->|_].
  { destruct (Main.load buffer 0) as [b0| |]; try discriminate. cbn [bind].
    destruct (negb (b0 =? 80)); [discriminate|].
    destruct (Main.load buffer 1) as [b1| |]; try discriminate. cbn [bind].
    destruct (negb (b1 =? 54)); [discriminate|].
    intros E. injection E as <- <-. now left. }
  destruct (Z.eqb_spec numWP 1) as [->|_].
  { destruct (Main.c_string buffer) as [str| |]; try discriminate. cbn [bind].
    destruct (Util.stringToLong (Some str)) as [z|] eqn:Ez; [|discriminate].
    destruct (Z.leb_spec z 0); [discriminate|].
    intros E. injection E as <- <-. right. left.
    pose proof (stringToLong_range _ _ Ez). repeat split; lia. }
  destruct (Z.eqb_spec numWP 2) as [->|_].
  { destruct (Main.c_string buffer) as [str| |]; try discriminate. cbn [bind].
    destruct (Util.stringToLong (Some str)) as [z|] eqn:Ez; [|discriminate].
    destruct (Z.leb_spec z 0); [discriminate|].
    intros E. injection E as <- <-. right. right.
    pose proof (stringToLong_range _ _ Ez). repeat split; lia. }
  destruct (numWP =? 3); [|discriminate].
  destruct (Main.c_string buffer) as [str| |]; try discriminate. cbn [bind].
  destruct (Util.stringToLong (Some str)) as [z|]; [|discriminate].
  now destruct ((256 <=? z) || (z <=? 0)).
Qed.

Lemma end_token_break (numWP : Z) (buffer : Main.buffer_t)
  (width height : Z) :
  Main.end_token numWP buffer width height = Done Main.Break -> numWP = 3.
Proof.
  unfold Main.end_token.
  destruct (Z.eqb_spec numWP 0) as [->|_].
  { destruct (Main.load buffer 0) as [b0| |]; try discriminate. cbn [bind].
    destruct (negb (b0 =? 80)); [discriminate|].
    destruct (Main.load buffer 1) as [b1| |]; try discriminate. cbn [bind].
    now destruct (negb (b1 =? 54)). }
  destruct (Z.eqb_spec numWP 1) as [->|_].
  { destruct (Main.c_string buffer) as [str| |]; try discriminate. cbn [bind].
    destruct (Util.stringToLong (Some str)) as [z|]; [|discriminate].
    now destruct (z <=? 0). }
  destruct (Z.eqb_spec numWP 2) as [->|_].
  { destruct (Main.c_string buffer) as [str| |]; try discriminate. cbn [bind].
    destruct (Util.stringToLong (Some str)) as [z|]; [|discriminate].
    now destruct (z <=? 0). }
  destruct (Z.eqb_spec numWP 3) as [->|_]; [reflexivity|discriminate].
Qed.

(** What the loop hands on at [break]: a width and a height that
    [stringToLong] read and that are positive, and the file from the
    character behind the blank of the fourth token on. *)
Lemma header_loop_break (fuel : nat) (input : list Z) (i numWP : Z)
  (token_switch : bool) (buffer : Main.buffer_t) (width height : Z)
  (w h : Z) (rest : list Z) :
  Main.header_loop fuel input i numWP token_switch buffer width height
  = Done (Main.Header w h rest) ->
  (2 <= numWP -> 0 < width <= Util.LONG_MAX) ->
  (3 <= numWP -> 0 < height <= Util.LONG_MAX) ->
  0 < w <= Util.LONG_MAX /\ 0 < h <= Util.LONG_MAX
  /\ exists pre, input = pre ++ rest.
Proof.
  revert input i numWP token_switch buffer width height.
  induction fuel as [|fuel IH];
    intros input i numWP token_switch buffer width height H Hw Hh;
    [discriminate|].
  cbn [Main.header_loop] in H.
  destruct ((i <? Main.buflen - 1) || (3 <=? numWP)); [|discriminate].
  destruct input as [|curr input]; [discriminate|].
  assert (Step : forall input' i' ts' buffer',
    (exists pre, input = pre ++ input') ->
    Main.header_loop fuel input' i' numWP ts' buffer' width height
    = Done (Main.Header w h rest) ->
    0 < w <= Util.LONG_MAX /\ 0 < h <= Util.LONG_MAX
    /\ exists pre, curr :: input = pre ++ rest).
  { intros input' i' ts' buffer' (pre & ->) H'.
    destruct (IH _ _ _ _ _ _ _ H' Hw Hh) as (A & B & pre' & ->).
    split; [exact A|]. split; [exact B|].
    exists (curr :: pre ++ pre'). cbn [app]. now rewrite <- app_assoc. }
  destruct (token_switch && Main.is_blank curr).
  { apply (Step _ _ _ _ (ex_intro _ [] eq_refl) H). }
  destruct (token_switch && (curr =? 35)).
  { destruct (Main.skip_comment input) as [out|] eqn:Es; [|discriminate].
    destruct (skip_comment_suffix _ _ Es) as (pre & E & _).
    apply (Step _ _ _ _ (ex_intro _ pre E) H). }
  destruct (curr =? 35).
  { destruct (Main.skip_comment input) as [out|] eqn:Es; [|discriminate].
    destruct (skip_comment_suffix _ _ Es) as (pre & E & _).
    apply (Step _ _ _ _ (ex_intro _ pre E) H). }
  destruct (Main.is_blank curr).
  - destruct (Main.store buffer i 0) as [b| |]; try discriminate.
    cbn [bind] in H.
    destruct (Main.end_token numWP b width height) as [[w' h'| |]| |] eqn:Et;
      cbn [bind] in H; try discriminate.
    + destruct (IH _ _ _ _ _ _ _ H) as (A & B & pre' & ->).
      * destruct (end_token_next _ _ _ _ _ _ Et)
          as [(-> & -> & ->)|[(-> & Hw' & ->)|(-> & -> & Hh')]]; intros; lia.
      * destruct (end_token_next _ _ _ _ _ _ Et)
          as [(-> & -> & ->)|[(-> & Hw' & ->)|(-> & -> & Hh')]]; intros; lia.
      * split; [exact A|]. split; [exact B|]. now exists (curr :: pre').
    + apply end_token_break in Et. injection H as <- <- <-.
      split; [apply Hw; lia|]. split; [apply Hh; lia|]. now exists [curr].
  - destruct (Main.store buffer i curr) as [b| |]; try discriminate.
    cbn [bind] in H. apply (Step _ _ _ _ (ex_intro _ [] eq_refl) H).
Qed.

(** [readPPM] ends on every file: every run of the loop's body reads at
    least one character, and the loop is left when the file has no
    more. *)
Theorem readPPM_returns (file : list Z) : Main.readPPM file <> Timeout.
Proof.
  unfold Main.readPPM.
  pose proof (header_loop_returns (S (length file)) file 0 0 false
                (repeat None 64) 0 0 ltac:(lia)) as R.
  destruct (Main.header_loop (S (length file)) file 0 0 false
              (repeat None 64) 0 0) as [[w h rest|]| |];
    cbn [bind]; [|discriminate|discriminate|congruence].
  destruct (Main.SIZE_MAX <? 3 * h); [discriminate|].
  destruct (Main.SIZE_MAX <? 3 * h * w); [discriminate|].
  now destruct (Z.of_nat (length rest) <? 3 * h * w).
Qed.

(** An image [readPPM] returns has a positive width and height and as
    many bytes as [3 * height * width], which are consecutive bytes of
    the file; [width * height] fits [size_t], so the overflow check of
    [main] behind the call never fails. *)
Theorem readPPM_image (file : list Z) (width height : Z) (data : list Z) :
  Main.readPPM file = Done (Main.Image width height data) ->
  0 < width <= Util.LONG_MAX /\ 0 < height <= Util.LONG_MAX
  /\ Z.of_nat (length data) = 3 * height * width
  /\ width * height <= Main.SIZE_MAX
  /\ exists header extra, file = header ++ data ++ extra.
Proof.
  unfold Main.readPPM.
  destruct (Main.header_loop (S (length file)) file 0 0 false
              (repeat None 64) 0 0) as [[w h rest|]| |] eqn:E;
    cbn [bind]; try discriminate.
  destruct (header_loop_break _ _ _ _ _ _ _ _ _ _ _ E)
    as (Hw & Hh & pre & ->); try lia.
  destruct (Z.ltb_spec Main.SIZE_MAX (3 * h)); [discriminate|].
  destruct (Z.ltb_spec Main.SIZE_MAX (3 * h * w)); [discriminate|].
  destruct (Z.ltb_spec (Z.of_nat (length rest)) (3 * h * w)); [discriminate|].
  intros I.
  assert (J : width = w /\ height = h
              /\ data = firstn (Z.to_nat (3 * h * w)) rest)
    by (repeat split; congruence).
  clear I. destruct J as (-> & -> & ->).
  split; [exact Hw|]. split; [exact Hh|]. split.
  { assert (0 <= 3 * h * w) by nia. rewrite length_firstn.
    generalize dependent (3 * h * w). intros n; intros.
    rewrite Nat2Z.inj_min, Z2Nat.id by lia. lia. }
  split; [nia|].
  exists pre, (skipn (Z.to_nat (3 * h * w)) rest).
  now rewrite firstn_skipn.
Qed.

Lemma readPPM_image_witness :
  0 < 1 <= Util.LONG_MAX /\ 0 < 2 <= Util.LONG_MAX
  /\ Z.of_nat (length [10; 20; 30; 40; 50; 60]) = 3 * 2 * 1
  /\ 1 * 2 <= Main.SIZE_MAX
  /\ exists header extra,
       [80; 54; 32; 35; 120; 10; 49; 9; 50; 13; 50; 53; 53; 10;
        10; 20; 30; 40; 50; 60; 70]
       = header ++ [10; 20; 30; 40; 50; 60] ++ extra.
Proof.
  apply (readPPM_image
           [80; 54; 32; 35; 120; 10; 49; 9; 50; 13; 50; 53; 53; 10;
            10; 20; 30; 40; 50; 60; 70] 1 2 [10; 20; 30; 40; 50; 60]).
  reflexivity.
Defined.

Lemma skip_comment_line (cmt : list Z) (nl : Z) (input : list Z) :
  Forall (fun c => (c =? 13) || (c =? 10) = false) cmt ->
  (nl =? 13) || (nl =? 10) = true ->
  Main.skip_comment (cmt ++ nl :: input) = Some input.
Proof.
  intros Hc Hn. induction Hc as [|c cmt Hc _ IH]; cbn [app Main.skip_comment].
  - now rewrite Hn.
  - now rewrite Hc.
Qed.

(** A comment: the line is read to its end, the index and the switch
    stay as they are. *)
Lemma header_comment (fuel : nat) (cmt : list Z) (nl : Z) (input : list Z)
  (i numWP : Z) (token_switch : bool) (buffer : Main.buffer_t)
  (width height : Z) :
  i < 63 \/ 3 <= numWP ->
  Forall (fun c => (c =? 13) || (c =? 10) = false) cmt ->
  (nl =? 13) || (nl =? 10) = true ->
  Main.header_loop (S fuel) (35 :: cmt ++ nl :: input) i numWP token_switch
    buffer width height
  = Main.header_loop fuel input (if token_switch then 0 else i) numWP
      token_switch buffer width height.
Proof.
  intros Hcond Hc Hn. cbn [Main.header_loop].
  assert (Cond : (i <? Main.buflen - 1) || (3 <=? numWP) = true).
  { apply orb_true_iff. destruct Hcond as [Hcond|Hcond].
    - left. apply Z.ltb_lt. unfold Main.buflen. lia.
    - right. now apply Z.leb_le. }
  rewrite Cond. change (Main.is_blank 35) with false.
  change (35 =? 35) with true. rewrite andb_false_r, andb_true_r.
  rewrite skip_comment_line by assumption.
  destruct token_switch; [reflexivity|].
  now replace (i - 1 + 1) with i by lia.
Qed.

(** A comment in or before a token: the loop goes on as on the file
    without the comment, and the end of the comment's line does not end
    the token. *)
Lemma header_word_comment (t1 t2 cmt : list Z) (nl : Z) (fuel : nat)
  (input : list Z) (numWP : Z) (token_switch : bool)
  (buffer : Main.buffer_t) (width height : Z) :
  Forall (fun c => token_char c = true) t1 ->
  Forall (fun c => (c =? 13) || (c =? 10) = false) cmt ->
  (nl =? 13) || (nl =? 10) = true ->
  length buffer = 64%nat ->
  (length t1 < 63)%nat \/ 3 <= numWP -> (length t1 <= 64)%nat ->
  Main.header_loop (length t1 + S fuel) (t1 ++ 35 :: cmt ++ nl :: input)
    0 numWP token_switch buffer width height
  = Main.header_loop (length t1 + fuel) (t1 ++ input)
      0 numWP token_switch buffer width height.
Proof.
  intros Ht Hc Hn Lb Hcond Hlen. destruct t1 as [|c t1].
  - cbn [length Nat.add app]. rewrite header_comment; try assumption.
    + now destruct token_switch.
    + destruct Hcond; [left; lia|now right].
  - cbn [length] in *.
    pose proof (header_token t1 c [] buffer (S fuel)
                  (35 :: cmt ++ nl :: input) numWP token_switch width height
                  Ht) as T1.
    pose proof (header_token t1 c [] buffer fuel input numWP token_switch
                  width height Ht) as T2.
    change (map Some [] ++ buffer) with buffer in T1, T2.
    change (Z.of_nat (length [])) with 0 in T1, T2.
    change (length [] + S (length t1))%nat with (S (length t1)) in T1, T2.
    rewrite T1, T2 by first [lia | destruct Hcond; [left; lia|now right]].
    rewrite header_comment; try assumption; [reflexivity|].
    destruct Hcond; [left; lia|now right].
Qed.

(** [readPPM] reads over a comment in the header, also one in the middle
    of a token: with a comment between the characters of the width, or
    before or behind them, the file is read as without it, and the end of
    the comment's line does not end the token. *)
Theorem readPPM_comment (t1 t2 cmt : list Z) (nl : Z) (w h m : Z)
  (data extra : list Z) :
  t1 ++ t2 = decimal_chars w ->
  Forall (fun c => (c =? 13) || (c =? 10) = false) cmt ->
  (nl =? 13) || (nl =? 10) = true ->
  0 < w <= Util.LONG_MAX -> 0 < h <= Util.LONG_MAX -> 0 < m < 256 ->
  3 * h * w <= Main.SIZE_MAX ->
  Z.of_nat (length data) = 3 * h * w ->
  Main.readPPM
    ([80; 54] ++ 10 :: t1 ++ 35 :: cmt ++ nl :: t2 ++ 32 :: decimal_chars h
       ++ 10 :: decimal_chars m ++ 10 :: data ++ extra)
  = Done (Main.Image w h data).
Proof.
  intros Hsplit Hc Hn Hw Hh Hm Hsize Hdata. unfold Main.readPPM.
  set (rest := data ++ extra).
  assert (Hm' : 0 < m <= Util.LONG_MAX) by (unfold Util.LONG_MAX; lia).
  destruct (decimal_word w Hw) as (Nw & Tw & Lw).
  destruct (decimal_word m Hm') as (Nm & Tm & Lm).
  rewrite <- Hsplit in Tw, Lw. rewrite length_app in Lw.
  apply Forall_app in Tw as [T1 _].
  set (tail := decimal_chars m ++ 10 :: rest).
  set (k := S (S (length cmt + length rest))).
  set (fuel := (S (length (decimal_chars h)
                   + S (length (decimal_chars m) + S k)))%nat).
  replace (S (length _))
    with (length [80; 54]%Z + S (length t1 + S (length t2 + fuel)))%nat
    by (unfold fuel, k, tail;
        repeat first [rewrite length_app | progress cbn [length]]; lia).
  destruct (header_format [] (length t1 + S (length t2 + fuel))
              (t1 ++ 35 :: cmt ++ nl :: t2 ++ 32 :: decimal_chars h
                 ++ 10 :: tail)
              (Forall_nil _) ltac:(simpl; lia)) as (b0 & L0 & E0).
  rewrite E0. clear E0.
  rewrite header_word_comment by first [assumption | lia].
  rewrite app_assoc, Hsplit.
  replace (length t1 + (length t2 + fuel))%nat
    with (length (decimal_chars w) + fuel)%nat
    by (rewrite <- Hsplit, length_app; lia).
  unfold fuel.
  destruct (header_dims w h (length (decimal_chars m) + S k) tail b0 0 0
              Hw Hh L0) as (b1 & L1 & E1).
  rewrite E1. clear E1. unfold tail.
  destruct (header_word (decimal_chars m) 10 k rest 3 true b1 w h)
    as [_ E3];
    [assumption|assumption|reflexivity|assumption|left; lia|lia|].
  rewrite E3, end_token_maxval by assumption. cbn [bind]. clear E3.
  destruct (Z.ltb_spec Main.SIZE_MAX (3 * h)); [nia|].
  destruct (Z.ltb_spec Main.SIZE_MAX (3 * h * w)); [lia|].
  destruct (Z.ltb_spec (Z.of_nat (length rest)) (3 * h * w)) as [G|_].
  { unfold rest in G. rewrite length_app in G. lia. }
  rewrite <- Hdata, Nat2Z.id. unfold rest.
  rewrite firstn_app, Nat.sub_diag, firstn_all. cbn [firstn].
  now rewrite app_nil_r.
Qed.

Lemma readPPM_comment_witness :
  Main.readPPM
    ([80; 54] ++ 10 :: [49] ++ 35 :: [120; 32; 121] ++ 10 :: [50]
       ++ 32 :: decimal_chars 1 ++ 10 :: decimal_chars 255
       ++ 10 :: repeat 7 36 ++ [])
  = Done (Main.Image 12 1 (repeat 7 36)).
Proof.
  apply (readPPM_comment [49] [50] [120; 32; 121] 10 12 1 255 (repeat 7 36) []).
  - reflexivity.
  - repeat constructor.
  - reflexivity.
  - unfold Util.LONG_MAX; lia.
  - unfold Util.LONG_MAX; lia.
  - lia.
  - unfold Main.SIZE_MAX; lia.
  - reflexivity.
Defined.
